(** * Grandicast: the streaming pipeline and the broadcast relay

    A shallow embedding of [src/ndi-manager.cjs] (the per-window NDI sender:
    pacing loop, audio queue, drain), of [src/preload-browser.cjs] (the
    bridged BroadcastChannel and the audio capture processors) and of the
    two handlers of [src/main.cjs] that carry broadcast messages and audio
    between the renderers and the managers, with the properties of the
    design document, and further properties of the code, proved about them.

    JavaScript runs one turn at a time.  An [async] method is a coroutine: it
    runs synchronously up to its next [await], is parked there, and is resumed
    in a later turn when the awaited promise settles.  Each module below keeps
    the parked coroutines in its state and has one [step] function that runs a
    single turn. *)

From Stdlib Require Import QArith Qminmax.
From stdpp Require Import list strings gmap.

Local Open Scope Z_scope.

(** ** Results of calls that may throw *)

Inductive error :=
| Error (msg : string)
| TypeError
| InvalidStateError
| DataCloneError.

(** A call either returns, or throws; either way it leaves a state behind. *)
Inductive outcome (A : Type) :=
| Returned (a : A)
| Thrown (e : error) (a : A).
Arguments Returned {A} a.
Arguments Thrown {A} e a.

Definition state_of {A} (o : outcome A) : A :=
  match o with Returned a | Thrown _ a => a end.

(** * ndi-manager.cjs *)

Module Ndi.

Definition Buffer := list Z.
Definition handle := nat.
Definition timer := nat.

(** An element of [_audioQueue]: [{ data: planarBuf, noSamples }]. *)
Record chunk := Chunk { data : Buffer; noSamples : Z }.

(** What [capturePage()] resolves to, and what [toBitmap] makes of it. *)
Record image := Image { img_width : Z; img_height : Z; img_pixels : Buffer }.

Inductive bitmap :=
| ToBitmap (img : image)
| ResizedBitmap (img : image) (w h : Z).

(** The argument of [sender.video]. *)
Record VideoFrame := {
  xres : Z;
  yres : Z;
  frameRateN : Q;
  frameRateD : Z;
  pictureAspectRatio : Q;
  lineStrideBytes : Z;
  v_data : bitmap;
  v_timecode : Z;
  v_timestamp : Z * Z;
}.

(** The argument of [sender.audio]. *)
Record AudioFrame := {
  sampleRate : Z;
  noChannels : Z;
  a_noSamples : Z;
  channelStrideBytes : Z;
  a_data : Buffer;
  a_timecode : Z;
  a_timestamp : Z * Z;
}.

(** Calls made on a grandi sender handle. *)
Inductive call :=
| Video (h : handle) (f : VideoFrame)
| Audio (h : handle) (f : AudioFrame)
| Destroy (h : handle).

Inductive log_entry :=
| LogStarted (name : string)
| LogVideoError
| LogFirstAudio (n : Z)
| LogAudioError
| LogDestroyError.

(** The fields of [this]. *)
Record NdiManager := {
  windowId : Z;
  sender : option handle;
  running : bool;
  _timeout : option timer;
  fps : Q;
  width : Z;
  height : Z;
  audioEnabled : bool;
  _audioSampleRate : Z;
  _audioChannels : Z;
  _audioLogDone : bool;
  _audioDraining : bool;
  _audioQueue : list chunk;
}.

Definition constructor (id : Z) : NdiManager :=
  {| windowId := id; sender := None; running := false; _timeout := None;
     fps := 30%Q; width := 1280; height := 720; audioEnabled := false;
     _audioSampleRate := 48000; _audioChannels := 2; _audioLogDone := false;
     _audioDraining := false; _audioQueue := [] |}.

Definition set_sender (x : option handle) (m : NdiManager) : NdiManager :=
  let '(Build_NdiManager id _ rn tm fp wd ht ae sr ch ld dr q) := m in
  Build_NdiManager id x rn tm fp wd ht ae sr ch ld dr q.

Definition set_running (x : bool) (m : NdiManager) : NdiManager :=
  let '(Build_NdiManager id sd _ tm fp wd ht ae sr ch ld dr q) := m in
  Build_NdiManager id sd x tm fp wd ht ae sr ch ld dr q.

Definition set_timeout (x : option timer) (m : NdiManager) : NdiManager :=
  let '(Build_NdiManager id sd rn _ fp wd ht ae sr ch ld dr q) := m in
  Build_NdiManager id sd rn x fp wd ht ae sr ch ld dr q.

Definition set_config (f : Q) (w h : Z) (a : bool) (m : NdiManager) : NdiManager :=
  let '(Build_NdiManager id sd rn tm _ _ _ _ sr ch ld dr q) := m in
  Build_NdiManager id sd rn tm f w h a sr ch ld dr q.

Definition set_audioLogDone (x : bool) (m : NdiManager) : NdiManager :=
  let '(Build_NdiManager id sd rn tm fp wd ht ae sr ch _ dr q) := m in
  Build_NdiManager id sd rn tm fp wd ht ae sr ch x dr q.

Definition set_audioDraining (x : bool) (m : NdiManager) : NdiManager :=
  let '(Build_NdiManager id sd rn tm fp wd ht ae sr ch ld _ q) := m in
  Build_NdiManager id sd rn tm fp wd ht ae sr ch ld x q.

Definition set_audioQueue (x : list chunk) (m : NdiManager) : NdiManager :=
  let '(Build_NdiManager id sd rn tm fp wd ht ae sr ch ld dr _) := m in
  Build_NdiManager id sd rn tm fp wd ht ae sr ch ld dr x.

(** Parked coroutines, named after the [await] they are parked at. *)
Inductive loop_task :=
| LoopAwaitStop
| LoopAwaitCapture (t0 : Q) (ns : Z)
| LoopAwaitVideo (t0 : Q).

Inductive drain_task :=
| DrainAwaitAudio (c : chunk).

Inductive start_task :=
| StartAwaitStop (ndiName : string) (f : Q) (w h : Z) (a : bool)
| StartAwaitSend (ndiName : string).

(** The manager together with the runtime around it: the window, the native
    module, the parked coroutines, the armed timers, and the trace of what was
    called on sender handles and written to the console. *)
Record World := {
  this : NdiManager;
  grandi : bool;
  destroyed : bool;
  loops : list loop_task;
  drains : list drain_task;
  starts : list start_task;
  timers : list (timer * Q);
  next_timer : timer;
  next_handle : handle;
  calls : list call;
  console : list log_entry;
}.

Definition new_world (id : Z) (grandi_loaded : bool) : World :=
  {| this := constructor id; grandi := grandi_loaded; destroyed := false;
     loops := []; drains := []; starts := []; timers := [];
     next_timer := 0%nat; next_handle := 0%nat; calls := []; console := [] |}.

Definition on_this (f : NdiManager → NdiManager) (w : World) : World :=
  let '(Build_World m g d ls ds ss ts nt nh cs co) := w in
  Build_World (f m) g d ls ds ss ts nt nh cs co.

Definition set_destroyed (x : bool) (w : World) : World :=
  let '(Build_World m g _ ls ds ss ts nt nh cs co) := w in
  Build_World m g x ls ds ss ts nt nh cs co.

Definition set_loops (x : list loop_task) (w : World) : World :=
  let '(Build_World m g d _ ds ss ts nt nh cs co) := w in
  Build_World m g d x ds ss ts nt nh cs co.

Definition set_drains (x : list drain_task) (w : World) : World :=
  let '(Build_World m g d ls _ ss ts nt nh cs co) := w in
  Build_World m g d ls x ss ts nt nh cs co.

Definition set_starts (x : list start_task) (w : World) : World :=
  let '(Build_World m g d ls ds _ ts nt nh cs co) := w in
  Build_World m g d ls ds x ts nt nh cs co.

Definition set_timers (x : list (timer * Q)) (n : timer) (w : World) : World :=
  let '(Build_World m g d ls ds ss _ _ nh cs co) := w in
  Build_World m g d ls ds ss x n nh cs co.

Definition set_next_handle (n : handle) (w : World) : World :=
  let '(Build_World m g d ls ds ss ts nt _ cs co) := w in
  Build_World m g d ls ds ss ts nt n cs co.

Definition do_call (c : call) (w : World) : World :=
  let '(Build_World m g d ls ds ss ts nt nh cs co) := w in
  Build_World m g d ls ds ss ts nt nh (cs ++ [c]) co.

Definition log (l : log_entry) (w : World) : World :=
  let '(Build_World m g d ls ds ss ts nt nh cs co) := w in
  Build_World m g d ls ds ss ts nt nh cs (co ++ [l]).

(** What the environment answers during one turn: [performance.now()],
    [process.hrtime.bigint()], and whether [sender.destroy()] throws. *)
Record env := Env { now : Q; hrtime : Z; destroy_throws : bool }.

(** [ns / 100n] and [[Number(ns / 1_000_000_000n), Number(ns % 1_000_000_000n)]];
    BigInt division truncates. *)
Definition timecode_of (ns : Z) : Z := Z.quot ns 100.
Definition timestamp_of (ns : Z) : Z * Z :=
  (Z.quot ns 1000000000, Z.rem ns 1000000000).

(** [x || d] on numbers. *)
Definition Zor (x d : Z) : Z := if x =? 0 then d else x.
Definition Qor (x d : Q) : Q := if Qeq_bool x 0 then d else x.

Definition clearTimeout (t : timer) (w : World) : World :=
  set_timers (filter (λ p, p.1 ≠ t) (timers w)) (next_timer w) w.

(** [stop()], lines 199-214.  The body has no [await]: it runs to its end in
    the turn that calls it. *)
Definition stop (e : env) (w : World) : World :=
  let w := on_this (set_running false) w in
  let w := match _timeout (this w) with
           | Some t => on_this (set_timeout None) (clearTimeout t w)
           | None => w
           end in
  let w := on_this (set_audioQueue []) w in
  match sender (this w) with
  | Some h =>
      let w := do_call (Destroy h) w in
      let w := if destroy_throws e then log LogDestroyError w else w in
      on_this (set_sender None) w
  | None => w
  end.

(** The end of [_loop], lines 128-133. *)
Definition loop_delay (f t0 t1 : Q) : Q :=
  let elapsed := (t1 - t0)%Q in
  let interval := (1000 / f)%Q in
  Qmax 1 (interval - elapsed).

Definition loop_rearm (e : env) (t0 : Q) (w : World) : World :=
  if negb (running (this w)) then w
  else
    let delay := loop_delay (fps (this w)) t0 (now e) in
    let id := next_timer w in
    on_this (set_timeout (Some id))
      (set_timers (timers w ++ [(id, delay)]) (S id) w).

(** The [catch] of the video block, lines 117-124, then the end of the loop. *)
Definition loop_catch (e : env) (t0 : Q) (w : World) : World :=
  let w := if running (this w) then log LogVideoError w else w in
  loop_rearm e t0 w.

(** [_loop()] from its first line to [await capturePage()], lines 75-92. *)
Definition loop_enter (e : env) (w : World) : World :=
  if negb (running (this w)) || negb (bool_decide (is_Some (sender (this w))))
  then w
  else if destroyed w then
    let w := stop e w in
    set_loops (loops w ++ [LoopAwaitStop]) w
  else
    set_loops (loops w ++ [LoopAwaitCapture (now e) (hrtime e)]) w.

(** [capturePage()] has settled: lines 93-116 up to [await sender.video]. *)
Definition loop_captured (e : env) (t0 : Q) (ns : Z) (r : option image)
    (w : World) : World :=
  match r with
  | None => loop_catch e t0 w
  | Some img =>
      let m := this w in
      let bmp :=
        if negb (img_width img =? width m) || negb (img_height img =? height m)
        then ResizedBitmap img (width m) (height m)
        else ToBitmap img in
      match sender m with
      | None => loop_catch e t0 w
      | Some h =>
          let frame :=
            {| xres := width m; yres := height m; frameRateN := fps m;
               frameRateD := 1;
               pictureAspectRatio := (inject_Z (width m) / inject_Z (height m))%Q;
               lineStrideBytes := width m * 4; v_data := bmp;
               v_timecode := timecode_of ns; v_timestamp := timestamp_of ns |} in
          let w := do_call (Video h frame) w in
          set_loops (loops w ++ [LoopAwaitVideo t0]) w
      end
  end.

(** [sender.video] has settled. *)
Definition loop_sent (e : env) (t0 : Q) (ok : bool) (w : World) : World :=
  if ok then loop_rearm e t0 w else loop_catch e t0 w.

(** The [while] of [_drainAudioQueue], lines 158-178, from its test to
    [await sender.audio]; when the test fails, line 195. *)
Definition drain_loop (e : env) (w : World) : World :=
  let m := this w in
  match _audioQueue m, running m, sender m with
  | c :: rest, true, Some h =>
      let w := on_this (set_audioQueue rest) w in
      let ns := hrtime e in
      let frame :=
        {| sampleRate := _audioSampleRate m; noChannels := _audioChannels m;
           a_noSamples := noSamples c; channelStrideBytes := noSamples c * 4;
           a_data := data c; a_timecode := timecode_of ns;
           a_timestamp := timestamp_of ns |} in
      let w := do_call (Audio h frame) w in
      set_drains (drains w ++ [DrainAwaitAudio c]) w
  | _, _, _ => on_this (set_audioDraining false) w
  end.

(** [_drainAudioQueue()] from its first line. *)
Definition drainAudioQueue (e : env) (w : World) : World :=
  drain_loop e (on_this (set_audioDraining true) w).

(** [sender.audio] has settled: lines 179-193, then round the loop. *)
Definition drain_sent (e : env) (c : chunk) (ok : bool) (w : World) : World :=
  let w :=
    if ok then
      if negb (_audioLogDone (this w))
      then on_this (set_audioLogDone true) (log (LogFirstAudio (noSamples c)) w)
      else w
    else if running (this w) then log LogAudioError w else w in
  drain_loop e w.

(** [pushAudio(planarBuf, noSamples)], lines 142-153. *)
Definition pushAudio (e : env) (planarBuf : Buffer) (n : Z) (w : World)
  : World :=
  let m := this w in
  if negb (running m) || negb (audioEnabled m)
     || negb (bool_decide (is_Some (sender m)))
  then w
  else
    let q := _audioQueue m in
    let q := if bool_decide (8 ≤ length q)%nat then tail q else q in
    let w := on_this (set_audioQueue (q ++ [Chunk planarBuf n])) w in
    if negb (_audioDraining (this w)) then drainAudioQueue e w else w.

(** [start] from line 53 to [await grandi.send], and after it. *)
Definition start_body (ndiName : string) (f : Q) (wd h : Z) (a : bool)
    (w : World) : World :=
  let w := on_this (set_config (Qor f 30) (Zor wd 1280) (Zor h 720) a) w in
  set_starts (starts w ++ [StartAwaitSend ndiName]) w.

Definition start_created (e : env) (ndiName : string) (w : World) : World :=
  let h := next_handle w in
  let w := set_next_handle (S h) w in
  let w := on_this (set_sender (Some h)) w in
  let w := on_this (set_audioQueue []) w in
  let w := on_this (set_running true) w in
  let w := log (LogStarted ndiName) w in
  loop_enter e w.

(** [start(ndiName, fps, width, height, audioEnabled)], lines 49-52. *)
Definition start (e : env) (ndiName : string) (f : Q) (wd h : Z) (a : bool)
    (w : World) : outcome World :=
  if negb (grandi w) then
    Thrown (Error "grandi native module is not available") w
  else if running (this w) then
    let w := stop e w in
    Returned (set_starts (starts w ++ [StartAwaitStop ndiName f wd h a]) w)
  else Returned (start_body ndiName f wd h a w).

(** What can happen in a turn. *)
Inductive action :=
| CallStart (ndiName : string) (f : Q) (w h : Z) (a : bool)
| CallStop
| CallPushAudio (planarBuf : Buffer) (n : Z)
| SetSize (w h : Z)
| WindowDestroyed
| TimerFires (id : timer)
| LoopStopDone (k : nat)
| CaptureDone (k : nat) (r : option image)
| VideoDone (k : nat) (ok : bool)
| AudioDone (k : nat) (ok : bool)
| StartStopDone (k : nat)
| SenderCreated (k : nat) (ok : bool).

Definition step (w : World) (ea : env * action) : World :=
  let (e, a) := ea in
  match a with
  | CallStart name f wd h au =>
      state_of (start e name f wd h au w)
  | CallStop => stop e w
  | CallPushAudio buf n => pushAudio e buf n w
  | SetSize wd h =>
      on_this (λ m, set_config (fps m) wd h (audioEnabled m) m) w
  | WindowDestroyed => set_destroyed true w
  | TimerFires id =>
      if bool_decide (id ∈ (timers w).*1)
      then loop_enter e (clearTimeout id w)
      else w
  | LoopStopDone k =>
      match loops w !! k with
      | Some LoopAwaitStop => set_loops (delete k (loops w)) w
      | _ => w
      end
  | CaptureDone k r =>
      match loops w !! k with
      | Some (LoopAwaitCapture t0 ns) =>
          loop_captured e t0 ns r (set_loops (delete k (loops w)) w)
      | _ => w
      end
  | VideoDone k ok =>
      match loops w !! k with
      | Some (LoopAwaitVideo t0) =>
          loop_sent e t0 ok (set_loops (delete k (loops w)) w)
      | _ => w
      end
  | AudioDone k ok =>
      match drains w !! k with
      | Some (DrainAwaitAudio c) =>
          drain_sent e c ok (set_drains (delete k (drains w)) w)
      | _ => w
      end
  | StartStopDone k =>
      match starts w !! k with
      | Some (StartAwaitStop name f wd h au) =>
          start_body name f wd h au (set_starts (delete k (starts w)) w)
      | _ => w
      end
  | SenderCreated k ok =>
      match starts w !! k with
      | Some (StartAwaitSend name) =>
          let w := set_starts (delete k (starts w)) w in
          if ok then start_created e name w else w
      | _ => w
      end
  end.

Definition run (w : World) (evs : list (env * action)) : World :=
  foldl step w evs.

(** ** Observations on traces *)

Definition chunk_of (f : AudioFrame) : chunk := Chunk (a_data f) (a_noSamples f).

(** The chunks handed to [sender.audio], in call order. *)
Fixpoint audio_chunks (cs : list call) : list chunk :=
  match cs with
  | [] => []
  | Audio _ f :: cs => chunk_of f :: audio_chunks cs
  | _ :: cs => audio_chunks cs
  end.

(** The chunks [pushAudio] was called with, in call order. *)
Fixpoint pushed (evs : list (env * action)) : list chunk :=
  match evs with
  | [] => []
  | (_, CallPushAudio buf n) :: evs => Chunk buf n :: pushed evs
  | _ :: evs => pushed evs
  end.

Definition call_handle (c : call) : handle :=
  match c with Video h _ | Audio h _ | Destroy h => h end.

(** Audio sends issued and not yet settled: one per parked drain. *)
Definition audio_in_flight (w : World) : list chunk :=
  map (λ t, match t with DrainAwaitAudio c => c end) (drains w).

(** [pushAudio] gets past its guard on line 143. *)
Definition accepts (w : World) : Prop :=
  running (this w) = true ∧ audioEnabled (this w) = true
  ∧ is_Some (sender (this w)).

Definition idle (w : World) : Prop :=
  running (this w) = false ∧ sender (this w) = None
  ∧ _timeout (this w) = None ∧ _audioQueue (this w) = [].

(** A turn in which a pending [start] gets its sender from [grandi.send]. *)
Definition new_session (ea : env * action) : Prop :=
  match ea.2 with SenderCreated _ true => True | _ => False end.

(** A turn that calls [start]. *)
Definition calls_start (ea : env * action) : Prop :=
  match ea.2 with CallStart _ _ _ _ _ => True | _ => False end.

(** A handle that was handed out and is no longer held. *)
Definition retired (h : handle) (w : World) : Prop :=
  (h < next_handle w)%nat ∧ sender (this w) ≠ Some h.

(** ** Invariants of the reachable states *)

Record Inv (w : World) : Prop := {
  inv_stopped_empty : running (this w) = false → _audioQueue (this w) = [];
  inv_running_sender : running (this w) = true → is_Some (sender (this w));
  inv_queue_draining :
    _audioQueue (this w) ≠ [] → _audioDraining (this w) = true;
  inv_draining :
    if _audioDraining (this w) then ∃ t, drains w = [t] else drains w = [];
  inv_bound : (length (_audioQueue (this w)) ≤ 8)%nat;
  inv_fresh : ∀ h, sender (this w) = Some h → (h < next_handle w)%nat;
}.

(** ** Further observations *)

(** The frames handed to [sender.video] and to [sender.audio], in call
    order. *)
Fixpoint video_frames (cs : list call) : list VideoFrame :=
  match cs with
  | [] => []
  | Video _ f :: cs => f :: video_frames cs
  | _ :: cs => video_frames cs
  end.

Fixpoint audio_frames (cs : list call) : list AudioFrame :=
  match cs with
  | [] => []
  | Audio _ f :: cs => f :: audio_frames cs
  | _ :: cs => audio_frames cs
  end.

(** The width and height of the pixels in a bitmap. *)
Definition bitmap_size (b : bitmap) : Z * Z :=
  match b with
  | ToBitmap img => (img_width img, img_height img)
  | ResizedBitmap _ w h => (w, h)
  end.

(** A timecode and a timestamp that come from one reading of the clock. *)
Definition same_clock (timecode : Z) (timestamp : Z * Z) : Prop :=
  timecode = Z.quot (timestamp.1 * 1000000000 + timestamp.2) 100.

(** A video frame whose header agrees with its pixels. *)
Definition video_frame_ok (f : VideoFrame) : Prop :=
  bitmap_size (v_data f) = (xres f, yres f)
  ∧ lineStrideBytes f = xres f * 4
  ∧ frameRateD f = 1
  ∧ same_clock (v_timecode f) (v_timestamp f).

(** An audio frame in the one format the manager sends. *)
Definition audio_frame_ok (f : AudioFrame) : Prop :=
  sampleRate f = 48000 ∧ noChannels f = 2
  ∧ channelStrideBytes f = a_noSamples f * 4
  ∧ same_clock (a_timecode f) (a_timestamp f).

Definition call_ok (c : call) : Prop :=
  match c with
  | Video _ f => video_frame_ok f
  | Audio _ f => audio_frame_ok f
  | Destroy _ => True
  end.

(** The two fields the constructor sets and nothing assigns again. *)
Definition audio_format (w : World) : Prop :=
  _audioSampleRate (this w) = 48000 ∧ _audioChannels (this w) = 2.

(** The last eight elements. *)
Definition last8 {A} (l : list A) : list A := drop (length l - 8) l.

(** A turn that calls [start] with audio. *)
Definition starts_audio (ea : env * action) : Prop :=
  match ea.2 with CallStart _ _ _ _ true => True | _ => False end.

(** Turns that call [pushAudio], one per chunk. *)
Definition pushes (ecs : list (env * chunk)) : list (env * action) :=
  (λ ec, (ec.1, CallPushAudio (data ec.2) (noSamples ec.2))) <$> ecs.

(** No call of [cs] is on a handle of [dead], nor on a handle that an
    earlier call of [cs] destroyed. *)
Fixpoint lifecycle_ok (dead : list handle) (cs : list call) : Prop :=
  match cs with
  | [] => True
  | c :: cs =>
      (call_handle c ∉ dead)
      ∧ lifecycle_ok (match c with Destroy h => h :: dead | _ => dead end) cs
  end.

Fixpoint destroyed_handles (cs : list call) : list handle :=
  match cs with
  | [] => []
  | Destroy h :: cs => h :: destroyed_handles cs
  | _ :: cs => destroyed_handles cs
  end.

Definition handles_ok (w : World) : Prop :=
  lifecycle_ok [] (calls w)
  ∧ ∀ h, h ∈ destroyed_handles (calls w) → retired h w.

(** No audio anywhere: not enabled, nothing queued, sent or in flight, and
    no parked [start] that would enable it. *)
Definition start_task_mute (t : start_task) : Prop :=
  match t with
  | StartAwaitStop _ _ _ _ a => a = false
  | StartAwaitSend _ => True
  end.

Definition mute (w : World) : Prop :=
  audioEnabled (this w) = false ∧ _audioQueue (this w) = []
  ∧ drains w = [] ∧ _audioDraining (this w) = false
  ∧ audio_chunks (calls w) = [] ∧ Forall start_task_mute (starts w).

(** No iteration of the loop is parked at [capturePage] or at
    [sender.video]. *)
Definition no_capture_parked (w : World) : Prop :=
  Forall (λ t, t = LoopAwaitStop) (loops w).

(** The native module is missing and nothing has happened. *)
Definition inert (w : World) : Prop :=
  grandi w = false ∧ starts w = [] ∧ sender (this w) = None
  ∧ running (this w) = false ∧ calls w = [] ∧ timers w = [].

(** ** Sample runs *)

(** A manager started with audio, its sender just created; then nine
    chunks pushed with no send settling in between. *)
Definition quiet_env : env := Env 0 0 false.

Definition started_evs : list (env * action) :=
  [(quiet_env, CallStart "cam" 30 1280 720 true);
   (quiet_env, SenderCreated 0 true)].

Definition nine : list (env * action) :=
  (λ i, (quiet_env, CallPushAudio [i] 1)) <$> [1; 2; 3; 4; 5; 6; 7; 8; 9].

(** The started manager with one send in flight, and ten more chunks. *)
Definition one_in_flight : list (env * action) :=
  started_evs ++ [(quiet_env, CallPushAudio [0] 1)].

Definition ten_chunks : list (env * chunk) :=
  (λ i, (quiet_env, Chunk [i] 1)) <$> [1; 2; 3; 4; 5; 6; 7; 8; 9; 10].

(** A manager started without audio, a frame sent, and a chunk pushed. *)
Definition video_only : list (env * action) :=
  [(quiet_env, CallStart "cam" 30 1280 720 false);
   (quiet_env, SenderCreated 0 true);
   (quiet_env, CaptureDone 0 (Some (Image 1280 720 [])));
   (quiet_env, CallPushAudio [0] 1)].

End Ndi.

(** * preload-browser.cjs: the bridged BroadcastChannel *)

Module Relay.

Local Open Scope nat_scope.
Set Warnings "-register-all".

Definition addr := nat.

(** JavaScript values as the page hands them to [postMessage].  Arrays,
    objects, functions and platform objects live on the heap: each carries the
    address that is its identity.  Values are trees, which is what a
    JSON-representable value is. *)
Inductive value :=
| VUndefined
| VNull
| VBool (b : bool)
| VNum (n : Z)
| VStr (s : string)
| VArr (a : addr) (vs : list value)
| VObj (a : addr) (fs : list (string * value))
| VFun (a : addr)
| VHost (a : addr) (kind : string).

(** The interfaces of the platform objects that the structured clone
    algorithm serialises.  Those of every other interface, a MessagePort, a
    DOM node or a Window for instance, make it throw DataCloneError. *)
Definition serializable_interfaces : list string :=
  ["AudioData"; "Blob"; "CropTarget"; "CryptoKey"; "DOMException";
   "DOMMatrix"; "DOMMatrixReadOnly"; "DOMPoint"; "DOMPointReadOnly";
   "DOMQuad"; "DOMRect"; "DOMRectReadOnly"; "EncodedAudioChunk";
   "EncodedVideoChunk"; "File"; "FileList"; "FileSystemDirectoryHandle";
   "FileSystemFileHandle"; "FileSystemHandle"; "GPUCompilationInfo";
   "GPUCompilationMessage"; "GPUPipelineError"; "ImageBitmap"; "ImageData";
   "RTCCertificate"; "RTCEncodedAudioFrame"; "RTCEncodedVideoFrame";
   "VideoFrame"; "WebTransportError"].

Definition serializable (kind : string) : bool :=
  existsb (String.eqb kind) serializable_interfaces.

(** [structuredClone(v)]: a copy on freshly allocated addresses, [next] being
    the allocator.  A function cannot be cloned ([None] stands for the
    DataCloneError), nor can a platform object whose interface is not
    serializable; a platform object such as a Blob can. *)
Fixpoint structuredClone (v : value) (next : addr) : option (value * addr) :=
  match v with
  | VArr _ vs =>
      let fix elems (l : list value) (n : addr) : option (list value * addr) :=
        match l with
        | [] => Some ([], n)
        | x :: l =>
            match structuredClone x n with
            | Some (x', n') =>
                match elems l n' with
                | Some (l', n'') => Some (x' :: l', n'')
                | None => None
                end
            | None => None
            end
        end in
      match elems vs (S next) with
      | Some (vs', n) => Some (VArr next vs', n)
      | None => None
      end
  | VObj _ fs =>
      let fix fields (l : list (string * value)) (n : addr)
          : option (list (string * value) * addr) :=
        match l with
        | [] => Some ([], n)
        | (k, x) :: l =>
            match structuredClone x n with
            | Some (x', n') =>
                match fields l n' with
                | Some (l', n'') => Some ((k, x') :: l', n'')
                | None => None
                end
            | None => None
            end
        end in
      match fields fs (S next) with
      | Some (fs', n) => Some (VObj next fs', n)
      | None => None
      end
  | VFun _ => None
  | VHost _ kind =>
      if serializable kind then Some (VHost next kind, S next) else None
  | _ => Some (v, next)
  end.

(** The two inner loops of [structuredClone], by name. *)
Definition clone_elems :=
  fix elems (l : list value) (n : addr) : option (list value * addr) :=
    match l with
    | [] => Some ([], n)
    | x :: l =>
        match structuredClone x n with
        | Some (x', n') =>
            match elems l n' with
            | Some (l', n'') => Some (x' :: l', n'')
            | None => None
            end
        | None => None
        end
    end.

Definition clone_fields :=
  fix fields (l : list (string * value)) (n : addr)
      : option (list (string * value) * addr) :=
    match l with
    | [] => Some ([], n)
    | (k, x) :: l =>
        match structuredClone x n with
        | Some (x', n') =>
            match fields l n' with
            | Some (l', n'') => Some ((k, x') :: l', n'')
            | None => None
            end
        | None => None
        end
    end.

(** The value with its identities forgotten: two values are deep-equal when
    they agree after [erase]. *)
Fixpoint erase (v : value) : value :=
  match v with
  | VArr _ vs => VArr 0 (map erase vs)
  | VObj _ fs => VObj 0 (map (λ kx, (kx.1, erase kx.2)) fs)
  | VFun _ => VFun 0
  | VHost _ kind => VHost 0 kind
  | _ => v
  end.

Definition deep_equal (v w : value) : Prop := erase v = erase w.

(** The heap addresses a value reaches. *)
Fixpoint addrs (v : value) : list addr :=
  match v with
  | VArr a vs => a :: concat (map addrs vs)
  | VObj a fs => a :: concat (map (λ kx, addrs kx.2) fs)
  | VFun a => [a]
  | VHost a _ => [a]
  | _ => []
  end.

(** Two values share no object. *)
Definition unshared (v w : value) : Prop := ∀ a, a ∈ addrs v → a ∉ addrs w.

(** No two values of a list share an object. *)
Fixpoint pairwise_unshared (l : list value) : Prop :=
  match l with
  | [] => True
  | d :: l => Forall (unshared d) l ∧ pairwise_unshared l
  end.

(** Every object of the value was allocated before [n]. *)
Definition allocated (n : addr) (v : value) : Prop :=
  Forall (λ a, a < n) (addrs v).

(** null, booleans, numbers, strings, arrays and objects of these. *)
Fixpoint json (v : value) : bool :=
  match v with
  | VNull | VBool _ | VNum _ | VStr _ => true
  | VArr _ vs => forallb json vs
  | VObj _ fs => forallb (λ kx, json kx.2) fs
  | _ => false
  end.

(** What [structuredClone] accepts: anything with no function inside and no
    platform object of an interface that is not serializable. *)
Fixpoint cloneable (v : value) : bool :=
  match v with
  | VArr _ vs => forallb cloneable vs
  | VObj _ fs => forallb (λ kx, cloneable kx.2) fs
  | VFun _ => false
  | VHost _ kind => serializable kind
  | _ => true
  end.

(** What the Electron IPC serialiser accepts: it throws on functions and on
    platform objects. *)
Fixpoint ipc_serializable (v : value) : bool :=
  match v with
  | VArr _ vs => forallb ipc_serializable vs
  | VObj _ fs => forallb (λ kx, ipc_serializable kx.2) fs
  | VFun _ | VHost _ _ => false
  | _ => true
  end.

(** The fields of a [BridgedBroadcastChannel]; a handler is the identity of
    the function stored, [None] for [null]. *)
Record BridgedBroadcastChannel := {
  name : string;
  _closed : bool;
  _onmessage : option nat;
  _onmessageerror : option nat;
}.

(** A MessageEvent dispatched at an instance. *)
Record delivery := Delivery {
  target : nat;
  ev_data : value;
  onmessage_called : option nat;
}.

(** One renderer: the registry (a Map from names to Sets, a Set kept in
    insertion order), the instances by identity, the microtask queue, the
    allocator, what went out through [ipcRenderer.send], and the deliveries
    made. *)
Record Context := {
  registry : gmap string (list nat);
  instances : list BridgedBroadcastChannel;
  microtasks : list (nat * value);
  next_addr : addr;
  sent : list (string * value);
  delivered : list delivery;
}.

Definition new_context : Context :=
  {| registry := ∅; instances := []; microtasks := []; next_addr := 0;
     sent := []; delivered := [] |}.

Definition set_registry (x : gmap string (list nat)) (w : Context) : Context :=
  {| registry := x; instances := instances w; microtasks := microtasks w;
     next_addr := next_addr w; sent := sent w; delivered := delivered w |}.

Definition set_instances (x : list BridgedBroadcastChannel) (w : Context)
  : Context :=
  {| registry := registry w; instances := x; microtasks := microtasks w;
     next_addr := next_addr w; sent := sent w; delivered := delivered w |}.

Definition set_microtasks (x : list (nat * value)) (w : Context) : Context :=
  {| registry := registry w; instances := instances w; microtasks := x;
     next_addr := next_addr w; sent := sent w; delivered := delivered w |}.

Definition set_next_addr (x : addr) (w : Context) : Context :=
  {| registry := registry w; instances := instances w;
     microtasks := microtasks w; next_addr := x; sent := sent w;
     delivered := delivered w |}.

Definition set_sent (x : list (string * value)) (w : Context) : Context :=
  {| registry := registry w; instances := instances w;
     microtasks := microtasks w; next_addr := next_addr w; sent := x;
     delivered := delivered w |}.

Definition set_delivered (x : list delivery) (w : Context) : Context :=
  {| registry := registry w; instances := instances w;
     microtasks := microtasks w; next_addr := next_addr w; sent := sent w;
     delivered := x |}.

Definition is_closed (w : Context) (i : nat) : bool :=
  match instances w !! i with
  | Some inst => _closed inst
  | None => false
  end.

(** [new BridgedBroadcastChannel(name)], lines 21-32; the new instance is its
    index in [instances]. *)
Definition construct (nm : string) (w : Context) : Context :=
  let i := length (instances w) in
  let inst := {| name := nm; _closed := false; _onmessage := None;
                 _onmessageerror := None |} in
  let w := set_instances (instances w ++ [inst]) w in
  let reg := match registry w !! nm with
             | Some _ => registry w
             | None => <[nm := []]> (registry w)
             end in
  let set := default [] (reg !! nm) in
  let set := if bool_decide (i ∈ set) then set else set ++ [i] in
  set_registry (<[nm := set]> reg) w.

(** [_dispatch(instance, data)], lines 91-98: queue the microtask. *)
Definition _dispatch (i : nat) (d : value) (w : Context) : Context :=
  set_microtasks (microtasks w ++ [(i, d)]) w.

(** The body of the microtask. *)
Definition run_dispatch (i : nat) (d : value) (w : Context) : Context :=
  match instances w !! i with
  | Some inst =>
      if _closed inst then w
      else set_delivered
             (delivered w ++ [Delivery i d (_onmessage inst)]) w
  | None => w
  end.

(** The two [for (const inst of instances)] loops, lines 48-52 and 104-108:
    [self] is [Some this] in [postMessage] and [None] in the receive
    handler. *)
Fixpoint fan_out (self : option nat) (set : list nat) (data : value)
    (w : Context) : outcome Context :=
  match set with
  | [] => Returned w
  | inst :: set =>
      if bool_decide (Some inst ≠ self) && negb (is_closed w inst) then
        match structuredClone data (next_addr w) with
        | Some (copy, n) =>
            fan_out self set data (_dispatch inst copy (set_next_addr n w))
        | None => Thrown DataCloneError w
        end
      else fan_out self set data w
  end.

(** [ipcRenderer.send("broadcast-channel-message", { channel, message })]:
    the payload leaves the renderer serialised, without identities. *)
Definition ipc_send (channel : string) (message : value) (w : Context)
  : outcome Context :=
  if ipc_serializable message
  then Returned (set_sent (sent w ++ [(channel, erase message)]) w)
  else Thrown DataCloneError w.

(** [postMessage(message)], lines 35-64. *)
Definition postMessage (i : nat) (message : value) (w : Context)
  : outcome Context :=
  match instances w !! i with
  | None => Thrown TypeError w
  | Some inst =>
      if _closed inst then Thrown InvalidStateError w
      else
        match structuredClone message (next_addr w) with
        | None => Thrown DataCloneError w
        | Some (cloned, n) =>
            let w := set_next_addr n w in
            let r := match registry w !! name inst with
                     | Some set => fan_out (Some i) set cloned w
                     | None => Returned w
                     end in
            match r with
            | Thrown e w => Thrown e w
            | Returned w =>
                match ipc_send (name inst) cloned w with
                | Returned w => Returned w
                | Thrown _ w => Returned w
                end
            end
        end
  end.

(** [close()], lines 66-74. *)
Definition close (i : nat) (w : Context) : Context :=
  match instances w !! i with
  | None => w
  | Some inst =>
      if _closed inst then w
      else
        let inst' := {| name := name inst; _closed := true;
                        _onmessage := _onmessage inst;
                        _onmessageerror := _onmessageerror inst |} in
        let w := set_instances (<[i := inst']> (instances w)) w in
        match registry w !! name inst with
        | Some set =>
            let set := filter (λ j, j ≠ i) set in
            let reg := <[name inst := set]> (registry w) in
            set_registry
              (if bool_decide (length set = 0)
               then delete (name inst) reg else reg) w
        | None => w
        end
  end.

(** The setters, lines 79-87; [fn] is [None] when the value assigned is not a
    function. *)
Definition set_onmessage (i : nat) (fn : option nat) (w : Context) : Context :=
  match instances w !! i with
  | Some inst =>
      set_instances
        (<[i := {| name := name inst; _closed := _closed inst;
                   _onmessage := fn;
                   _onmessageerror := _onmessageerror inst |}]> (instances w)) w
  | None => w
  end.

Definition set_onmessageerror (i : nat) (fn : option nat) (w : Context)
  : Context :=
  match instances w !! i with
  | Some inst =>
      set_instances
        (<[i := {| name := name inst; _closed := _closed inst;
                   _onmessage := _onmessage inst;
                   _onmessageerror := fn |}]> (instances w)) w
  | None => w
  end.

(** The handler of ["broadcast-channel-message"], lines 101-109.  The
    payload arrives serialised; the IPC layer rebuilds it on fresh addresses
    of this renderer before the handler sees it. *)
Definition on_broadcast_channel_message (channel : string) (payload : value)
    (w : Context) : outcome Context :=
  match structuredClone payload (next_addr w) with
  | None => Thrown DataCloneError w
  | Some (message, n) =>
      let w := set_next_addr n w in
      match registry w !! channel with
      | None => Returned w
      | Some set => fan_out None set message w
      end
  end.

(** What can happen in a turn of the renderer. *)
Inductive action :=
| New (nm : string)
| Post (i : nat) (message : value)
| Close (i : nat)
| SetOnmessage (i : nat) (fn : option nat)
| SetOnmessageerror (i : nat) (fn : option nat)
| Microtask
| IpcMessage (channel : string) (payload : value).

Definition step (w : Context) (a : action) : Context :=
  match a with
  | New nm => construct nm w
  | Post i m => state_of (postMessage i m w)
  | Close i => close i w
  | SetOnmessage i fn => set_onmessage i fn w
  | SetOnmessageerror i fn => set_onmessageerror i fn w
  | Microtask =>
      match microtasks w with
      | (i, d) :: rest => run_dispatch i d (set_microtasks rest w)
      | [] => w
      end
  | IpcMessage channel payload =>
      state_of (on_broadcast_channel_message channel payload w)
  end.

Definition run (w : Context) (evs : list action) : Context := foldl step w evs.

(** The data of the deliveries made to instance [i], oldest first. *)
Definition received (i : nat) (w : Context) : list value :=
  ev_data <$> filter (λ d, target d = i) (delivered w).

(** The open instances registered on channel [nm]. *)
Definition open_targets (nm : string) (w : Context) : list nat :=
  filter (λ j, is_closed w j = false) (default [] (registry w !! nm)).

(** The instances a publish by [i] on channel [nm] is fanned out to. *)
Definition local_targets (i : nat) (nm : string) (w : Context) : list nat :=
  filter (λ j, j ≠ i ∧ is_closed w j = false) (default [] (registry w !! nm)).

(** ** Further observations *)

(** Instance [j] is open and its channel is [nm]. *)
Definition open_on (w : Context) (nm : string) (j : nat) : Prop :=
  ∃ inst, instances w !! j = Some inst ∧ name inst = nm ∧ _closed inst = false.

(** The registry holds, under each name it has, the open instances of that
    name, each once, and at least one; and every open instance is under its
    name. *)
Definition registry_ok (w : Context) : Prop :=
  (∀ nm set, registry w !! nm = Some set →
     set ≠ [] ∧ NoDup set ∧ ∀ j, j ∈ set ↔ open_on w nm j)
  ∧ (∀ nm j, open_on w nm j → is_Some (registry w !! nm)).

(** What the registry is about: the name and the closed flag of each
    instance. *)
Definition binding (inst : BridgedBroadcastChannel) : string * bool :=
  (name inst, _closed inst).

(** The microtask queue run to its end, the handlers called meanwhile
    leaving the channels alone. *)
Definition drain (w : Context) : Context :=
  run w (replicate (length (microtasks w)) Microtask).

(** What the microtask queued for [jd.1] with data [jd.2] does when it
    runs against the instances [insts]: the event it dispatches, if any. *)
Definition delivery_of (insts : list BridgedBroadcastChannel)
    (jd : nat * value) : option delivery :=
  match insts !! jd.1 with
  | Some inst =>
      if _closed inst then None
      else Some (Delivery jd.1 jd.2 (_onmessage inst))
  | None => None
  end.

(** ** Sample states *)

(** Two open instances on channel "x"; the page holds objects below
    address 5. *)
Definition two_on_x : Context :=
  set_next_addr 5 (run new_context [New "x"; New "x"]).

End Relay.

(** * preload-browser.cjs: tab audio capture *)

Module Capture.

Local Open Scope nat_scope.

(** A Float32 sample, as the rational it denotes. *)
Definition sample := Q.

(** [new Float32Array(n)]. *)
Definition Float32Array (n : nat) : list sample := replicate n 0%Q.

(** [src.subarray(a, b)]. *)
Definition subarray (src : list sample) (a b : nat) : list sample :=
  take (b - a) (drop a src).

(** [target.set(src, off)]; [None] for the RangeError thrown when [src] does
    not fit. *)
Definition typed_set (target src : list sample) (off : nat)
  : option (list sample) :=
  if bool_decide (off + length src ≤ length target)
  then Some (take off target ++ src ++ drop (off + length src) target)
  else None.

(** What both capture nodes hand to
    [ipcRenderer.send("audio-pcm-data", ...)]. *)
Record pcm := Pcm { noSamples : nat; planarBuf : list sample }.

(** The fields of the worklet's [AudioCaptureProcessor]. *)
Record AudioCaptureProcessor := {
  _size : nat;
  _ch0 : list sample;
  _ch1 : list sample;
  _pos : nat;
  _stopped : bool;
}.

(** The constructor, lines 323-333; [bufferSize] is [0] when the option is
    absent. *)
Definition constructor (bufferSize : nat) : AudioCaptureProcessor :=
  let size := if bufferSize =? 0 then 4096 else bufferSize in
  {| _size := size; _ch0 := Float32Array size; _ch1 := Float32Array size;
     _pos := 0; _stopped := false |}.

(** [port.onmessage] of the processor, lines 330-332. *)
Definition on_stop (p : AudioCaptureProcessor) : AudioCaptureProcessor :=
  {| _size := _size p; _ch0 := _ch0 p; _ch1 := _ch1 p; _pos := _pos p;
     _stopped := true |}.

(** The [while (rem > 0)] loop of [process], lines 343-362.  [out] collects
    the messages posted on the port.  [None]: the loop did not come to its
    end (out of [fuel], or a RangeError). *)
Fixpoint fill (fuel : nat) (src0 src1 : list sample) (read rem : nat)
    (p : AudioCaptureProcessor) (out : list pcm)
  : option (AudioCaptureProcessor * list pcm) :=
  if rem =? 0 then Some (p, out)
  else
    match fuel with
    | 0 => None
    | S fuel =>
        let space := _size p - _pos p in
        let n := rem `min` space in
        match typed_set (_ch0 p) (subarray src0 read (read + n)) (_pos p),
              typed_set (_ch1 p) (subarray src1 read (read + n)) (_pos p) with
        | Some ch0, Some ch1 =>
            let pos := _pos p + n in
            let read := read + n in
            let rem := rem - n in
            if bool_decide (_size p ≤ pos) then
              let planar := Float32Array (_size p * 2) in
              match typed_set planar ch0 0 with
              | Some planar =>
                  match typed_set planar ch1 (_size p) with
                  | Some planar =>
                      fill fuel src0 src1 read rem
                        {| _size := _size p; _ch0 := Float32Array (_size p);
                           _ch1 := Float32Array (_size p); _pos := 0;
                           _stopped := _stopped p |}
                        (out ++ [Pcm (_size p) planar])
                  | None => None
                  end
              | None => None
              end
            else
              fill fuel src0 src1 read rem
                {| _size := _size p; _ch0 := ch0; _ch1 := ch1; _pos := pos;
                   _stopped := _stopped p |} out
        | _, _ => None
        end
    end.

(** [process(inputs)], lines 335-364: the value returned, the processor
    afterwards, and the messages posted.  [inputs] is a list of inputs, an
    input a list of channels. *)
Definition process (inputs : list (list (list sample)))
    (p : AudioCaptureProcessor)
  : option (bool * AudioCaptureProcessor * list pcm) :=
  if _stopped p then Some (false, p, [])
  else
    match inputs with
    | (src0 :: more) :: _ =>
        let src1 := match more with s :: _ => s | [] => src0 end in
        match fill (S (length src0)) src0 src1 0 (length src0) p [] with
        | Some (p, out) => Some (true, p, out)
        | None => None
        end
    | _ => Some (true, p, [])
    end.

(** [node.port.onmessage] of [_createWorkletNode], lines 388-394: the message
    is passed on as it is. *)
Definition worklet_forward (m : pcm) : pcm :=
  Pcm (noSamples m) (planarBuf m).

(** The worklet strategy over a sequence of [process] calls: what reaches
    [ipcRenderer.send], in order. *)
Fixpoint worklet_run (blocks : list (list (list (list sample))))
    (p : AudioCaptureProcessor)
  : option (AudioCaptureProcessor * list pcm) :=
  match blocks with
  | [] => Some (p, [])
  | inputs :: blocks =>
      match process inputs p with
      | Some (_, p, out) =>
          match worklet_run blocks p with
          | Some (p, out') => Some (p, map worklet_forward out ++ out')
          | None => None
          end
      | None => None
      end
  end.

(** The [inputBuffer] of an AudioProcessingEvent of the node made by
    [createScriptProcessor(bufferSize, 2, 2)]. *)
Record inputBuffer := { channel0 : list sample; channel1 : list sample }.

(** [node.onaudioprocess] of [_createScriptNode], lines 409-421. *)
Definition onaudioprocess (e : inputBuffer) : option pcm :=
  let ch0 := channel0 e in
  let ch1 := channel1 e in
  let n := length ch0 in
  let view := Float32Array (n * 2) in
  match typed_set view ch0 0 with
  | Some view =>
      match typed_set view ch1 n with
      | Some view => Some (Pcm n view)
      | None => None
      end
  | None => None
  end.

(** The fallback strategy over a sequence of events. *)
Fixpoint script_run (events : list inputBuffer) : option (list pcm) :=
  match events with
  | [] => Some []
  | e :: events =>
      match onaudioprocess e, script_run events with
      | Some m, Some out => Some (m :: out)
      | _, _ => None
      end
  end.

(** The two planes of a planar buffer. *)
Definition plane0 (m : pcm) : list sample := take (noSamples m) (planarBuf m).
Definition plane1 (m : pcm) : list sample := drop (noSamples m) (planarBuf m).

(** The samples of channel 0 and of channel 1 that one [process] call is
    given, as the code reads them. *)
Definition input0 (inputs : list (list (list sample))) : list sample :=
  match inputs with (src0 :: _) :: _ => src0 | _ => [] end.
Definition input1 (inputs : list (list (list sample))) : list sample :=
  match inputs with
  | (src0 :: more) :: _ => match more with s :: _ => s | [] => src0 end
  | _ => []
  end.

(** The channels of an input have one length (a render quantum). *)
Definition even_input (inputs : list (list (list sample))) : Prop :=
  length (input1 inputs) = length (input0 inputs).

(** The samples accumulated and not yet flushed. *)
Definition pending0 (p : AudioCaptureProcessor) : list sample :=
  take (_pos p) (_ch0 p).
Definition pending1 (p : AudioCaptureProcessor) : list sample :=
  take (_pos p) (_ch1 p).

(** A full chunk: [size] samples per channel, channel 0 first. *)
Definition full_chunk (size : nat) (m : pcm) : Prop :=
  noSamples m = size ∧ length (plane0 m) = size ∧ length (plane1 m) = size
  ∧ planarBuf m = plane0 m ++ plane1 m.

(** [(opts && opts.bufferSize) || 4096] of the "start-audio-capture" handler,
    line 433: the size both [_createWorkletNode] and [_createScriptNode] are
    given. *)
Definition capture_bufferSize (opts : nat) : nat :=
  if opts =? 0 then 4096 else opts.

(** The processors [process] can meet: built by the constructor and only
    changed by [process]. *)
Record ready (p : AudioCaptureProcessor) : Prop := {
  ready_size : 0 < _size p;
  ready_ch0 : length (_ch0 p) = _size p;
  ready_ch1 : length (_ch1 p) = _size p;
  ready_pos : _pos p < _size p;
  ready_running : _stopped p = false;
}.

(** An input with a single channel. *)
Definition mono (inputs : list (list (list sample))) : Prop :=
  match inputs with
  | (_ :: more) :: _ => more = []
  | _ => True
  end.

(** ** Sample inputs *)

(** Three blocks of 3, 5 and 1 samples per channel, and the same nine
    samples in two buffers of 4. *)
Definition demo_blocks : list (list (list (list sample))) :=
  [ [[ [1%Q; 2%Q; 3%Q]; [11%Q; 12%Q; 13%Q] ]];
    [[ [4%Q; 5%Q; 6%Q; 7%Q; 8%Q]; [14%Q; 15%Q; 16%Q; 17%Q; 18%Q] ]];
    [[ [9%Q]; [19%Q] ]] ].

Definition demo_events : list inputBuffer :=
  [ {| channel0 := [1%Q; 2%Q; 3%Q; 4%Q];
       channel1 := [11%Q; 12%Q; 13%Q; 14%Q] |};
    {| channel0 := [5%Q; 6%Q; 7%Q; 8%Q];
       channel1 := [15%Q; 16%Q; 17%Q; 18%Q] |} ].

(** 96 render quanta of 128 samples: 12288 samples per channel. *)
Definition quanta : list (list (list (list sample))) :=
  replicate 96 [[replicate 128 0%Q; replicate 128 0%Q]].

(** Two blocks of one channel each. *)
Definition mono_blocks : list (list (list (list sample))) :=
  [ [[ [1%Q; 2%Q; 3%Q] ]]; [[ [4%Q; 5%Q] ]] ].

End Capture.

(** * main.cjs: the two channels between the renderers and the managers *)

Module Main.

Local Open Scope nat_scope.

(** An entry of [browserWindows], with what is behind its [win]: the
    manager holds the window itself, and the renderer of [win.webContents]
    is its page together with the "broadcast-channel-message" messages sent
    to it whose handler has not run yet. *)
Record BrowserWindowData := {
  webContents_id : nat;
  ndiManager : Ndi.World;
  ndiActive : bool;
  page : Relay.Context;
  ipc_in : list (string * Relay.value);
}.

(** [data.win.isDestroyed()]: [win] is the window the manager was built
    with. *)
Definition isDestroyed (d : BrowserWindowData) : bool :=
  Ndi.destroyed (ndiManager d).

Definition set_ndiManager (x : Ndi.World) (d : BrowserWindowData)
  : BrowserWindowData :=
  {| webContents_id := webContents_id d; ndiManager := x;
     ndiActive := ndiActive d; page := page d; ipc_in := ipc_in d |}.

Definition set_page (x : Relay.Context) (d : BrowserWindowData)
  : BrowserWindowData :=
  {| webContents_id := webContents_id d; ndiManager := ndiManager d;
     ndiActive := ndiActive d; page := x; ipc_in := ipc_in d |}.

Definition set_ipc_in (x : list (string * Relay.value))
    (d : BrowserWindowData) : BrowserWindowData :=
  {| webContents_id := webContents_id d; ndiManager := ndiManager d;
     ndiActive := ndiActive d; page := page d; ipc_in := x |}.

(** [browserWindows] is a Map from window ids, iterated in insertion order:
    a list of entries below. *)

(** [data.win.webContents.send("broadcast-channel-message", payload)]. *)
Definition webContents_send (payload : string * Relay.value)
    (d : BrowserWindowData) : BrowserWindowData :=
  set_ipc_in (ipc_in d ++ [payload]) d.

(** The handler of "broadcast-channel-message", lines 282-289. *)
Definition ipc_broadcast_channel_message (senderId : nat)
    (payload : string * Relay.value) (ws : list (Z * BrowserWindowData))
  : list (Z * BrowserWindowData) :=
  (λ kd : Z * BrowserWindowData,
     if negb (isDestroyed kd.2) && bool_decide (webContents_id kd.2 ≠ senderId)
     then (kd.1, webContents_send payload kd.2)
     else kd) <$> ws.

(** The handler of "audio-pcm-data", lines 85-95: the loop ends at the
    first live window of the sender. *)
Fixpoint ipc_audio_pcm_data (e : Ndi.env) (senderId : nat) (noSamples : Z)
    (planarBuf : Ndi.Buffer) (ws : list (Z * BrowserWindowData))
  : list (Z * BrowserWindowData) :=
  match ws with
  | [] => []
  | (k, d) :: ws =>
      if negb (isDestroyed d) && bool_decide (webContents_id d = senderId)
      then
        (k, if ndiActive d
            then set_ndiManager
                   (Ndi.pushAudio e planarBuf noSamples (ndiManager d)) d
            else d) :: ws
      else (k, d) :: ipc_audio_pcm_data e senderId noSamples planarBuf ws
  end.

(** A turn of a renderer in which its handler of
    "broadcast-channel-message" runs for the oldest message sent to it. *)
Definition renderer_turn (d : BrowserWindowData) : BrowserWindowData :=
  match ipc_in d with
  | [] => d
  | (channel, message) :: rest =>
      set_ipc_in rest
        (set_page
           (state_of
              (Relay.on_broadcast_channel_message channel message (page d)))
           d)
  end.

Section bytes.

(** The four bytes of a Float32 sample, as the platform lays them out. *)
Variable float32 : Capture.sample → list Z.

(** [Buffer.from(planar)] on the ArrayBuffer of a Float32Array. *)
Definition Buffer_from (planar : list Capture.sample) : Ndi.Buffer :=
  concat (float32 <$> planar).

End bytes.

(** ** Sample states *)

(** Two live windows and a destroyed one.  In the first a page with two
    open instances on channel "x"; in the second one such instance; the
    first window's manager is started with audio. *)
Definition page_x2 : Relay.Context :=
  Relay.run Relay.new_context [Relay.New "x"; Relay.New "x"].

Definition page_x1 : Relay.Context :=
  Relay.run Relay.new_context [Relay.New "x"].

Definition window_one : BrowserWindowData :=
  {| webContents_id := 11;
     ndiManager := Ndi.run (Ndi.new_world 1 true) Ndi.started_evs;
     ndiActive := true; page := page_x2; ipc_in := [] |}.

Definition window_two : BrowserWindowData :=
  {| webContents_id := 12; ndiManager := Ndi.new_world 2 true;
     ndiActive := false; page := page_x1; ipc_in := [] |}.

Definition window_gone : BrowserWindowData :=
  {| webContents_id := 13;
     ndiManager :=
       Ndi.run (Ndi.new_world 3 true) [(Ndi.quiet_env, Ndi.WindowDestroyed)];
     ndiActive := false; page := page_x1; ipc_in := [] |}.

Definition three_windows : list (Z * BrowserWindowData) :=
  [(1%Z, window_one); (2%Z, window_two); (3%Z, window_gone)].

(** A sample is four bytes; which ones does not matter here. *)
Definition four_bytes (s : Capture.sample) : list Z := [0; 0; 0; 0]%Z.

End Main.

Module NdiFacts.
Import Ndi.

(** Evaluate the model's own functions, leaving library functions alone. *)
Ltac ndi_eval :=
  cbv beta iota zeta delta
    [step start state_of start_body start_created pushAudio drainAudioQueue
     drain_sent drain_loop loop_sent loop_captured loop_enter loop_catch
     loop_rearm stop clearTimeout log do_call set_next_handle set_timers
     set_starts set_drains set_loops set_destroyed on_this set_audioQueue
     set_audioDraining set_audioLogDone set_config set_timeout set_running
     set_sender
     this grandi destroyed loops drains starts timers next_timer next_handle
     calls console
     windowId sender running _timeout fps width height audioEnabled
     _audioSampleRate _audioChannels _audioLogDone _audioDraining _audioQueue
     negb orb andb] in *.

(** Case on a scrutinee that is not itself stuck on a match. *)
Ltac inner_case :=
  match goal with
  | |- context [match ?x with _ => _ end] =>
      lazymatch x with
      | context [match _ with _ => _ end] => fail
      | _ => destruct x eqn:?
      end
  end.

Ltac ndi_paths := ndi_eval; repeat (inner_case; simplify_eq; ndi_eval).

Ltac split_world w :=
  let m := fresh "m" in
  destruct w as [m ? ? ? ? ? ? ? ? ? ?]; destruct m.

Lemma new_world_inv id g : Inv (new_world id g).
Proof. split; simpl; try done. lia. Qed.

Lemma step_inv w ea : Inv w → Inv (step w ea).
Proof.
  intros [I1 I2 I3 I4 I5 I6]. destruct ea as [e a].
  split_world w. destruct a.
  all: ndi_paths.
  all: repeat match goal with
       | H : bool_decide _ = true |- _ => apply bool_decide_eq_true in H
       | H : bool_decide _ = false |- _ => apply bool_decide_eq_false in H
       end.
  all: try (by specialize (I1 eq_refl)).
  all: try (by destruct (I2 eq_refl)).
  all: try (destruct _audioDraining0; [destruct I4 as [? ->]|subst drains0]).
  all: try match goal with H : [_] !! ?k = Some _ |- _ =>
             destruct k; [|done]; simplify_eq/= end.
  all: try match goal with H : [] !! _ = Some _ |- _ => done end.
  all: split; ndi_eval; simpl in *; try done; try lia; eauto.
  all: try (intros ? [=]; lia).
  all: try (intros ? [=]; subst; eauto; fail).
  all: try (rewrite length_app; simpl; destruct _audioQueue0; simpl in *; lia).
  all: try (by specialize (I3 ltac:(done))).
  all: match goal with H : _ ++ [_] = _ :: _ |- _ =>
         apply (f_equal length) in H; rewrite length_app in H end.
  all: destruct _audioQueue0; simpl in *; lia.
Qed.


Lemma run_inv w evs : Inv w → Inv (run w evs).
Proof.
  revert w. induction evs as [|ea evs IH]; intros w Hw; [done|].
  simpl. apply IH. by apply step_inv.
Qed.

Lemma reachable_inv id g evs : Inv (run (new_world id g) evs).
Proof. apply run_inv, new_world_inv. Qed.

Lemma run_app w evs1 evs2 : run w (evs1 ++ evs2) = run (run w evs1) evs2.
Proof. apply foldl_app. Qed.

(** *** The bounded queue *)

Lemma pushAudio_full w e buf n :
  Inv w → accepts w → length (_audioQueue (this w)) = 8%nat →
  _audioQueue (this (pushAudio e buf n w))
  = tail (_audioQueue (this w)) ++ [Chunk buf n].
Proof.
  intros [I1 I2 I3 I4 I5 I6] (Hr & Ha & [h Hs]) Hlen.
  split_world w. ndi_eval. subst.
  destruct _audioQueue0 as [|c q]; [done|]. rewrite I3 by done.
  rewrite bool_decide_true by eauto.
  rewrite bool_decide_true by (simpl in *; lia). done.
Qed.

Lemma nine_pushes w e1 e2 e3 e4 e5 e6 e7 e8 e9 c1 c2 c3 c4 c5 c6 c7 c8 c9 :
  Inv w → accepts w → _audioQueue (this w) = [] →
  _audioQueue (this (run w
    [(e1, CallPushAudio (data c1) (noSamples c1));
     (e2, CallPushAudio (data c2) (noSamples c2));
     (e3, CallPushAudio (data c3) (noSamples c3));
     (e4, CallPushAudio (data c4) (noSamples c4));
     (e5, CallPushAudio (data c5) (noSamples c5));
     (e6, CallPushAudio (data c6) (noSamples c6));
     (e7, CallPushAudio (data c7) (noSamples c7));
     (e8, CallPushAudio (data c8) (noSamples c8));
     (e9, CallPushAudio (data c9) (noSamples c9))]))
  = [c2; c3; c4; c5; c6; c7; c8; c9].
Proof.
  intros [I1 I2 I3 I4 I5 I6] (Hr & Ha & [h Hs]) Hq.
  split_world w. ndi_eval. subst.
  destruct c1, c2, c3, c4, c5, c6, c7, c8, c9.
  destruct _audioDraining0; reflexivity.
Qed.


(** *** What a turn adds to the trace *)

Ltac bools :=
  repeat match goal with
  | H : bool_decide _ = true |- _ => apply bool_decide_eq_true in H
  | H : bool_decide _ = false |- _ => apply bool_decide_eq_false in H
  end.

(** A turn makes at most one call, on the sender held when the turn begins
    or on the one it has just been given; an audio call takes its chunk from
    the head of the queue. *)
Lemma step_trace w ea :
  ∃ new, calls (step w ea) = calls w ++ new
    ∧ audio_chunks new ++ _audioQueue (this (step w ea))
      `sublist_of` _audioQueue (this w) ++ pushed [ea]
    ∧ Forall (λ c, sender (this w) = Some (call_handle c)
                   ∨ call_handle c = next_handle w) new.
Proof.
  destruct ea as [e a]. split_world w. destruct a.
  all: ndi_paths.
  all: first [ exists []; rewrite app_nil_r; split; [reflexivity|]
             | eexists [_]; split; [reflexivity|] ].
  all: simpl; rewrite ?app_nil_r; split;
    [|by repeat first [apply Forall_nil|apply Forall_cons; split]; auto].
  all: try done; auto using sublist_nil_l, sublist_inserts_r.
  all: try (by apply sublist_app; [apply (sublist_drop _ 1)|]).
  all: repeat match goal with c : chunk |- _ => destruct c end.
  all: unfold chunk_of; simpl; try done.
  all: match goal with H : _ = _ :: _ |- _ => rewrite <-H end.
  all: try (by apply sublist_app; [apply (sublist_drop _ 1)|]).
  done.
Qed.

Lemma audio_chunks_app cs1 cs2 :
  audio_chunks (cs1 ++ cs2) = audio_chunks cs1 ++ audio_chunks cs2.
Proof.
  induction cs1 as [|[] cs1 IH]; simpl; [done| |f_equal|]; done.
Qed.

Lemma pushed_cons ea evs : pushed (ea :: evs) = pushed [ea] ++ pushed evs.
Proof. destruct ea as [e []]; done. Qed.

Lemma run_trace w evs :
  ∃ new, calls (run w evs) = calls w ++ new
    ∧ audio_chunks new ++ _audioQueue (this (run w evs))
      `sublist_of` _audioQueue (this w) ++ pushed evs.
Proof.
  revert w. induction evs as [|ea evs IH]; intros w.
  { exists []. by rewrite !app_nil_r. }
  destruct (step_trace w ea) as (n1 & Hc1 & Hs1 & _).
  destruct (IH (step w ea)) as (n2 & Hc2 & Hs2).
  exists (n1 ++ n2). split.
  { simpl. by rewrite Hc2, Hc1, app_assoc. }
  change (run w (ea :: evs)) with (run (step w ea) evs).
  rewrite audio_chunks_app, (pushed_cons ea evs), <-!app_assoc.
  etrans; [apply sublist_app; [reflexivity|exact Hs2]|].
  rewrite !app_assoc. by apply sublist_app.
Qed.


(** *** A released handle is never used again *)

Lemma step_retired h w ea : retired h w → retired h (step w ea).
Proof.
  intros [Hlt Hne]. destruct ea as [e a]. split_world w. unfold retired in *.
  destruct a.
  all: ndi_paths.
  all: split; try done; try lia; intros [=]; lia.
Qed.

Lemma run_retired h w evs :
  retired h w →
  ∃ new, calls (run w evs) = calls w ++ new
    ∧ Forall (λ c, call_handle c ≠ h) new.
Proof.
  revert w. induction evs as [|ea evs IH]; intros w Hw.
  { exists []. by rewrite app_nil_r. }
  destruct (step_trace w ea) as (n1 & Hc1 & _ & Hh1).
  destruct (IH (step w ea)) as (n2 & Hc2 & Hh2); [by apply step_retired|].
  exists (n1 ++ n2). split.
  { simpl. by rewrite Hc2, Hc1, app_assoc. }
  apply Forall_app. split; [|done].
  eapply Forall_impl; [exact Hh1|]. simpl. intros c Hc Heq.
  destruct Hw as [Hlt Hne]. destruct Hc as [Hc|Hc]; [congruence|lia].
Qed.

(** *** Without a sender nothing is called *)

Lemma step_quiet w ea :
  sender (this w) = None → ¬ new_session ea →
  sender (this (step w ea)) = None ∧ calls (step w ea) = calls w.
Proof.
  intros Hs Hn. destruct ea as [e a]. split_world w.
  unfold new_session in Hn. destruct a.
  all: ndi_paths; try done.
Qed.

Lemma run_quiet w evs :
  sender (this w) = None → Forall (λ ea, ¬ new_session ea) evs →
  sender (this (run w evs)) = None ∧ calls (run w evs) = calls w.
Proof.
  revert w. induction evs as [|ea evs IH]; intros w Hs Hn; [done|].
  apply Forall_cons in Hn as [Hn1 Hn].
  destruct (step_quiet w ea Hs Hn1) as [Hs' Hc'].
  destruct (IH (step w ea) Hs' Hn) as [Hs'' Hc''].
  simpl. by rewrite Hc'', Hc'.
Qed.

(** *** The rate is never zero *)

Lemma Qor_nonzero x d : ¬ (d == 0)%Q → ¬ (Qor x d == 0)%Q.
Proof.
  intros Hd. unfold Qor. destruct (Qeq_bool x 0) eqn:E; [done|].
  by apply Qeq_bool_neq.
Qed.

Lemma step_fps w ea :
  ¬ (fps (this w) == 0)%Q → ¬ (fps (this (step w ea)) == 0)%Q.
Proof.
  intros Hf. destruct ea as [e a]. split_world w. destruct a.
  all: ndi_paths; try done.
  all: by apply Qor_nonzero.
Qed.

Lemma reachable_fps id g evs :
  ¬ (fps (this (run (new_world id g) evs)) == 0)%Q.
Proof.
  assert (∀ w, ¬ (fps (this w) == 0)%Q → ¬ (fps (this (run w evs)) == 0)%Q)
    as H.
  { induction evs as [|ea evs IH]; intros w Hw; [done|].
    simpl. apply IH. by apply step_fps. }
  apply H. done.
Qed.

Lemma step_silent w ea :
  sender (this w) = None → starts w = [] → ¬ calls_start ea →
  sender (this (step w ea)) = None ∧ starts (step w ea) = []
  ∧ calls (step w ea) = calls w.
Proof.
  intros Hs Hp Hn. destruct ea as [e a]. split_world w.
  unfold calls_start in Hn. simpl in *. subst. destruct a.
  all: ndi_paths; simpl in *; done.
Qed.

Lemma run_silent w evs :
  sender (this w) = None → starts w = [] →
  Forall (λ ea, ¬ calls_start ea) evs →
  calls (run w evs) = calls w.
Proof.
  revert w. induction evs as [|ea evs IH]; intros w Hs Hp Hn; [done|].
  apply Forall_cons in Hn as [Hn1 Hn].
  destruct (step_silent w ea Hs Hp Hn1) as (Hs' & Hp' & Hc').
  simpl. by rewrite (IH (step w ea) Hs' Hp' Hn), Hc'.
Qed.

Lemma stop_starts e w : starts (stop e w) = starts w.
Proof. split_world w. by ndi_paths. Qed.

Lemma stop_idle e w : idle (stop e w).
Proof. split_world w. unfold idle. by ndi_paths. Qed.

Lemma stop_stop e1 e2 w : stop e2 (stop e1 w) = stop e1 w.
Proof. split_world w. by ndi_paths. Qed.

Lemma stop_calls e w :
  calls (stop e w)
  = calls w ++ match sender (this w) with Some h => [Destroy h] | None => [] end.
Proof. split_world w. ndi_paths; by rewrite ?app_nil_r. Qed.

Lemma stop_retired e w h :
  Inv w → sender (this w) = Some h → retired h (stop e w).
Proof.
  intros [_ _ _ _ _ I6] Hs. specialize (I6 h Hs).
  split_world w. unfold retired. by ndi_paths.
Qed.

End NdiFacts.

Module CaptureFacts.
Import Capture.
Local Open Scope nat_scope.

Lemma typed_set_fits target src off :
  off + length src ≤ length target →
  typed_set target src off
  = Some (take off target ++ src ++ drop (off + length src) target).
Proof. intros H. unfold typed_set. by rewrite bool_decide_true. Qed.

Lemma length_Float32Array n : length (Float32Array n) = n.
Proof. apply length_replicate. Qed.

Lemma length_subarray src a n :
  a + n ≤ length src → length (subarray src a (a + n)) = n.
Proof.
  intros H. unfold subarray. rewrite length_take, length_drop. lia.
Qed.

Lemma subarray_drop src a n :
  subarray src a (a + n) ++ drop (a + n) src = drop a src.
Proof.
  unfold subarray. replace (a + n - a) with n by lia.
  rewrite <-drop_drop. apply take_drop.
Qed.

(** Filling an empty planar buffer with two full channels. *)
Lemma planar_fill size ch0 ch1 :
  length ch0 = size → length ch1 = size →
  ∃ planar,
    typed_set (Float32Array (size * 2)) ch0 0 = Some planar
    ∧ typed_set planar ch1 size = Some (ch0 ++ ch1).
Proof.
  intros H0 H1. eexists. split.
  { apply typed_set_fits. rewrite length_Float32Array. lia. }
  rewrite typed_set_fits.
  2:{ simpl. rewrite !length_app, length_drop, length_Float32Array. lia. }
  f_equal. simpl. rewrite take_app_length' by done.
  f_equal. rewrite drop_ge; [by rewrite app_nil_r|].
  rewrite length_app, length_drop, length_Float32Array. lia.
Qed.

Lemma fill_spec fuel : ∀ src0 src1 read rem p out,
  ready p → length src1 = length src0 → read + rem = length src0 →
  rem ≤ fuel →
  ∃ p' new,
    fill fuel src0 src1 read rem p out = Some (p', out ++ new)
    ∧ ready p' ∧ _size p' = _size p
    ∧ Forall (full_chunk (_size p)) new
    ∧ concat (plane0 <$> new) ++ pending0 p' = pending0 p ++ drop read src0
    ∧ concat (plane1 <$> new) ++ pending1 p' = pending1 p ++ drop read src1.
Proof.
  induction fuel as [|fuel IH]; intros src0 src1 read rem p out Hp Hlen Hrd Hf.
  { assert (rem = 0) as -> by lia. exists p, []. simpl.
    rewrite !drop_ge, !app_nil_r by lia. done. }
  destruct rem as [|rem'].
  { exists p, []. simpl. rewrite !drop_ge, !app_nil_r by lia. done. }
  set (rem := S rem') in *. destruct Hp as [Hs H0 H1 Hpos Hrun].
  set (n := rem `min` (_size p - _pos p)).
  assert (0 < n ∧ n ≤ rem ∧ _pos p + n ≤ _size p) as (Hn0 & Hnr & Hns)
    by (subst n rem; lia).
  assert (length (subarray src0 read (read + n)) = n) as Hl0
    by (apply length_subarray; lia).
  assert (length (subarray src1 read (read + n)) = n) as Hl1
    by (apply length_subarray; lia).
  cbn [fill]. replace (rem =? 0) with false by (subst rem; done).
  fold n. rewrite !typed_set_fits by lia. rewrite Hl0, Hl1.
  set (ch0 := take (_pos p) (_ch0 p) ++ _ ++ drop (_pos p + n) (_ch0 p)).
  set (ch1 := take (_pos p) (_ch1 p) ++ _ ++ drop (_pos p + n) (_ch1 p)).
  assert (length ch0 = _size p) as Hc0.
  { subst ch0. rewrite !length_app, length_take, length_drop. lia. }
  assert (length ch1 = _size p) as Hc1.
  { subst ch1. rewrite !length_app, length_take, length_drop. lia. }
  case_bool_decide as Hfull.
  - assert (_pos p + n = _size p) as Hpn by lia.
    destruct (planar_fill (_size p) ch0 ch1 Hc0 Hc1) as (pl & -> & ->).
    edestruct (IH src0 src1 (read + n) (rem - n)
      {| _size := _size p; _ch0 := Float32Array (_size p);
         _ch1 := Float32Array (_size p); _pos := 0; _stopped := _stopped p |}
      (out ++ [Pcm (_size p) (ch0 ++ ch1)]))
      as (p' & new & -> & Hp' & Hsz & Hall & He0 & He1);
      [split; simpl; rewrite ?length_Float32Array; done || lia | lia..|].
    simpl in *.
    assert (plane0 (Pcm (_size p) (ch0 ++ ch1)) = ch0) as Hpl0.
    { unfold plane0. simpl. by rewrite take_app_length'. }
    assert (plane1 (Pcm (_size p) (ch0 ++ ch1)) = ch1) as Hpl1.
    { unfold plane1. simpl. by rewrite drop_app_length'. }
    exists p', (Pcm (_size p) (ch0 ++ ch1) :: new).
    split; [by rewrite <-app_assoc|]. split; [done|]. split; [done|].
    split. { constructor; [|done]. red. rewrite Hpl0, Hpl1. done. }
    rewrite !fmap_cons. simpl. rewrite Hpl0, Hpl1, <-!app_assoc, He0, He1.
    unfold pending0, pending1. simpl. subst ch0 ch1.
    rewrite !(drop_ge (_ch0 p)), !(drop_ge (_ch1 p)), !app_nil_r by lia.
    rewrite <-!app_assoc, !subarray_drop. done.
  - edestruct (IH src0 src1 (read + n) (rem - n)
      {| _size := _size p; _ch0 := ch0; _ch1 := ch1; _pos := _pos p + n;
         _stopped := _stopped p |} out)
      as (p' & new & -> & Hp' & Hsz & Hall & He0 & He1);
      [split; simpl; done || lia | lia..|].
    simpl in *. exists p', new. do 4 (split; [done|]).
    rewrite He0, He1. unfold pending0, pending1. simpl. subst ch0 ch1.
    rewrite !app_assoc.
    rewrite !(take_app_length' _ _ (_pos p + n))
      by (rewrite length_app, length_take; lia).
    rewrite <-!app_assoc, !subarray_drop. done.
Qed.

Lemma constructor_ready bufferSize : ready (constructor bufferSize).
Proof.
  unfold constructor.
  destruct (Nat.eqb_spec bufferSize 0); split; simpl;
    rewrite ?length_Float32Array; done || lia.
Qed.

#[local] Arguments fill : simpl never.

Lemma process_spec inputs p :
  ready p → even_input inputs →
  ∃ p' new,
    process inputs p = Some (true, p', new)
    ∧ ready p' ∧ _size p' = _size p
    ∧ Forall (full_chunk (_size p)) new
    ∧ concat (plane0 <$> new) ++ pending0 p' = pending0 p ++ input0 inputs
    ∧ concat (plane1 <$> new) ++ pending1 p' = pending1 p ++ input1 inputs.
Proof.
  intros Hp Hev. unfold process. rewrite (ready_running _ Hp).
  destruct inputs as [|[|src0 more] inputs]; simpl.
  1,2: exists p, []; simpl; by rewrite !app_nil_r.
  unfold even_input in Hev. simpl in Hev.
  set (src1 := match more with [] => src0 | s :: _ => s end) in *.
  destruct (fill_spec (S (length src0)) src0 src1 0 (length src0) p [] Hp)
    as (p' & new & Hfill & H); [done|lia|lia|].
  rewrite Hfill. simpl. by exists p', new.
Qed.

Lemma worklet_forward_id out : map worklet_forward out = out.
Proof. induction out as [|[] out IH]; simpl; [done|]. by rewrite IH. Qed.

Lemma worklet_run_spec blocks : ∀ p,
  ready p → Forall even_input blocks →
  ∃ p' out,
    worklet_run blocks p = Some (p', out)
    ∧ ready p' ∧ _size p' = _size p
    ∧ Forall (full_chunk (_size p)) out
    ∧ concat (plane0 <$> out) ++ pending0 p'
      = pending0 p ++ concat (input0 <$> blocks)
    ∧ concat (plane1 <$> out) ++ pending1 p'
      = pending1 p ++ concat (input1 <$> blocks).
Proof.
  induction blocks as [|inputs blocks IH]; intros p Hp Hev.
  { exists p, []. simpl. by rewrite !app_nil_r. }
  apply Forall_cons in Hev as [Hev1 Hev].
  destruct (process_spec inputs p Hp Hev1)
    as (p1 & new & Hpr & Hp1 & Hs1 & Hall1 & He0 & He1).
  destruct (IH p1 Hp1 Hev) as (p2 & out & Hrun & Hp2 & Hs2 & Hall2 & Hf0 & Hf1).
  exists p2, (new ++ out). simpl. rewrite Hpr, Hrun.
  rewrite worklet_forward_id.
  split; [done|]. split; [done|]. split; [congruence|].
  split. { apply Forall_app. split; [done|]. by rewrite <-Hs1. }
  rewrite !fmap_app, !concat_app, <-!app_assoc, Hf0, Hf1.
  rewrite !app_assoc, He0, He1. done.
Qed.

Lemma length_planes0 size out :
  Forall (full_chunk size) out →
  length (concat (plane0 <$> out)) = length out * size.
Proof.
  induction 1 as [|m out (_ & H0 & _) _ IH]; [done|].
  rewrite fmap_cons. cbn [concat length]. rewrite length_app, IH, H0. lia.
Qed.

Lemma length_pending0 p : ready p → length (pending0 p) = _pos p.
Proof.
  intros [? H0 ? ? ?]. unfold pending0. rewrite length_take. lia.
Qed.

(** The chunks are determined by the two sample streams. *)
Lemma chunks_unique size : ∀ out1 out2 r0 r0' r1 r1',
  Forall (full_chunk size) out1 → Forall (full_chunk size) out2 →
  concat (plane0 <$> out1) ++ r0 = concat (plane0 <$> out2) ++ r0' →
  concat (plane1 <$> out1) ++ r1 = concat (plane1 <$> out2) ++ r1' →
  length r0 < size → length r0' < size →
  out1 = out2.
Proof.
  induction out1 as [|m1 out1 IH];
    intros [|m2 out2] r0 r0' r1 r1' H1 H2 E0 E1 L L'.
  - done.
  - apply Forall_cons in H2 as [(_ & Hm & _) _]. simpl in E0. subst r0.
    rewrite <-app_assoc, length_app in L. lia.
  - apply Forall_cons in H1 as [(_ & Hm & _) _]. simpl in E0. subst r0'.
    rewrite <-app_assoc, length_app in L'. lia.
  - apply Forall_cons in H1 as [(Ha1 & Hb1 & Hc1 & Hd1) H1].
    apply Forall_cons in H2 as [(Ha2 & Hb2 & Hc2 & Hd2) H2].
    simpl in E0, E1. rewrite <-!app_assoc in E0, E1.
    apply app_inj_1 in E0 as [E0 E0']; [|congruence].
    apply app_inj_1 in E1 as [E1 E1']; [|congruence].
    f_equal; [|by eapply IH].
    destruct m1, m2; simpl in *. congruence.
Qed.

Lemma onaudioprocess_spec size e :
  length (channel0 e) = size → length (channel1 e) = size →
  ∃ m, onaudioprocess e = Some m ∧ full_chunk size m
    ∧ plane0 m = channel0 e ∧ plane1 m = channel1 e.
Proof.
  intros H0 H1. unfold onaudioprocess. rewrite H0.
  destruct (planar_fill size _ _ H0 H1) as (pl & -> & ->).
  eexists. split; [done|]. unfold full_chunk, plane0, plane1. simpl.
  rewrite take_app_length', drop_app_length' by done. done.
Qed.

Lemma script_run_spec size events :
  Forall (λ e, length (channel0 e) = size ∧ length (channel1 e) = size) events →
  ∃ out, script_run events = Some out
    ∧ Forall (full_chunk size) out
    ∧ concat (plane0 <$> out) = concat (channel0 <$> events)
    ∧ concat (plane1 <$> out) = concat (channel1 <$> events).
Proof.
  induction 1 as [|e events [H0 H1] _ (out & Hr & Hall & E0 & E1)].
  { by exists []. }
  destruct (onaudioprocess_spec size e H0 H1) as (m & Hm & Hf & P0 & P1).
  exists (m :: out). cbn [script_run]. rewrite Hm, Hr. split; [done|].
  split; [by constructor|]. rewrite !fmap_cons. cbn [concat].
  by rewrite P0, P1, E0, E1.
Qed.

End CaptureFacts.

Module RelayFacts.
Import Relay.
Local Open Scope nat_scope.

(** Induction on values, through the lists of elements and of fields. *)
Section value_induction.
Variable P : value → Prop.
Hypothesis Hundefined : P VUndefined.
Hypothesis Hnull : P VNull.
Hypothesis Hbool : ∀ b, P (VBool b).
Hypothesis Hnum : ∀ n, P (VNum n).
Hypothesis Hstr : ∀ s, P (VStr s).
Hypothesis Harr : ∀ a vs, Forall P vs → P (VArr a vs).
Hypothesis Hobj : ∀ a fs, Forall (λ kx, P kx.2) fs → P (VObj a fs).
Hypothesis Hfun : ∀ a, P (VFun a).
Hypothesis Hhost : ∀ a kind, P (VHost a kind).

Fixpoint value_rect' (v : value) : P v :=
  match v with
  | VUndefined => Hundefined
  | VNull => Hnull
  | VBool b => Hbool b
  | VNum n => Hnum n
  | VStr s => Hstr s
  | VArr a vs =>
      Harr a vs
        ((fix go (l : list value) : Forall P l :=
            match l with
            | [] => List.Forall_nil P
            | x :: l => List.Forall_cons P x l (value_rect' x) (go l)
            end) vs)
  | VObj a fs =>
      Hobj a fs
        ((fix go (l : list (string * value)) : Forall (λ kx, P kx.2) l :=
            match l with
            | [] => List.Forall_nil _
            | kx :: l =>
                List.Forall_cons _ kx l (value_rect' kx.2) (go l)
            end) fs)
  | VFun a => Hfun a
  | VHost a kind => Hhost a kind
  end.
End value_induction.

Lemma structuredClone_arr a vs n :
  structuredClone (VArr a vs) n
  = match clone_elems vs (S n) with
    | Some (vs', n') => Some (VArr n vs', n')
    | None => None
    end.
Proof. reflexivity. Qed.

Lemma structuredClone_obj a fs n :
  structuredClone (VObj a fs) n
  = match clone_fields fs (S n) with
    | Some (fs', n') => Some (VObj n fs', n')
    | None => None
    end.
Proof. reflexivity. Qed.

(** A clone is deep-equal to its source and lives on the addresses handed
    out while it was made. *)
Definition clone_ok (v : value) : Prop :=
  ∀ n v' n', structuredClone v n = Some (v', n') →
    erase v' = erase v ∧ n ≤ n' ∧ Forall (λ a, n ≤ a < n') (addrs v').

Lemma clone_elems_ok vs :
  Forall clone_ok vs →
  ∀ n vs' n', clone_elems vs n = Some (vs', n') →
    map erase vs' = map erase vs ∧ n ≤ n'
    ∧ Forall (λ a, n ≤ a < n') (concat (map addrs vs')).
Proof.
  induction 1 as [|x vs Hx _ IH]; intros n vs' n' Hc; simpl in Hc.
  { by simplify_eq. }
  destruct (structuredClone x n) as [[x' n1]|] eqn:E1; [|done].
  destruct (clone_elems vs n1) as [[l' n2]|] eqn:E2; [|done].
  simplify_eq. destruct (Hx _ _ _ E1) as (He & Hle & Ha).
  destruct (IH _ _ _ E2) as (He' & Hle' & Ha').
  simpl. split; [by rewrite He, He'|]. split; [lia|].
  apply Forall_app. split; (eapply Forall_impl; [eassumption|]); simpl; lia.
Qed.

Lemma clone_fields_ok fs :
  Forall (λ kx, clone_ok kx.2) fs →
  ∀ n fs' n', clone_fields fs n = Some (fs', n') →
    map (λ kx, (kx.1, erase kx.2)) fs' = map (λ kx, (kx.1, erase kx.2)) fs
    ∧ n ≤ n'
    ∧ Forall (λ a, n ≤ a < n') (concat (map (λ kx, addrs kx.2) fs')).
Proof.
  induction 1 as [|[k x] fs Hx _ IH]; intros n fs' n' Hc; simpl in Hc.
  { by simplify_eq. }
  destruct (structuredClone x n) as [[x' n1]|] eqn:E1; [|done].
  destruct (clone_fields fs n1) as [[l' n2]|] eqn:E2; [|done].
  simplify_eq. destruct (Hx _ _ _ E1) as (He & Hle & Ha).
  destruct (IH _ _ _ E2) as (He' & Hle' & Ha').
  simpl in *. split; [by rewrite He, He'|]. split; [lia|].
  apply Forall_app. split; (eapply Forall_impl; [eassumption|]); simpl; lia.
Qed.

Lemma structuredClone_ok v : clone_ok v.
Proof.
  induction v using value_rect'; intros n0 v' n' Hc.
  1-5: simpl in Hc; simplify_eq; simpl; split; [done|]; split; [lia|done].
  - rewrite structuredClone_arr in Hc.
    destruct (clone_elems vs (S n0)) as [[vs' n1]|] eqn:E; [|done].
    simplify_eq. destruct (clone_elems_ok vs H _ _ _ E) as (He & Hle & Ha).
    simpl. split; [by rewrite He|]. split; [lia|].
    constructor; [lia|]. eapply Forall_impl; [exact Ha|]. simpl. lia.
  - rewrite structuredClone_obj in Hc.
    destruct (clone_fields fs (S n0)) as [[fs' n1]|] eqn:E; [|done].
    simplify_eq. destruct (clone_fields_ok fs H _ _ _ E) as (He & Hle & Ha).
    simpl. split; [by rewrite He|]. split; [lia|].
    constructor; [lia|]. eapply Forall_impl; [exact Ha|]. simpl. lia.
  - done.
  - simpl in Hc. destruct (serializable kind); [|done]. simplify_eq. simpl.
    split; [done|]. split; [lia|]. constructor; [lia|done].
Qed.

(** Anything that is [cloneable] can be cloned. *)
Lemma structuredClone_total v :
  cloneable v = true → ∀ n, is_Some (structuredClone v n).
Proof.
  induction v using value_rect'; intros Hv n0; try done; try by eexists.
  3: by (simpl in *; rewrite Hv; eexists).
  - rewrite structuredClone_arr. simpl in Hv.
    assert (is_Some (clone_elems vs (S n0))) as [[vs' n'] ->]; [|by eexists].
    generalize (S n0). induction H as [|x vs Hx _ IH]; intros n1; [by eexists|].
    simpl in Hv. apply andb_prop in Hv as [Hv1 Hv2]. simpl.
    destruct (Hx Hv1 n1) as [[x' n2] ->].
    destruct (IH Hv2 n2) as [[l' n3] ->]. by eexists.
  - rewrite structuredClone_obj. simpl in Hv.
    assert (is_Some (clone_fields fs (S n0))) as [[fs' n'] ->]; [|by eexists].
    generalize (S n0).
    induction H as [|[k x] fs Hx _ IH]; intros n1; [by eexists|].
    simpl in Hv, Hx. apply andb_prop in Hv as [Hv1 Hv2]. simpl.
    destruct (Hx Hv1 n1) as [[x' n2] ->].
    destruct (IH Hv2 n2) as [[l' n3] ->]. by eexists.
Qed.

Lemma cloneable_erase v : cloneable (erase v) = cloneable v.
Proof.
  induction v using value_rect'; simpl; try done.
  - induction H as [|x vs Hx _ IH]; simpl; [done|]. by rewrite Hx, IH.
  - induction H as [|x vs Hx _ IH]; simpl; [done|]. by rewrite Hx, IH.
Qed.

Lemma ipc_serializable_erase v : ipc_serializable (erase v) = ipc_serializable v.
Proof.
  induction v using value_rect'; simpl; try done.
  - induction H as [|x vs Hx _ IH]; simpl; [done|]. by rewrite Hx, IH.
  - induction H as [|x vs Hx _ IH]; simpl; [done|]. by rewrite Hx, IH.
Qed.

Lemma json_cloneable v : json v = true → cloneable v = true.
Proof.
  induction v using value_rect'; simpl; try done.
  - induction H as [|x vs Hx _ IH]; simpl; [done|].
    intros [? ?]%andb_prop. by rewrite Hx, IH.
  - induction H as [|x vs Hx _ IH]; simpl; [done|].
    intros [? ?]%andb_prop. by rewrite Hx, IH.
Qed.

Lemma json_ipc_serializable v : json v = true → ipc_serializable v = true.
Proof.
  induction v using value_rect'; simpl; try done.
  - induction H as [|x vs Hx _ IH]; simpl; [done|].
    intros [? ?]%andb_prop. by rewrite Hx, IH.
  - induction H as [|x vs Hx _ IH]; simpl; [done|].
    intros [? ?]%andb_prop. by rewrite Hx, IH.
Qed.


(** *** The fan-out loop *)

(** The loop only queues microtasks and allocates. *)
Lemma fan_out_frame self set data : ∀ w,
  let w' := state_of (fan_out self set data w) in
  registry w' = registry w ∧ instances w' = instances w
  ∧ sent w' = sent w ∧ delivered w' = delivered w.
Proof.
  induction set as [|inst set IH]; intros w; simpl; [done|].
  destruct (bool_decide (Some inst ≠ self) && negb (is_closed w inst)).
  - destruct (structuredClone data (next_addr w)) as [[copy n]|]; [|done].
    apply (IH (_dispatch inst copy (set_next_addr n w))).
  - apply IH.
Qed.

Lemma unshared_ranges d1 d2 a b c :
  Forall (λ x, a ≤ x < b) (addrs d1) → Forall (λ x, b ≤ x < c) (addrs d2) →
  unshared d1 d2.
Proof.
  rewrite !Forall_forall. intros H1 H2 x Hx1 Hx2.
  specialize (H1 x Hx1). specialize (H2 x Hx2). lia.
Qed.

Lemma fan_out_spec self set data :
  cloneable data = true →
  ∀ w, ∃ w' new,
    fan_out self set data w = Returned w'
    ∧ microtasks w' = microtasks w ++ new
    ∧ new.*1 = filter (λ j, Some j ≠ self ∧ is_closed w j = false) set
    ∧ Forall (λ d, deep_equal d data
                   ∧ Forall (λ a, next_addr w ≤ a < next_addr w') (addrs d))
        new.*2
    ∧ pairwise_unshared new.*2
    ∧ next_addr w ≤ next_addr w'.
Proof.
  intros Hd. induction set as [|inst set IH]; intros w.
  { exists w, []. simpl. by rewrite app_nil_r. }
  cbn [fan_out]. rewrite filter_cons.
  destruct (decide (Some inst ≠ self ∧ is_closed w inst = false)) as [[H1 H2]|Hn].
  - rewrite bool_decide_true, H2 by done. cbn [negb andb].
    destruct (structuredClone_total data Hd (next_addr w)) as [[copy n] Hc].
    rewrite Hc. destruct (structuredClone_ok data _ _ _ Hc) as (He & Hle & Ha).
    destruct (IH (_dispatch inst copy (set_next_addr n w)))
      as (w' & new & -> & Hm & Ht & Hall & Hp & Hn').
    simpl in *. exists w', ((inst, copy) :: new).
    split; [done|]. split; [by rewrite Hm, <-app_assoc|].
    split; [by rewrite fmap_cons, Ht|]. rewrite fmap_cons. simpl.
    split; [|split; [|lia]].
    + constructor.
      * split; [done|]. eapply Forall_impl; [exact Ha|]. simpl. lia.
      * eapply Forall_impl; [exact Hall|]. simpl. intros d [? Hr].
        split; [done|]. eapply Forall_impl; [exact Hr|]. simpl. lia.
    + split; [|done]. eapply Forall_impl; [exact Hall|]. simpl.
      intros d [_ Hr]. by eapply unshared_ranges.
  - assert (bool_decide (Some inst ≠ self) && negb (is_closed w inst) = false)
      as ->.
    { apply andb_false_iff. destruct (decide (Some inst ≠ self)).
      - right. destruct (is_closed w inst); [done|]. naive_solver.
      - left. by apply bool_decide_eq_false. }
    apply IH.
Qed.

(** *** [postMessage] and the receive handler *)

Lemma postMessage_spec w i inst m :
  instances w !! i = Some inst → _closed inst = false → cloneable m = true →
  ∃ w' new,
    postMessage i m w = Returned w'
    ∧ microtasks w' = microtasks w ++ new
    ∧ new.*1 = local_targets i (name inst) w
    ∧ Forall (λ d, deep_equal d m ∧ Forall (λ a, next_addr w ≤ a) (addrs d))
        new.*2
    ∧ pairwise_unshared new.*2
    ∧ sent w'
      = sent w ++ (if ipc_serializable m then [(name inst, erase m)] else []).
Proof.
  intros Hi Ho Hm. unfold postMessage. rewrite Hi, Ho.
  destruct (structuredClone_total m Hm (next_addr w)) as [[cloned n] Hc].
  rewrite Hc. destruct (structuredClone_ok m _ _ _ Hc) as (He & Hle & Ha).
  assert (cloneable cloned = true) as Hcl
    by (by rewrite <-cloneable_erase, He, cloneable_erase).
  assert (ipc_serializable cloned = ipc_serializable m) as Hser
    by (by rewrite <-ipc_serializable_erase, He, ipc_serializable_erase).
  unfold local_targets. cbn [registry set_next_addr].
  destruct (registry w !! name inst) as [set|] eqn:Hreg.
  - destruct (fan_out_spec (Some i) set cloned Hcl (set_next_addr n w))
      as (w' & new & Hf & Hmt & Ht & Hall & Hp & Hn).
    destruct (fan_out_frame (Some i) set cloned (set_next_addr n w))
      as (_ & _ & Hs & _). rewrite Hf in *. simpl in *.
    unfold ipc_send. rewrite Hser, He.
    exists (if ipc_serializable m
            then set_sent (sent w' ++ [(name inst, erase m)]) w' else w'), new.
    split; [by destruct (ipc_serializable m)|].
    split; [by destruct (ipc_serializable m)|].
    split. { rewrite Ht. apply list_filter_iff. intros j. unfold is_closed.
             simpl. naive_solver. }
    split. { eapply Forall_impl; [exact Hall|]. simpl. intros d [Hd Hr].
             split; [unfold deep_equal in *; congruence|].
             eapply Forall_impl; [exact Hr|]. simpl. lia. }
    split; [done|].
    destruct (ipc_serializable m); simpl; rewrite ?app_nil_r; congruence.
  - unfold ipc_send. rewrite Hser, He. simpl.
    exists (if ipc_serializable m
            then set_sent (sent w ++ [(name inst, erase m)]) (set_next_addr n w)
            else set_next_addr n w), [].
    rewrite app_nil_r.
    destruct (ipc_serializable m); simpl; rewrite ?app_nil_r; done.
Qed.

Lemma on_message_spec w channel payload :
  cloneable payload = true →
  ∃ w' new,
    on_broadcast_channel_message channel payload w = Returned w'
    ∧ microtasks w' = microtasks w ++ new
    ∧ new.*1 = open_targets channel w
    ∧ Forall (λ d, deep_equal d payload) new.*2
    ∧ pairwise_unshared new.*2
    ∧ sent w' = sent w.
Proof.
  intros Hm. unfold on_broadcast_channel_message.
  destruct (structuredClone_total payload Hm (next_addr w)) as [[msg n] Hc].
  rewrite Hc. destruct (structuredClone_ok payload _ _ _ Hc) as (He & Hle & Ha).
  assert (cloneable msg = true) as Hcl
    by (by rewrite <-cloneable_erase, He, cloneable_erase).
  unfold open_targets. cbn [registry set_next_addr].
  destruct (registry w !! channel) as [set|] eqn:Hreg.
  - destruct (fan_out_spec None set msg Hcl (set_next_addr n w))
      as (w' & new & Hf & Hmt & Ht & Hall & Hp & Hn).
    destruct (fan_out_frame None set msg (set_next_addr n w))
      as (_ & _ & Hs & _). rewrite Hf in *. simpl in *.
    exists w', new. split; [done|]. split; [done|].
    split. { rewrite Ht. apply list_filter_iff. intros j. unfold is_closed.
             simpl. naive_solver. }
    split; [|done].
    eapply Forall_impl; [exact Hall|]. simpl. intros d [Hd _].
    unfold deep_equal in *. congruence.
  - exists (set_next_addr n w), []. simpl. by rewrite app_nil_r.
Qed.


(** *** Closed instances *)

Lemma postMessage_frame i m w :
  let w' := state_of (postMessage i m w) in
  instances w' = instances w ∧ delivered w' = delivered w.
Proof.
  unfold postMessage. destruct (instances w !! i) as [inst|]; [|done].
  destruct (_closed inst); [done|].
  destruct (structuredClone m (next_addr w)) as [[cloned n]|]; [|done].
  cbn [registry set_next_addr].
  assert (∀ r : outcome Context,
    instances (state_of r) = instances w ∧ delivered (state_of r) = delivered w →
    let w' := state_of match r with
                       | Thrown e w0 => Thrown e w0
                       | Returned w0 =>
                           match ipc_send (name inst) cloned w0 with
                           | Returned w1 | Thrown _ w1 => Returned w1
                           end
                       end in
    instances w' = instances w ∧ delivered w' = delivered w) as Hk.
  { intros [w0|e w0]; simpl; [|done]. unfold ipc_send.
    by destruct (ipc_serializable cloned). }
  apply Hk. destruct (registry w !! name inst) as [set|]; [|done].
  destruct (fan_out_frame (Some i) set cloned (set_next_addr n w))
    as (_ & ? & _ & ?). done.
Qed.

Lemma on_message_frame channel payload w :
  let w' := state_of (on_broadcast_channel_message channel payload w) in
  instances w' = instances w ∧ delivered w' = delivered w.
Proof.
  unfold on_broadcast_channel_message.
  destruct (structuredClone payload (next_addr w)) as [[msg n]|]; [|done].
  cbn [registry set_next_addr].
  destruct (registry w !! channel) as [set|]; [|done].
  destruct (fan_out_frame None set msg (set_next_addr n w))
    as (_ & ? & _ & ?). done.
Qed.

Lemma postMessage_closed i m w :
  is_closed w i = true → postMessage i m w = Thrown InvalidStateError w.
Proof.
  unfold is_closed, postMessage.
  destruct (instances w !! i) as [inst|]; [|done]. by intros ->.
Qed.

Lemma close_closed i w :
  i < length (instances w) → is_closed (close i w) i = true.
Proof.
  intros Hi. destruct (lookup_lt_is_Some_2 _ _ Hi) as [inst Hinst].
  unfold close. rewrite Hinst.
  destruct (_closed inst) eqn:Hc. { unfold is_closed. by rewrite Hinst. }
  assert (∀ w', instances w' = <[i:={| name := name inst; _closed := true;
                                       _onmessage := _onmessage inst;
                                       _onmessageerror := _onmessageerror inst |}]>
                                 (instances w) →
          is_closed w' i = true) as Hk.
  { intros w' Hw'. unfold is_closed. by rewrite Hw', list_lookup_insert_eq. }
  simpl. destruct (registry w !! name inst); by apply Hk.
Qed.

(** Once closed, an instance stays closed and is delivered nothing. *)
Lemma step_closed w a i :
  is_closed w i = true →
  is_closed (step w a) i = true ∧ received i (step w a) = received i w.
Proof.
  intros Hc. unfold is_closed, received in *.
  destruct (instances w !! i) as [inst|] eqn:Hi; [|done].
  destruct a as [nm|j m|j|j fn|j fn| |channel payload]; cbn [step].
  - unfold construct. simpl.
    rewrite lookup_app_l by (by eapply lookup_lt_Some). by rewrite Hi.
  - destruct (postMessage_frame j m w) as [-> ->]. by rewrite Hi.
  - unfold close. destruct (instances w !! j) as [instj|] eqn:Hj;
      [|by rewrite Hi].
    destruct (_closed instj); [by rewrite Hi|].
    assert (∀ w', instances w' = <[j:={| name := name instj; _closed := true;
                                         _onmessage := _onmessage instj;
                                         _onmessageerror := _onmessageerror instj |}]>
                                   (instances w) →
                  delivered w' = delivered w →
            match instances w' !! i with
            | Some inst0 => _closed inst0
            | None => false
            end = true
            ∧ ev_data <$> filter (λ d, target d = i) (delivered w')
              = ev_data <$> filter (λ d, target d = i) (delivered w)) as Hk.
    { intros w' -> ->. split; [|done]. destruct (decide (j = i)) as [->|Hne].
      - rewrite list_lookup_insert_eq by (by eapply lookup_lt_Some). done.
      - rewrite list_lookup_insert_ne by done. by rewrite Hi. }
    simpl. destruct (registry w !! name instj); by apply Hk.
  - unfold set_onmessage. destruct (instances w !! j) as [instj|] eqn:Hj;
      [|by rewrite Hi].
    simpl. split; [|done]. destruct (decide (j = i)) as [->|Hne].
    + rewrite list_lookup_insert_eq by (by eapply lookup_lt_Some).
      simpl. congruence.
    + rewrite list_lookup_insert_ne by done. by rewrite Hi.
  - unfold set_onmessageerror.
    destruct (instances w !! j) as [instj|] eqn:Hj; [|by rewrite Hi].
    simpl. split; [|done]. destruct (decide (j = i)) as [->|Hne].
    + rewrite list_lookup_insert_eq by (by eapply lookup_lt_Some).
      simpl. congruence.
    + rewrite list_lookup_insert_ne by done. by rewrite Hi.
  - destruct (microtasks w) as [|[j d] rest]; [by rewrite Hi|].
    unfold run_dispatch. simpl.
    destruct (instances w !! j) as [instj|] eqn:Hj; simpl; [|by rewrite Hi].
    destruct (_closed instj) eqn:Hcj; simpl; rewrite Hi; [done|].
    split; [done|]. rewrite filter_app, filter_cons_False, filter_nil.
    + by rewrite app_nil_r.
    + simpl. intros ->. congruence.
  - destruct (on_message_frame channel payload w) as [-> ->]. by rewrite Hi.
Qed.

Lemma run_closed w evs i :
  is_closed w i = true →
  is_closed (run w evs) i = true ∧ received i (run w evs) = received i w.
Proof.
  revert w. induction evs as [|a evs IH]; intros w Hc; [done|].
  destruct (step_closed w a i Hc) as [Hc' Hr'].
  destruct (IH (step w a) Hc') as [Hc'' Hr'']. simpl. by rewrite Hr'', Hr'.
Qed.

Lemma microtask_delivers w j d rest inst :
  microtasks w = (j, d) :: rest → instances w !! j = Some inst →
  _closed inst = false →
  delivered (step w Microtask)
  = delivered w ++ [Delivery j d (_onmessage inst)].
Proof.
  intros Hm Hi Hc. cbn [step]. rewrite Hm. unfold run_dispatch. simpl.
  by rewrite Hi, Hc.
Qed.

End RelayFacts.

(** * Further lemmas *)

Module NdiLemmas.
Import Ndi NdiFacts.

(** *** Running and holding a sender go together *)

Lemma step_running_sender w ea :
  (running (this w) = true ↔ is_Some (sender (this w))) →
  (running (this (step w ea)) = true ↔ is_Some (sender (this (step w ea)))).
Proof.
  intros H. destruct ea as [e a]. split_world w. simpl in H. destruct a.
  all: ndi_paths; bools.
  all: try done.
  all: try (split; [done|]; intros [? [=]]).
  all: try (split; [|done]; intros [=]).
  all: try (split; eauto; done).
Qed.


Lemma run_running_sender w evs :
  (running (this w) = true ↔ is_Some (sender (this w))) →
  (running (this (run w evs)) = true ↔ is_Some (sender (this (run w evs)))).
Proof.
  revert w. induction evs as [|ea evs IH]; intros w H; [done|].
  simpl. apply IH. by apply step_running_sender.
Qed.

(** *** Frames *)

Lemma same_clock_reading ns : same_clock (timecode_of ns) (timestamp_of ns).
Proof.
  unfold same_clock, timecode_of, timestamp_of. simpl. f_equal.
  rewrite Z.mul_comm. apply Z.quot_rem'.
Qed.

Lemma step_frames w ea :
  audio_format w →
  audio_format (step w ea)
  ∧ ∃ new, calls (step w ea) = calls w ++ new ∧ Forall call_ok new.
Proof.
  intros [Hr Hc]. destruct ea as [e a]. split_world w. unfold audio_format.
  simpl in *. subst. destruct a.
  all: ndi_paths.
  all: split; [done|].
  all: first [ exists []; rewrite app_nil_r; split; [reflexivity|]
             | eexists [_]; split; [reflexivity|] ].
  all: repeat first [apply Forall_nil|apply Forall_cons; split]; try done.
  all: unfold call_ok, video_frame_ok, audio_frame_ok; simpl.
  all: repeat split; try done; try apply same_clock_reading.
  all: f_equal; by apply Z.eqb_eq.
Qed.

Lemma run_frames w evs :
  audio_format w →
  ∃ new, calls (run w evs) = calls w ++ new ∧ Forall call_ok new.
Proof.
  revert w. induction evs as [|ea evs IH]; intros w Hw.
  { exists []. by rewrite app_nil_r. }
  destruct (step_frames w ea Hw) as (Hw' & n1 & Hc1 & Ho1).
  destruct (IH (step w ea) Hw') as (n2 & Hc2 & Ho2).
  exists (n1 ++ n2). split; [simpl; by rewrite Hc2, Hc1, app_assoc|].
  by apply Forall_app.
Qed.

Lemma video_frames_ok cs :
  Forall call_ok cs → Forall video_frame_ok (video_frames cs).
Proof.
  induction 1 as [|[] cs Hc _ IH]; simpl; [done| |done|done].
  by constructor.
Qed.

Lemma audio_frames_ok cs :
  Forall call_ok cs → Forall audio_frame_ok (audio_frames cs).
Proof.
  induction 1 as [|[] cs Hc _ IH]; simpl; [done|done| |done].
  by constructor.
Qed.


(** *** A sender is destroyed once, and not used afterwards *)

Lemma step_released w ea :
  Inv w →
  ∃ new, calls (step w ea) = calls w ++ new
    ∧ Forall (λ c, ∀ h, c = Destroy h → retired h (step w ea)) new.
Proof.
  intros [I1 I2 I3 I4 I5 I6]. destruct ea as [e a]. split_world w.
  simpl in *. destruct a.
  all: ndi_paths.
  all: first [ exists []; rewrite app_nil_r; split; [reflexivity|]
             | eexists [_]; split; [reflexivity|] ].
  all: repeat first [apply Forall_nil|apply Forall_cons; split]; try done.
  all: intros ? [=]; subst; unfold retired; simpl; split; try done.
  all: try lia.
  all: by apply I6.
Qed.

Lemma lifecycle_ok_snoc cs : ∀ dead c,
  lifecycle_ok dead (cs ++ [c])
  ↔ lifecycle_ok dead cs
    ∧ (call_handle c ∉ dead) ∧ (call_handle c ∉ destroyed_handles cs).
Proof.
  induction cs as [|c0 cs IH]; intros dead c; simpl.
  { rewrite elem_of_nil. naive_solver. }
  rewrite IH. destruct c0; simpl; rewrite ?elem_of_cons; naive_solver.
Qed.

Lemma destroyed_handles_snoc cs c :
  destroyed_handles (cs ++ [c])
  = destroyed_handles cs ++ match c with Destroy h => [h] | _ => [] end.
Proof.
  induction cs as [|[] cs IH]; simpl; rewrite ?IH; try done.
Qed.

Lemma lifecycle_ok_dead post : ∀ dead h,
  lifecycle_ok dead post → h ∈ dead → Forall (λ c, call_handle c ≠ h) post.
Proof.
  induction post as [|c post IH]; intros dead h Hl Hh; [done|].
  destruct Hl as [Hc Hl]. constructor; [intros Heq; apply Hc; by rewrite Heq|].
  apply (IH _ _ Hl). destruct c; simpl; rewrite ?elem_of_cons; auto.
Qed.

Lemma lifecycle_ok_split pre : ∀ dead h post,
  lifecycle_ok dead (pre ++ Destroy h :: post) →
  Forall (λ c, call_handle c ≠ h) post.
Proof.
  induction pre as [|c pre IH]; intros dead h post Hl.
  - destruct Hl as [_ Hl]. apply (lifecycle_ok_dead _ _ _ Hl). by left.
  - destruct Hl as [_ Hl]. by eapply IH.
Qed.

Lemma step_one_call w ea :
  ∃ new, calls (step w ea) = calls w ++ new ∧ (length new ≤ 1)%nat.
Proof.
  destruct ea as [e a]. split_world w. destruct a.
  all: ndi_paths.
  all: first [ exists []; rewrite app_nil_r; split; [reflexivity|simpl; lia]
             | eexists [_]; split; [reflexivity|simpl; lia] ].
Qed.

Lemma step_handles_ok w ea : Inv w → handles_ok w → handles_ok (step w ea).
Proof.
  intros HI [Hl Hd].
  destruct (step_released w ea HI) as (new & Hc & Hnew).
  destruct (step_trace w ea) as (new' & Hc' & _ & Hh).
  assert (new' = new) as ->
    by (rewrite Hc in Hc'; by apply app_inv_head in Hc').
  assert (∀ h, h ∈ destroyed_handles (calls w) → retired h (step w ea)) as Hd'.
  { intros h Hin. by apply step_retired, Hd. }
  assert (new = [] ∨ ∃ c, new = [c]) as [->|[c ->]].
  { destruct (step_one_call w ea) as (new1 & Hc1 & Hlen).
    assert (new1 = new) as ->
      by (rewrite Hc in Hc1; by apply app_inv_head in Hc1).
    destruct new as [|c [|? ?]]; [by left|right; by eexists|simpl in Hlen; lia]. }
  { rewrite app_nil_r in Hc. unfold handles_ok. by rewrite Hc. }
  apply Forall_cons in Hnew as [Hnew _]. apply Forall_cons in Hh as [Hh _].
  unfold handles_ok. rewrite Hc. split.
  - apply lifecycle_ok_snoc. split; [done|]. split; [apply not_elem_of_nil|].
    intros Hin. destruct (Hd _ Hin) as [Hlt Hne].
    destruct Hh as [Hh|Hh]; [done|lia].
  - intros h. rewrite destroyed_handles_snoc, elem_of_app.
    intros [Hin|Hin]; [by apply Hd'|].
    destruct c; simpl in Hin; try by apply elem_of_nil in Hin.
    apply list_elem_of_singleton in Hin as ->. by apply Hnew.
Qed.

Lemma run_handles_ok w evs : Inv w → handles_ok w → handles_ok (run w evs).
Proof.
  revert w. induction evs as [|ea evs IH]; intros w HI Hw; [done|].
  simpl. apply IH; [by apply step_inv|by apply step_handles_ok].
Qed.


Lemma last8_short {A} (l : list A) : (length l ≤ 8)%nat → last8 l = l.
Proof. intros H. unfold last8. by replace (length l - 8)%nat with 0%nat by lia. Qed.

Lemma length_last8 {A} (l : list A) : (length (last8 l) ≤ 8)%nat.
Proof. unfold last8. rewrite length_drop. lia. Qed.

Lemma last8_snoc {A} (l : list A) c : last8 (last8 l ++ [c]) = last8 (l ++ [c]).
Proof.
  destruct (decide (length l ≤ 8)%nat) as [Hle|Hgt].
  { by rewrite (last8_short l). }
  unfold last8 at 1 3. rewrite !length_app. simpl.
  unfold last8. rewrite length_drop.
  replace (length l - (length l - 8) + 1 - 8)%nat with 1%nat by lia.
  replace (length l + 1 - 8)%nat with (S (length l - 8)) by lia.
  rewrite (drop_app_le l) by lia.
  rewrite drop_app_le by (rewrite length_drop; lia).
  by rewrite drop_drop, Nat.add_1_r.
Qed.

Lemma push_backpressure w e c :
  Inv w → accepts w → _audioDraining (this w) = true →
  let w' := step w (e, CallPushAudio (data c) (noSamples c)) in
  _audioQueue (this w') = last8 (_audioQueue (this w) ++ [c])
  ∧ accepts w' ∧ _audioDraining (this w') = true
  ∧ calls w' = calls w ∧ drains w' = drains w.
Proof.
  intros [I1 I2 I3 I4 I5 I6] (Hr & Ha & [h Hs]) Hd.
  split_world w. simpl in *. subst. destruct c as [buf n].
  unfold accepts. ndi_paths; bools; simpl in *.
  all: try (exfalso; eauto; fail).
  - split; [|repeat split; try done; by eexists].
    destruct _audioQueue0 as [|c q]; [simpl in *; lia|].
    unfold last8. rewrite length_app.
    by replace (length (c :: q) + length [Chunk buf n] - 8)%nat
      with 1%nat by (simpl in *; lia).
  - split; [|repeat split; try done; by eexists]. rewrite last8_short; [done|].
    rewrite length_app. simpl. lia.
Qed.

Lemma last8_app {A} (a l : list A) : last8 (last8 a ++ l) = last8 (a ++ l).
Proof.
  induction l as [|x l IHl] using rev_ind.
  - rewrite !app_nil_r. apply last8_short, length_last8.
  - by rewrite !app_assoc, <-last8_snoc, IHl, last8_snoc.
Qed.

Lemma run_backpressure ecs : ∀ w,
  Inv w → accepts w → _audioDraining (this w) = true →
  _audioQueue (this (run w (pushes ecs)))
  = last8 (_audioQueue (this w) ++ ecs.*2)
  ∧ calls (run w (pushes ecs)) = calls w
  ∧ drains (run w (pushes ecs)) = drains w.
Proof.
  induction ecs as [|[e c] ecs IH]; intros w HI Ha Hd.
  { simpl. rewrite app_nil_r, last8_short; [done|apply HI]. }
  destruct (push_backpressure w e c HI Ha Hd) as (Hq & Ha' & Hd' & Hc & Hdr).
  cbv zeta in *.
  change (run w (pushes ((e, c) :: ecs)))
    with (run (step w (e, CallPushAudio (data c) (noSamples c))) (pushes ecs)).
  destruct (IH _ (step_inv _ (e, CallPushAudio (data c) (noSamples c)) HI)
              Ha' Hd') as (Hq2 & Hc2 & Hdr2).
  rewrite Hq2, Hc2, Hdr2, Hq, Hc, Hdr. split; [|done].
  rewrite last8_app, <-app_assoc. done.
Qed.


Lemma Forall_delete_snoc {A} (P : A → Prop) l k x :
  Forall P l → P x → Forall P (delete k l ++ [x]).
Proof.
  intros Hl Hx. apply Forall_app. split; [by apply Forall_delete|].
  by constructor.
Qed.

Lemma step_mute w ea : mute w → ¬ starts_audio ea → mute (step w ea).
Proof.
  intros (H1 & H2 & H3 & H4 & H5 & H6) Hn. destruct ea as [e a].
  split_world w. unfold mute, starts_audio in *. simpl in *. subst.
  destruct a as [nm f wd ht au| | | | | | | | | | |].
  1: destruct au; [by destruct Hn|].
  all: ndi_paths; simpl in *.
  all: rewrite ?audio_chunks_app, ?H5; simpl.
  all: try match goal with H : _ !! _ = Some _ |- _ =>
             pose proof (Forall_lookup_1 _ _ _ _ H6 H) as Hm; simpl in Hm end.
  all: subst.
  all: repeat split; try done.
  all: try (by apply Forall_delete).
  all: try (by apply Forall_delete_snoc).
  all: try (apply Forall_app; split; [done|by repeat constructor]).
Qed.

Lemma run_mute w evs :
  mute w → Forall (λ ea, ¬ starts_audio ea) evs → mute (run w evs).
Proof.
  revert w. induction evs as [|ea evs IH]; intros w Hw Hn; [done|].
  apply Forall_cons in Hn as [Hn1 Hn]. simpl. apply IH; [|done].
  by apply step_mute.
Qed.

(** *** A failure leaves the stream running *)

Lemma failure_keeps_running w e a :
  (∃ k, a = CaptureDone k None ∨ a = VideoDone k false ∨ a = AudioDone k false) →
  let w' := step w (e, a) in
  running (this w') = running (this w) ∧ sender (this w') = sender (this w)
  ∧ destroyed_handles (calls w') = destroyed_handles (calls w).
Proof.
  intros [k [->|[->| ->]]]; split_world w.
  all: ndi_paths; simpl; try done.
  all: rewrite destroyed_handles_snoc; simpl; by rewrite app_nil_r.
Qed.

Lemma video_failure_rearms w e k t0 :
  loops w !! k = Some (LoopAwaitVideo t0) → running (this w) = true →
  let w' := step w (e, VideoDone k false) in
  _timeout (this w') = Some (next_timer w)
  ∧ timers w'
    = timers w
      ++ [(next_timer w, Qmax 1 (1000 / fps (this w) - (now e - t0)))]
  ∧ console w' = console w ++ [LogVideoError].
Proof.
  intros Hk Hr. split_world w. simpl in *. subst.
  ndi_eval. rewrite Hk. by ndi_paths.
Qed.

Lemma capture_failure_rearms w e k t0 ns :
  loops w !! k = Some (LoopAwaitCapture t0 ns) → running (this w) = true →
  let w' := step w (e, CaptureDone k None) in
  _timeout (this w') = Some (next_timer w)
  ∧ timers w'
    = timers w
      ++ [(next_timer w, Qmax 1 (1000 / fps (this w) - (now e - t0)))]
  ∧ console w' = console w ++ [LogVideoError]
  ∧ calls w' = calls w.
Proof.
  intros Hk Hr. split_world w. simpl in *. subst.
  ndi_eval. rewrite Hk. by ndi_paths.
Qed.

Lemma step_destroyed_window w ea :
  destroyed w = true → no_capture_parked w →
  destroyed (step w ea) = true ∧ no_capture_parked (step w ea)
  ∧ video_frames (calls (step w ea)) = video_frames (calls w).
Proof.
  intros Hd Hp. destruct ea as [e a]. split_world w.
  unfold no_capture_parked in *. simpl in *. subst. destruct a.
  all: ndi_paths; simpl in *.
  all: try match goal with H : _ !! _ = Some _ |- _ =>
             pose proof (Forall_lookup_1 _ _ _ _ Hp H) as Hm; simpl in Hm;
             try done end.
  all: repeat split; try done.
  all: try (by apply Forall_delete).
  all: try (apply Forall_app; split; [done|by repeat constructor]).
  all: try (induction calls0 as [|[] ? IH]; simpl; by rewrite ?IH).
Qed.

Lemma run_destroyed_window w evs :
  destroyed w = true → no_capture_parked w →
  video_frames (calls (run w evs)) = video_frames (calls w).
Proof.
  revert w. induction evs as [|ea evs IH]; intros w Hd Hp; [done|].
  destruct (step_destroyed_window w ea Hd Hp) as (Hd' & Hp' & Hv).
  simpl. by rewrite (IH _ Hd' Hp'), Hv.
Qed.

Lemma step_inert w ea : inert w → inert (step w ea).
Proof.
  intros (H1 & H2 & H3 & H4 & H5 & H6). destruct ea as [e a].
  split_world w. unfold inert in *. simpl in *. subst. destruct a.
  all: ndi_paths; simpl in *; done.
Qed.

Lemma run_inert w evs : inert w → inert (run w evs).
Proof.
  revert w. induction evs as [|ea evs IH]; intros w Hw; [done|].
  simpl. apply IH. by apply step_inert.
Qed.


Lemma pushAudio_sends w e buf n :
  Inv w → accepts w → _audioDraining (this w) = false →
  ∃ h f,
    sender (this w) = Some h
    ∧ calls (pushAudio e buf n w) = calls w ++ [Audio h f]
    ∧ a_data f = buf ∧ a_noSamples f = n ∧ channelStrideBytes f = (n * 4)%Z
    ∧ sampleRate f = _audioSampleRate (this w)
    ∧ noChannels f = _audioChannels (this w)
    ∧ same_clock (a_timecode f) (a_timestamp f)
    ∧ destroyed (pushAudio e buf n w) = destroyed w.
Proof.
  intros HI (Hr & Ha & [h Hs]) Hd.
  assert (_audioQueue (this w) = []) as Hq.
  { destruct (_audioQueue (this w)) eqn:E; [done|].
    pose proof (inv_queue_draining _ HI) as H. rewrite E in H.
    rewrite H in Hd; done. }
  clear HI. split_world w. simpl in *. subst.
  eexists _, _. split; [done|]. ndi_eval. simpl.
  repeat split; try done. apply same_clock_reading.
Qed.


Lemma reachable_audio_format id g evs :
  audio_format (run (new_world id g) evs).
Proof.
  assert (∀ evs w, audio_format w → audio_format (run w evs)) as H.
  { clear. induction evs as [|ea evs IH]; intros w Hw; [done|].
    simpl. apply IH. by apply step_frames. }
  apply H. by split.
Qed.











End NdiLemmas.

Module CaptureLemmas.
Import Capture CaptureFacts.
Local Open Scope nat_scope.

Lemma length_subarray_le src a b : length (subarray src a b) ≤ b - a.
Proof. unfold subarray. rewrite length_take. lia. Qed.

Lemma fill_total fuel : ∀ src0 src1 read rem p out,
  ready p → read + rem = length src0 → rem ≤ fuel →
  ∃ p' new,
    fill fuel src0 src1 read rem p out = Some (p', out ++ new)
    ∧ ready p' ∧ _size p' = _size p
    ∧ Forall (full_chunk (_size p)) new
    ∧ concat (plane0 <$> new) ++ pending0 p' = pending0 p ++ drop read src0.
Proof.
  induction fuel as [|fuel IH]; intros src0 src1 read rem p out Hp Hrd Hf.
  { assert (rem = 0) as -> by lia. exists p, []. simpl.
    rewrite !drop_ge, !app_nil_r by lia. done. }
  destruct rem as [|rem'].
  { exists p, []. simpl. rewrite !drop_ge, !app_nil_r by lia. done. }
  set (rem := S rem') in *. destruct Hp as [Hs H0 H1 Hpos Hrun].
  set (n := rem `min` (_size p - _pos p)).
  assert (0 < n ∧ n ≤ rem ∧ _pos p + n ≤ _size p) as (Hn0 & Hnr & Hns)
    by (subst n rem; lia).
  assert (length (subarray src0 read (read + n)) = n) as Hl0
    by (apply length_subarray; lia).
  pose proof (length_subarray_le src1 read (read + n)) as Hl1.
  cbn [fill]. replace (rem =? 0) with false by (subst rem; done).
  fold n. rewrite !typed_set_fits by lia. rewrite Hl0.
  set (s1 := subarray src1 read (read + n)) in *.
  set (ch0 := take (_pos p) (_ch0 p) ++ _ ++ drop (_pos p + n) (_ch0 p)).
  set (ch1 := take (_pos p) (_ch1 p) ++ s1 ++ _).
  assert (length ch0 = _size p) as Hc0.
  { subst ch0. rewrite !length_app, length_take, length_drop. lia. }
  assert (length ch1 = _size p) as Hc1.
  { subst ch1. rewrite !length_app, length_take, length_drop. lia. }
  case_bool_decide as Hfull.
  - assert (_pos p + n = _size p) as Hpn by lia.
    destruct (planar_fill (_size p) ch0 ch1 Hc0 Hc1) as (pl & -> & ->).
    edestruct (IH src0 src1 (read + n) (rem - n)
      {| _size := _size p; _ch0 := Float32Array (_size p);
         _ch1 := Float32Array (_size p); _pos := 0; _stopped := _stopped p |}
      (out ++ [Pcm (_size p) (ch0 ++ ch1)]))
      as (p' & new & -> & Hp' & Hsz & Hall & He0);
      [split; simpl; rewrite ?length_Float32Array; done || lia | lia..|].
    simpl in *.
    assert (plane0 (Pcm (_size p) (ch0 ++ ch1)) = ch0) as Hpl0.
    { unfold plane0. simpl. by rewrite take_app_length'. }
    assert (plane1 (Pcm (_size p) (ch0 ++ ch1)) = ch1) as Hpl1.
    { unfold plane1. simpl. by rewrite drop_app_length'. }
    exists p', (Pcm (_size p) (ch0 ++ ch1) :: new).
    split; [by rewrite <-app_assoc|]. split; [done|]. split; [done|].
    split. { constructor; [|done]. red. rewrite Hpl0, Hpl1. done. }
    rewrite !fmap_cons. simpl. rewrite Hpl0, <-!app_assoc, He0.
    unfold pending0. simpl. subst ch0.
    rewrite !(drop_ge (_ch0 p)), !app_nil_r by lia.
    rewrite <-!app_assoc, !subarray_drop. done.
  - edestruct (IH src0 src1 (read + n) (rem - n)
      {| _size := _size p; _ch0 := ch0; _ch1 := ch1; _pos := _pos p + n;
         _stopped := _stopped p |} out)
      as (p' & new & -> & Hp' & Hsz & Hall & He0);
      [split; simpl; done || lia | lia..|].
    simpl in *. exists p', new. do 4 (split; [done|]).
    rewrite He0. unfold pending0. simpl. subst ch0.
    rewrite !app_assoc.
    rewrite !(take_app_length' _ _ (_pos p + n))
      by (rewrite length_app, length_take; lia).
    rewrite <-!app_assoc, !subarray_drop. done.
Qed.

#[local] Arguments fill : simpl never.

Lemma process_total inputs p :
  ready p →
  ∃ p' new,
    process inputs p = Some (true, p', new)
    ∧ ready p' ∧ _size p' = _size p
    ∧ Forall (full_chunk (_size p)) new
    ∧ concat (plane0 <$> new) ++ pending0 p' = pending0 p ++ input0 inputs.
Proof.
  intros Hp. unfold process. rewrite (ready_running _ Hp).
  destruct inputs as [|[|src0 more] inputs]; simpl.
  1,2: exists p, []; simpl; by rewrite !app_nil_r.
  set (src1 := match more with [] => src0 | s :: _ => s end) in *.
  destruct (fill_total (S (length src0)) src0 src1 0 (length src0) p [] Hp)
    as (p' & new & Hfill & H); [lia|lia|].
  rewrite Hfill. simpl. by exists p', new.
Qed.

Lemma worklet_run_total blocks : ∀ p,
  ready p →
  ∃ p' out,
    worklet_run blocks p = Some (p', out)
    ∧ ready p' ∧ _size p' = _size p
    ∧ Forall (full_chunk (_size p)) out
    ∧ concat (plane0 <$> out) ++ pending0 p'
      = pending0 p ++ concat (input0 <$> blocks).
Proof.
  induction blocks as [|inputs blocks IH]; intros p Hp.
  { exists p, []. simpl. by rewrite !app_nil_r. }
  destruct (process_total inputs p Hp)
    as (p1 & new & Hpr & Hp1 & Hs1 & Hall1 & He0).
  destruct (IH p1 Hp1) as (p2 & out & Hrun & Hp2 & Hs2 & Hall2 & Hf0).
  exists p2, (new ++ out). simpl. rewrite Hpr, Hrun.
  rewrite worklet_forward_id.
  split; [done|]. split; [done|]. split; [congruence|].
  split. { apply Forall_app. split; [done|]. by rewrite <-Hs1. }
  rewrite !fmap_app, !concat_app, <-!app_assoc, Hf0.
  rewrite !app_assoc, He0. done.
Qed.

Lemma process_stopped inputs p :
  process inputs (on_stop p) = Some (false, on_stop p, []).
Proof. done. Qed.

Lemma worklet_run_stopped blocks p :
  worklet_run blocks (on_stop p) = Some (on_stop p, []).
Proof.
  induction blocks as [|inputs blocks IH]; [done|].
  cbn [worklet_run]. rewrite process_stopped, IH. done.
Qed.

Lemma mono_even inputs : mono inputs → input1 inputs = input0 inputs.
Proof.
  destruct inputs as [|[|src0 more] inputs]; simpl; try done. by intros ->.
Qed.

Lemma planes_equal size : ∀ out r0 r1,
  Forall (full_chunk size) out →
  concat (plane0 <$> out) ++ r0 = concat (plane1 <$> out) ++ r1 →
  Forall (λ m, plane1 m = plane0 m) out ∧ r0 = r1.
Proof.
  induction out as [|m out IH]; intros r0 r1 Hall E.
  { by split. }
  apply Forall_cons in Hall as [(Ha & Hb & Hc & Hd) Hall].
  rewrite !fmap_cons in E. simpl in E. rewrite <-!app_assoc in E.
  apply app_inj_1 in E as [E E']; [|congruence].
  destruct (IH _ _ Hall E') as [? ?]. split; [|done]. by constructor.
Qed.

End CaptureLemmas.

Module RelayLemmas.
Import Relay RelayFacts.
Local Open Scope nat_scope.

Lemma open_on_binding w w' nm j :
  binding <$> instances w' !! j = binding <$> instances w !! j →
  open_on w' nm j ↔ open_on w nm j.
Proof.
  intros H. unfold open_on.
  destruct (instances w !! j) as [[n c a b]|], (instances w' !! j) as [[n' c' a' b']|];
    simpl in H; simplify_eq; unfold binding in *; simpl in *; simplify_eq.
  - split; intros (inst & [= <-] & ? & ?); eauto.
  - naive_solver.
Qed.

Lemma registry_ok_same w w' :
  registry w' = registry w →
  (∀ j, binding <$> instances w' !! j = binding <$> instances w !! j) →
  registry_ok w → registry_ok w'.
Proof.
  intros Hr Hb [H1 H2]. split.
  - intros nm set Hs. rewrite Hr in Hs. destruct (H1 nm set Hs) as (? & ? & Hj).
    do 2 (split; [done|]). intros j. by rewrite Hj, (open_on_binding w w').
  - intros nm j Ho. rewrite Hr. apply (H2 nm j).
    by apply (open_on_binding w w').
Qed.

Lemma new_context_ok : registry_ok new_context.
Proof.
  split.
  - intros nm set H. cbn in H. by rewrite lookup_empty in H.
  - intros nm j (inst & H & _). cbn in H. by rewrite lookup_nil in H.
Qed.

Lemma registry_ok_bound w nm set j :
  registry_ok w → registry w !! nm = Some set → j ∈ set →
  j < length (instances w).
Proof.
  intros [H1 _] Hs Hj. destruct (H1 nm set Hs) as (_ & _ & Ho).
  apply Ho in Hj as (inst & Hi & _). by eapply lookup_lt_Some.
Qed.

Lemma construct_ok nm w : registry_ok w → registry_ok (construct nm w).
Proof.
  intros Hok. pose proof Hok as [H1 H2].
  set (i := length (instances w)).
  set (inst := {| name := nm; _closed := false; _onmessage := None;
                  _onmessageerror := None |}).
  set (old := default [] (registry w !! nm)).
  assert (i ∉ old) as Hfresh.
  { unfold old. destruct (registry w !! nm) as [set|] eqn:E; simpl.
    - intros Hin. pose proof (registry_ok_bound w nm set i Hok E Hin). lia.
    - apply not_elem_of_nil. }
  assert (registry (construct nm w) = <[nm := old ++ [i]]> (registry w)
          ∧ instances (construct nm w) = instances w ++ [inst]) as [Hr Hi].
  { unfold construct. simpl. fold i inst. split; [|done].
    subst old. destruct (registry w !! nm) as [set|] eqn:E.
    - rewrite E. simpl in *. by rewrite bool_decide_false.
    - rewrite lookup_insert_eq. simpl in *.
      rewrite ?bool_decide_false by done. simpl. by rewrite insert_insert_eq. }
  assert (∀ nm' j, open_on (construct nm w) nm' j
                   ↔ open_on w nm' j ∨ (j = i ∧ nm' = nm)) as Hopen.
  { intros nm' j. unfold open_on. rewrite Hi. split.
    - intros (x & Hx & Hn & Hc).
      apply lookup_app_Some in Hx as [Hx|[Hlen Hx]]; [left; eauto|].
      right. destruct (j - length (instances w)) eqn:Ej; simpl in Hx; [|done].
      simplify_eq. split; [unfold i; lia|done].
    - intros [(x & Hx & Hn & Hc)|[-> ->]].
      + exists x. split; [|done]. by apply lookup_app_l_Some.
      + exists inst. split; [|done]. unfold i.
        by rewrite lookup_app_r, Nat.sub_diag by lia. }
  split.
  - intros nm' set Hs. rewrite Hr in Hs.
    destruct (decide (nm = nm')) as [<-|Hne].
    + rewrite lookup_insert_eq in Hs. simplify_eq.
      split; [by destruct old|]. split.
      * apply NoDup_app. split; [|split].
        -- unfold old. destruct (registry w !! nm) as [set|] eqn:E; simpl;
             [apply (H1 nm set E)|constructor].
        -- intros x Hx ->%list_elem_of_singleton. done.
        -- apply NoDup_singleton.
      * intros j. rewrite Hopen, elem_of_app, list_elem_of_singleton.
        unfold old. destruct (registry w !! nm) as [set|] eqn:E; simpl.
        -- destruct (H1 nm set E) as (_ & _ & Hj). rewrite Hj. naive_solver.
        -- rewrite elem_of_nil. split; [naive_solver|].
           intros [Ho|?]; [|naive_solver].
           destruct (H2 nm j Ho) as [? ?]. congruence.
    + rewrite lookup_insert_ne in Hs by done.
      destruct (H1 nm' set Hs) as (? & ? & Hj). do 2 (split; [done|]).
      intros j. rewrite Hopen, Hj. naive_solver.
  - intros nm' j Ho. rewrite Hr. apply Hopen in Ho as [Ho|[-> ->]].
    + destruct (decide (nm = nm')) as [<-|Hne].
      * rewrite lookup_insert_eq. by eexists.
      * rewrite lookup_insert_ne by done. by eapply H2.
    + rewrite lookup_insert_eq. by eexists.
Qed.


Lemma close_ok i w : registry_ok w → registry_ok (close i w).
Proof.
  intros Hok. pose proof Hok as [H1 H2]. unfold close.
  destruct (instances w !! i) as [inst|] eqn:Hi; [|done].
  destruct (_closed inst) eqn:Hc; [done|].
  set (inst' := {| name := name inst; _closed := true;
                   _onmessage := _onmessage inst;
                   _onmessageerror := _onmessageerror inst |}).
  assert (open_on w (name inst) i) as Hopen_i by (by exists inst).
  destruct (H2 _ _ Hopen_i) as [set Hset]. simpl. rewrite Hset.
  destruct (H1 _ _ Hset) as (Hne & Hnd & Hmem).
  set (set' := filter (λ j, j ≠ i) set).
  assert (∀ nm j, open_on
            (set_registry
               (if bool_decide (length set' = 0)
                then delete (name inst) (<[name inst:=set']> (registry w))
                else <[name inst:=set']> (registry w))
               (set_instances (<[i:=inst']> (instances w)) w)) nm j
          ↔ open_on w nm j ∧ j ≠ i) as Hopen.
  { intros nm j. unfold open_on. simpl. destruct (decide (j = i)) as [->|Hji].
    - rewrite list_lookup_insert_eq by (by eapply lookup_lt_Some).
      split; [intros (x & [= <-] & _ & ?); done|naive_solver].
    - rewrite list_lookup_insert_ne by done. naive_solver. }
  assert (∀ j, j ∈ set' ↔ open_on w (name inst) j ∧ j ≠ i) as Hmem'.
  { intros j. unfold set'. rewrite list_elem_of_filter, Hmem. naive_solver. }
  split.
  - intros nm s Hs. simpl in Hs.
    destruct (decide (nm = name inst)) as [->|Hnm].
    + case_bool_decide as Hlen.
      * rewrite lookup_delete_eq in Hs. done.
      * rewrite lookup_insert_eq in Hs. simplify_eq.
        split; [intros E; by rewrite E in Hlen|].
        split; [by apply NoDup_filter|].
        intros j. by rewrite Hopen, Hmem'.
    + assert (registry w !! nm = Some s) as Hs'.
      { case_bool_decide.
        - by rewrite lookup_delete_ne, lookup_insert_ne in Hs.
        - by rewrite lookup_insert_ne in Hs. }
      destruct (H1 _ _ Hs') as (? & ? & Hj). do 2 (split; [done|]).
      intros j. rewrite Hopen, Hj. split; [|naive_solver].
      intros Ho. split; [done|]. intros ->.
      destruct Ho as (x & Hx & Hn & _). congruence.
  - intros nm j Ho. apply Hopen in Ho as [Ho Hji]. simpl.
    destruct (decide (nm = name inst)) as [->|Hnm].
    + assert (j ∈ set') as Hin by (by apply Hmem').
      rewrite bool_decide_false.
      * rewrite lookup_insert_eq. by eexists.
      * intros Hlen. apply nil_length_inv in Hlen. rewrite Hlen in Hin.
        by apply elem_of_nil in Hin.
    + case_bool_decide.
      * rewrite lookup_delete_ne, lookup_insert_ne by done. by eapply H2.
      * rewrite lookup_insert_ne by done. by eapply H2.
Qed.

Lemma postMessage_registry i m w :
  registry (state_of (postMessage i m w)) = registry w.
Proof.
  unfold postMessage. destruct (instances w !! i) as [inst|]; [|done].
  destruct (_closed inst); [done|].
  destruct (structuredClone m (next_addr w)) as [[cloned n]|]; [|done].
  cbn [registry set_next_addr].
  assert (∀ r : outcome Context,
    registry (state_of r) = registry w →
    registry (state_of match r with
                       | Thrown e w0 => Thrown e w0
                       | Returned w0 =>
                           match ipc_send (name inst) cloned w0 with
                           | Returned w1 | Thrown _ w1 => Returned w1
                           end
                       end) = registry w) as Hk.
  { intros [w0|e w0]; simpl; [|done]. unfold ipc_send.
    by destruct (ipc_serializable cloned). }
  apply Hk. destruct (registry w !! name inst) as [set|]; [|done].
  by destruct (fan_out_frame (Some i) set cloned (set_next_addr n w)) as (? & _).
Qed.

Lemma on_message_registry channel payload w :
  registry (state_of (on_broadcast_channel_message channel payload w))
  = registry w.
Proof.
  unfold on_broadcast_channel_message.
  destruct (structuredClone payload (next_addr w)) as [[msg n]|]; [|done].
  cbn [registry set_next_addr].
  destruct (registry w !! channel) as [set|]; [|done].
  by destruct (fan_out_frame None set msg (set_next_addr n w)) as (? & _).
Qed.

Lemma step_registry_ok w a : registry_ok w → registry_ok (step w a).
Proof.
  intros Hok. destruct a as [nm|j m|j|j fn|j fn| |channel payload]; cbn [step].
  - by apply construct_ok.
  - apply (registry_ok_same w); [apply postMessage_registry| |done].
    intros k. by destruct (postMessage_frame j m w) as [-> _].
  - by apply close_ok.
  - apply (registry_ok_same w); [| |done]; unfold set_onmessage;
      destruct (instances w !! j) as [inst|] eqn:Hj; try done.
    intros k. simpl. destruct (decide (j = k)) as [->|Hne].
    + rewrite list_lookup_insert_eq by (by eapply lookup_lt_Some).
      by rewrite Hj.
    + by rewrite list_lookup_insert_ne.
  - apply (registry_ok_same w); [| |done]; unfold set_onmessageerror;
      destruct (instances w !! j) as [inst|] eqn:Hj; try done.
    intros k. simpl. destruct (decide (j = k)) as [->|Hne].
    + rewrite list_lookup_insert_eq by (by eapply lookup_lt_Some).
      by rewrite Hj.
    + by rewrite list_lookup_insert_ne.
  - destruct (microtasks w) as [|[j d] rest]; [done|].
    apply (registry_ok_same w); [| |done]; unfold run_dispatch; simpl;
      destruct (instances w !! j) as [inst|]; try done;
      by destruct (_closed inst).
  - apply (registry_ok_same w); [apply on_message_registry| |done].
    intros k. by destruct (on_message_frame channel payload w) as [-> _].
Qed.

Lemma run_registry_ok w evs : registry_ok w → registry_ok (run w evs).
Proof.
  revert w. induction evs as [|a evs IH]; intros w Hw; [done|].
  simpl. apply IH. by apply step_registry_ok.
Qed.


Lemma open_on_is_closed w nm j : open_on w nm j → is_closed w j = false.
Proof. intros (inst & Hj & _ & Hc). unfold is_closed. by rewrite Hj. Qed.

Lemma open_targets_spec w nm :
  registry_ok w →
  NoDup (open_targets nm w) ∧ ∀ j, j ∈ open_targets nm w ↔ open_on w nm j.
Proof.
  intros [H1 H2]. unfold open_targets.
  destruct (registry w !! nm) as [set|] eqn:E; simpl.
  - destruct (H1 _ _ E) as (_ & Hnd & Hmem). split; [by apply NoDup_filter|].
    intros j. rewrite list_elem_of_filter, Hmem.
    split; [tauto|]. intros Ho. split; [|done]. by eapply open_on_is_closed.
  - split; [constructor|]. intros j. rewrite filter_nil. split.
    + intros H. by apply elem_of_nil in H.
    + intros Ho. destruct (H2 _ _ Ho) as [? ?]. congruence.
Qed.

Lemma local_targets_spec w i nm :
  registry_ok w →
  NoDup (local_targets i nm w)
  ∧ ∀ j, j ∈ local_targets i nm w ↔ j ≠ i ∧ open_on w nm j.
Proof.
  intros [H1 H2]. unfold local_targets.
  destruct (registry w !! nm) as [set|] eqn:E; simpl.
  - destruct (H1 _ _ E) as (_ & Hnd & Hmem). split; [by apply NoDup_filter|].
    intros j. rewrite list_elem_of_filter, Hmem.
    split; [tauto|]. intros [? Ho]. split; [|done]. split; [done|].
    by eapply open_on_is_closed.
  - split; [constructor|]. intros j. rewrite filter_nil. split.
    + intros H. by apply elem_of_nil in H.
    + intros [_ Ho]. destruct (H2 _ _ Ho) as [? ?]. congruence.
Qed.

Lemma drain_microtasks : ∀ w,
  let w' := run w (replicate (length (microtasks w)) Microtask) in
  microtasks w' = []
  ∧ delivered w'
    = delivered w ++ omap (delivery_of (instances w)) (microtasks w)
  ∧ instances w' = instances w ∧ registry w' = registry w
  ∧ sent w' = sent w ∧ next_addr w' = next_addr w.
Proof.
  intros w. remember (microtasks w) as q eqn:Hq. revert w Hq.
  induction q as [|[j d] q IH]; intros w Hq; simpl.
  { rewrite app_nil_r. by rewrite <-Hq. }
  rewrite <-Hq.
  set (w1 := run_dispatch j d (set_microtasks q w)).
  assert (microtasks w1 = q ∧ instances w1 = instances w
          ∧ registry w1 = registry w ∧ sent w1 = sent w
          ∧ next_addr w1 = next_addr w
          ∧ delivered w1
            = delivered w ++ option_list (delivery_of (instances w) (j, d)))
    as (Hm & Hi & Hr & Hs & Hn & Hd).
  { unfold w1, run_dispatch, delivery_of. simpl.
    destruct (instances w !! j) as [inst|]; simpl;
      [destruct (_closed inst)|]; simpl; by rewrite ?app_nil_r. }
  specialize (IH w1 (eq_sym Hm)). simpl in IH.
  change (foldl step w1 (replicate (length q) Microtask))
    with (run w1 (replicate (length q) Microtask)).
  destruct IH as (H1 & H2 & H3 & H4 & H5 & H6).
  rewrite H1, H2, H3, H4, H5, H6, Hd, Hi, Hr, Hs, Hn, <-app_assoc.
  do 2 (split; [try done|]); [|done].
  f_equal. by destruct (delivery_of (instances w) (j, d)).
Qed.

Lemma received_app i w l :
  ev_data <$> filter (λ d, target d = i) (delivered w ++ l)
  = received i w ++ (ev_data <$> filter (λ d, target d = i) l).
Proof. unfold received. by rewrite filter_app, fmap_app. Qed.

Lemma received_new insts i : ∀ new : list (nat * value),
  NoDup new.*1 →
  (∀ j, j ∈ new.*1 → ∃ inst, insts !! j = Some inst ∧ _closed inst = false) →
  (i ∉ new.*1 →
     ev_data <$> filter (λ d, target d = i) (omap (delivery_of insts) new) = [])
  ∧ (i ∈ new.*1 →
     ∃ d, (i, d) ∈ new
       ∧ ev_data <$> filter (λ d, target d = i) (omap (delivery_of insts) new)
         = [d]).
Proof.
  induction new as [|[j d] new IH]; intros Hnd Hopen.
  { split; [done|]. intros H. by apply elem_of_nil in H. }
  rewrite fmap_cons in Hnd. apply NoDup_cons in Hnd as [Hj Hnd]. simpl in Hj.
  destruct (Hopen j) as (inst & Hi & Hc); [rewrite fmap_cons; left|].
  destruct (IH Hnd) as [IH1 IH2].
  { intros k Hk. apply Hopen. rewrite fmap_cons. by right. }
  assert (delivery_of insts (j, d) = Some (Delivery j d (_onmessage inst)))
    as Hdel by (unfold delivery_of; simpl; by rewrite Hi, Hc).
  cbn [omap list_omap]. rewrite Hdel.
  rewrite !filter_cons. simpl.
  destruct (decide (j = i)) as [->|Hne].
  - split; [intros H; exfalso; apply H; left|].
    intros _. exists d. split; [left|]. rewrite fmap_cons. simpl.
    f_equal. by apply IH1.
  - split.
    + intros H. apply IH1. intros H'. apply H. by right.
    + intros H. apply elem_of_cons in H as [->|H]; [done|].
      destruct (IH2 H) as (d' & Hd' & ->). exists d'. split; [by right|done].
Qed.


Lemma clone_cloneable v : ∀ n v' n',
  structuredClone v n = Some (v', n') → cloneable v' = true.
Proof.
  induction v using value_rect'; intros n0 v' n' Hc.
  1-5: simpl in Hc; by simplify_eq.
  - rewrite structuredClone_arr in Hc.
    destruct (clone_elems vs (S n0)) as [[vs' n1]|] eqn:E; [|done].
    simplify_eq. simpl. revert vs' n' E. generalize (S n0).
    induction H as [|x vs Hx _ IH]; intros n1 vs' n2 E; simpl in E.
    { by simplify_eq. }
    destruct (structuredClone x n1) as [[x' n3]|] eqn:E1; [|done].
    destruct (clone_elems vs n3) as [[l' n4]|] eqn:E2; [|done].
    simplify_eq. simpl. rewrite (Hx _ _ _ E1). simpl. by eapply IH.
  - rewrite structuredClone_obj in Hc.
    destruct (clone_fields fs (S n0)) as [[fs' n1]|] eqn:E; [|done].
    simplify_eq. simpl. revert fs' n' E. generalize (S n0).
    induction H as [|[k x] fs Hx _ IH]; intros n1 fs' n2 E; simpl in E.
    { by simplify_eq. }
    destruct (structuredClone x n1) as [[x' n3]|] eqn:E1; [|done].
    destruct (clone_fields fs n3) as [[l' n4]|] eqn:E2; [|done].
    simplify_eq. simpl in *. rewrite (Hx _ _ _ E1). simpl. by eapply IH.
  - done.
  - simpl in Hc. destruct (serializable kind) eqn:Hk; [|done].
    by simplify_eq.
Qed.

Lemma clone_source_cloneable v n :
  is_Some (structuredClone v n) → cloneable v = true.
Proof.
  intros [[v' n'] Hc].
  destruct (structuredClone_ok v _ _ _ Hc) as (He & _).
  rewrite <-cloneable_erase, <-He, cloneable_erase.
  by eapply clone_cloneable.
Qed.

Lemma postMessage_thrown i m w e w' :
  postMessage i m w = Thrown e w' →
  w' = w
  ∧ (instances w !! i = None ∨ is_closed w i = true ∨ cloneable m = false).
Proof.
  unfold postMessage, is_closed.
  destruct (instances w !! i) as [inst|]; [|intros [= _ <-]; auto].
  destruct (_closed inst); [intros [= _ <-]; auto|].
  destruct (structuredClone m (next_addr w)) as [[cloned n]|] eqn:E.
  - pose proof (clone_cloneable _ _ _ _ E) as Hcl. cbn zeta.
    destruct (registry (set_next_addr n w) !! name inst) as [set|].
    + destruct (fan_out_spec (Some i) set cloned Hcl (set_next_addr n w))
        as (w1 & new & -> & _).
      unfold ipc_send; by destruct (ipc_serializable cloned).
    + unfold ipc_send; by destruct (ipc_serializable cloned).
  - intros [= _ <-]. split; [done|]. do 2 right.
    destruct (cloneable m) eqn:Hm; [|done].
    destruct (structuredClone_total m Hm (next_addr w)) as [? ?]. congruence.
Qed.

Lemma step_delivered w a :
  a ≠ Microtask → delivered (step w a) = delivered w.
Proof.
  intros Ha. destruct a as [nm|j m|j|j fn|j fn| |channel payload];
    cbn [step]; try done.
  - by destruct (postMessage_frame j m w) as [_ ->].
  - unfold close. destruct (instances w !! j) as [inst|]; [|done].
    destruct (_closed inst); [done|]. simpl.
    by destruct (registry w !! name inst).
  - unfold set_onmessage. by destruct (instances w !! j).
  - unfold set_onmessageerror. by destruct (instances w !! j).
  - by destruct (on_message_frame channel payload w) as [_ ->].
Qed.

Lemma step_sent w a :
  (∀ i m, a ≠ Post i m) → sent (step w a) = sent w.
Proof.
  intros Ha. destruct a as [nm|j m|j|j fn|j fn| |channel payload];
    cbn [step]; try done.
  - by destruct (Ha j m).
  - unfold close. destruct (instances w !! j) as [inst|]; [|done].
    destruct (_closed inst); [done|]. simpl.
    by destruct (registry w !! name inst).
  - unfold set_onmessage. by destruct (instances w !! j).
  - unfold set_onmessageerror. by destruct (instances w !! j).
  - destruct (microtasks w) as [|[j d] rest]; [done|].
    unfold run_dispatch. simpl. destruct (instances w !! j) as [inst|]; [|done].
    by destruct (_closed inst).
  - unfold on_broadcast_channel_message.
    destruct (structuredClone payload (next_addr w)) as [[msg n]|]; [|done].
    cbn zeta. destruct (registry (set_next_addr n w) !! channel); [|done].
    by destruct (fan_out_frame None l msg (set_next_addr n w)) as (_ & _ & -> & _).
Qed.

Lemma publish_delivers_once_lemma w i inst m :
  registry_ok w → microtasks w = [] →
  instances w !! i = Some inst → _closed inst = false → cloneable m = true →
  let w1 := step w (Post i m) in
  let w2 := run w1 (replicate (length (microtasks w1)) Microtask) in
  microtasks w2 = []
  ∧ ∀ j,
      (j ≠ i ∧ open_on w (name inst) j →
         ∃ d, received j w2 = received j w ++ [d] ∧ deep_equal d m)
      ∧ (¬ (j ≠ i ∧ open_on w (name inst) j) → received j w2 = received j w).
Proof.
  intros Hok Hq Hi Hc Hm w1 w2.
  destruct (postMessage_spec w i inst m Hi Hc Hm)
    as (w' & new & Hp & Hmt & Ht & Hall & _ & _).
  assert (w1 = w') as Hw1 by (unfold w1; cbn [step]; by rewrite Hp).
  destruct (postMessage_frame i m w) as [Hinst Hdel].
  fold (step w (Post i m)) in Hinst, Hdel. fold w1 in Hinst, Hdel.
  destruct (drain_microtasks w1) as (Hq2 & Hd2 & _). fold w2 in Hq2, Hd2.
  split; [done|]. intros j.
  destruct (local_targets_spec w i (name inst) Hok) as [Hnd Hmem].
  rewrite Hw1, Hmt, Hq in Hd2. simpl in Hd2. rewrite <-Hw1, Hinst, Hdel in Hd2.
  destruct (received_new (instances w) j new) as [Hn1 Hn2].
  { by rewrite Ht. }
  { intros k Hk. rewrite Ht in Hk. apply Hmem in Hk as [_ (x & ? & _ & ?)].
    by exists x. }
  unfold received at 1 3. rewrite Hd2, received_app. rewrite <-Hmem, <-Ht.
  split.
  - intros Hj. destruct (Hn2 Hj) as (d & Hd & ->). exists d. split; [done|].
    rewrite Forall_forall in Hall. apply (Hall d).
    apply list_elem_of_fmap. by exists (j, d).
  - intros Hj. rewrite (Hn1 Hj). by rewrite app_nil_r.
Qed.


Lemma receive_delivers_once_lemma w channel payload :
  registry_ok w → microtasks w = [] → cloneable payload = true →
  let w1 := step w (IpcMessage channel payload) in
  let w2 := run w1 (replicate (length (microtasks w1)) Microtask) in
  microtasks w2 = [] ∧ sent w2 = sent w
  ∧ ∀ j,
      (open_on w channel j →
         ∃ d, received j w2 = received j w ++ [d] ∧ deep_equal d payload)
      ∧ (¬ open_on w channel j → received j w2 = received j w).
Proof.
  intros Hok Hq Hm w1 w2.
  destruct (on_message_spec w channel payload Hm)
    as (w' & new & Hp & Hmt & Ht & Hall & _ & Hs).
  assert (w1 = w') as Hw1 by (unfold w1; cbn [step]; by rewrite Hp).
  destruct (on_message_frame channel payload w) as [Hinst Hdel].
  fold (step w (IpcMessage channel payload)) in Hinst, Hdel.
  fold w1 in Hinst, Hdel.
  destruct (drain_microtasks w1) as (Hq2 & Hd2 & _ & _ & Hs2 & _).
  fold w2 in Hq2, Hd2, Hs2.
  split; [done|]. split; [by rewrite Hs2, Hw1|]. intros j.
  destruct (open_targets_spec w channel Hok) as [Hnd Hmem].
  rewrite Hw1, Hmt, Hq in Hd2. simpl in Hd2. rewrite <-Hw1, Hinst, Hdel in Hd2.
  destruct (received_new (instances w) j new) as [Hn1 Hn2].
  { by rewrite Ht. }
  { intros k Hk. rewrite Ht in Hk. apply Hmem in Hk as (x & ? & _ & ?).
    by exists x. }
  unfold received at 1 3. rewrite Hd2, received_app. rewrite <-Hmem, <-Ht.
  split.
  - intros Hj. destruct (Hn2 Hj) as (d & Hd & ->). exists d. split; [done|].
    rewrite Forall_forall in Hall. apply (Hall d).
    apply list_elem_of_fmap. by exists (j, d).
  - intros Hj. rewrite (Hn1 Hj). by rewrite app_nil_r.
Qed.

End RelayLemmas.

Module MainFacts.
Import Main.
Local Open Scope nat_scope.

Lemma length_Buffer_from float32 planar :
  (∀ s, length (float32 s) = 4) →
  length (Buffer_from float32 planar) = 4 * length planar.
Proof.
  intros H. unfold Buffer_from.
  induction planar as [|s planar IH]; [done|].
  rewrite fmap_cons. cbn [concat]. rewrite length_app, H, IH. simpl. lia.
Qed.

(** The router leaves the Map's keys and order alone and touches nothing
    but the incoming messages of the renderers. *)
Lemma router_lookup senderId payload ws k key d :
  ws !! k = Some (key, d) →
  ipc_broadcast_channel_message senderId payload ws !! k
  = Some (key,
          if negb (isDestroyed d) && bool_decide (webContents_id d ≠ senderId)
          then webContents_send payload d else d).
Proof.
  intros H. unfold ipc_broadcast_channel_message.
  rewrite list_lookup_fmap, H. simpl.
  by destruct (negb (isDestroyed d) && bool_decide (webContents_id d ≠ senderId)).
Qed.

Lemma audio_route e senderId n buf : ∀ ws k key d,
  ws !! k = Some (key, d) →
  isDestroyed d = false → webContents_id d = senderId →
  (∀ k' key' d', k' < k → ws !! k' = Some (key', d') →
     isDestroyed d' = true ∨ webContents_id d' ≠ senderId) →
  ipc_audio_pcm_data e senderId n buf ws
  = <[k := (key, if ndiActive d
                 then set_ndiManager
                        (Ndi.pushAudio e buf n (ndiManager d)) d
                 else d)]> ws.
Proof.
  induction ws as [|[key0 d0] ws IH]; intros k key d Hk Hlive Hid Hfirst.
  { done. }
  destruct k as [|k]; simpl in Hk.
  - simplify_eq. cbn [ipc_audio_pcm_data]. rewrite Hlive.
    rewrite bool_decide_true by done. done.
  - cbn [ipc_audio_pcm_data].
    destruct (Hfirst 0 key0 d0) as [Hd|Hd]; [lia|done| |].
    + rewrite Hd. simpl. f_equal. eapply IH; try done.
      intros k' key' d' Hlt Hk'. apply (Hfirst (S k') key' d'); [lia|done].
    + rewrite (bool_decide_false _ Hd), andb_false_r. simpl. f_equal.
      eapply IH; try done.
      intros k' key' d' Hlt Hk'. apply (Hfirst (S k') key' d'); [lia|done].
Qed.

Lemma audio_no_route e senderId n buf : ∀ ws,
  Forall (λ kd : Z * BrowserWindowData,
            isDestroyed kd.2 = true ∨ webContents_id kd.2 ≠ senderId) ws →
  ipc_audio_pcm_data e senderId n buf ws = ws.
Proof.
  induction 1 as [|[key d] ws [Hd|Hd] _ IH]; [done|..];
    cbn [ipc_audio_pcm_data]; simpl in Hd.
  - rewrite Hd. simpl. by rewrite IH.
  - rewrite (bool_decide_false _ Hd), andb_false_r. by rewrite IH.
Qed.


Import Relay RelayFacts RelayLemmas.

Lemma relay_across_windows_lemma ws a ka da i inst m :
  ws !! a = Some (ka, da) →
  instances (page da) !! i = Some inst → _closed inst = false →
  json m = true →
  let payload := (name inst, erase m) in
  let da' := set_page (step (page da) (Post i m)) da in
  let ws' :=
    ipc_broadcast_channel_message (webContents_id da) payload
      (<[a := (ka, da')]> ws) in
  sent (page da') = sent (page da) ++ [payload]
  ∧ ws' !! a = Some (ka, da')
  ∧ ∀ b kb db,
      ws !! b = Some (kb, db) → b ≠ a →
      (isDestroyed db = true ∨ webContents_id db = webContents_id da →
         ws' !! b = Some (kb, db))
      ∧ (isDestroyed db = false → webContents_id db ≠ webContents_id da →
         registry_ok (page db) → ipc_in db = [] → microtasks (page db) = [] →
         ∃ db',
           ws' !! b = Some (kb, db') ∧ ipc_in db' = [payload]
           ∧ ipc_in (renderer_turn db') = []
           ∧ sent (drain (page (renderer_turn db'))) = sent (page db)
           ∧ ∀ j,
               (open_on (page db) (name inst) j →
                  ∃ d, received j (drain (page (renderer_turn db')))
                       = received j (page db) ++ [d]
                    ∧ deep_equal d m)
               ∧ (¬ open_on (page db) (name inst) j →
                  received j (drain (page (renderer_turn db')))
                  = received j (page db))).
Proof.
  intros Ha Hi Hc Hj payload da' ws'.
  pose proof (json_cloneable m Hj) as Hcl.
  pose proof (json_ipc_serializable m Hj) as Hser.
  destruct (postMessage_spec (page da) i inst m Hi Hc Hcl)
    as (w' & new & Hp & _ & _ & _ & _ & Hs).
  rewrite Hser in Hs.
  split. { unfold da'. cbn [page set_page step]. by rewrite Hp. }
  assert (a < length ws) as Hlt by (by eapply lookup_lt_Some).
  split.
  { unfold ws'. erewrite router_lookup
      by (by rewrite list_lookup_insert_eq).
    unfold isDestroyed, da'. simpl.
    rewrite (bool_decide_false (webContents_id da ≠ webContents_id da))
      by (intros H; by apply H).
    by rewrite andb_false_r. }
  intros b kb db Hb Hne.
  assert (ws' !! b
          = Some (kb, if negb (isDestroyed db)
                         && bool_decide (webContents_id db ≠ webContents_id da)
                      then webContents_send payload db else db)) as Hb'.
  { unfold ws'. apply router_lookup. by rewrite list_lookup_insert_ne. }
  split.
  - intros [Hd|Hd].
    + by rewrite Hb', Hd.
    + rewrite Hb', (bool_decide_false _ (λ H, H Hd)). by rewrite andb_false_r.
  - intros Hd Hid Hok Hin Hq.
    rewrite Hd, (bool_decide_true _ Hid) in Hb'. simpl in Hb'.
    eexists. split; [exact Hb'|].
    unfold webContents_send, renderer_turn. simpl. rewrite Hin. simpl.
    split; [done|]. split; [done|].
    assert (cloneable (erase m) = true) as Hcl'
      by (by rewrite cloneable_erase).
    destruct (receive_delivers_once_lemma (page db) (name inst) (erase m)
                Hok Hq Hcl') as (_ & Hsent & Hrec).
    split; [exact Hsent|].
    intros j. destruct (Hrec j) as [H1 H2]. split; [|exact H2].
    intros Ho. destruct (H1 Ho) as (d & Hr & He). exists d. split; [exact Hr|].
    unfold deep_equal in *. rewrite He.
    clear. induction m using value_rect'; simpl; try done.
    + f_equal. induction H as [|x vs Hx _ IH]; simpl; [done|].
      by rewrite Hx, IH.
    + f_equal. induction H as [|[k x] fs Hx _ IH]; simpl; [done|].
      simpl in Hx. by rewrite Hx, IH.
Qed.


Lemma audio_chunk_to_frame_lemma float32 e ws k key d m size id g evs :
  (∀ s, length (float32 s) = 4) →
  ws !! k = Some (key, d) → isDestroyed d = false → ndiActive d = true →
  (∀ k' key' d', k' < k → ws !! k' = Some (key', d') →
     isDestroyed d' = true ∨ webContents_id d' ≠ webContents_id d) →
  Capture.full_chunk size m →
  ndiManager d = Ndi.run (Ndi.new_world id g) evs →
  Ndi.accepts (ndiManager d) →
  Ndi._audioDraining (Ndi.this (ndiManager d)) = false →
  ∃ mgr h f,
    ipc_audio_pcm_data e (webContents_id d) (Z.of_nat (Capture.noSamples m))
      (Buffer_from float32 (Capture.planarBuf m)) ws
    = <[k := (key, set_ndiManager mgr d)]> ws
    ∧ Ndi.sender (Ndi.this (ndiManager d)) = Some h
    ∧ Ndi.calls mgr = Ndi.calls (ndiManager d) ++ [Ndi.Audio h f]
    ∧ Ndi.a_noSamples f = Z.of_nat size
    ∧ Ndi.channelStrideBytes f = (Z.of_nat size * 4)%Z
    ∧ Ndi.sampleRate f = 48000%Z ∧ Ndi.noChannels f = 2%Z
    ∧ Z.of_nat (length (Ndi.a_data f))
      = (Ndi.noChannels f * Ndi.channelStrideBytes f)%Z.
Proof.
  intros H4 Hk Hlive Hact Hfirst (Hn & H0 & H1 & Hpl) Hreach Hacc Hdr.
  assert (Ndi.Inv (ndiManager d)) as HI
    by (rewrite Hreach; apply NdiFacts.reachable_inv).
  destruct (NdiLemmas.reachable_audio_format id g evs) as [Hsr Hch].
  rewrite <-Hreach in Hsr, Hch.
  destruct (NdiLemmas.pushAudio_sends (ndiManager d) e
              (Buffer_from float32 (Capture.planarBuf m))
              (Z.of_nat (Capture.noSamples m)) HI Hacc Hdr)
    as (h & f & Hs & Hcalls & Hdata & Hns & Hstride & Hrate & Hchan & _).
  eexists _, h, f. split.
  { rewrite (audio_route e _ _ _ ws k key d Hk Hlive eq_refl Hfirst).
    by rewrite Hact. }
  split; [done|]. split; [done|]. rewrite Hns, Hstride, Hrate, Hchan, Hn.
  do 4 (split; [done|]).
  rewrite Hdata, length_Buffer_from, Hpl, length_app, H0, H1, Hch by done.
  lia.
Qed.

End MainFacts.

(** * The properties of the design document: the NDI sender *)

Module NdiClaims.
Import Ndi NdiFacts.

Lemma drains_bound w :
  Inv w →
  (length (drains w) ≤ 1)%nat ∧ (length (audio_in_flight w) ≤ 1)%nat
  ∧ (_audioDraining (this w) = true ↔ drains w ≠ []).
Proof.
  intros [_ _ _ I4 _ _]. unfold audio_in_flight. rewrite length_map.
  destruct (_audioDraining (this w)).
  - destruct I4 as [t ->]. simpl. split; [lia|]. split; [lia|]. done.
  - rewrite I4. simpl. split; [lia|]. split; [lia|]. done.
Qed.

Lemma push_while_draining w e buf n :
  accepts w → _audioDraining (this w) = true →
  drains (pushAudio e buf n w) = drains w
  ∧ calls (pushAudio e buf n w) = calls w.
Proof.
  intros (Hr & Ha & [h Hs]) Hd. split_world w. simpl in *. subst.
  by ndi_paths.
Qed.

Lemma push_restarts w e buf n :
  Inv w → accepts w → _audioDraining (this w) = false →
  let w' := pushAudio e buf n w in
  drains w' = [DrainAwaitAudio (Chunk buf n)]
  ∧ _audioDraining (this w') = true
  ∧ _audioQueue (this w') = []
  ∧ audio_chunks (calls w') = audio_chunks (calls w) ++ [Chunk buf n].
Proof.
  intros [I1 I2 I3 I4 I5 I6] (Hr & Ha & [h Hs]) Hd.
  split_world w. simpl in *. subst.
  destruct _audioQueue0 as [|c q]; [|by specialize (I3 ltac:(done))].
  ndi_paths; bools; simpl in *; simplify_eq; try lia.
  by rewrite audio_chunks_app.
Qed.

Lemma drain_exits w e k ok c :
  Inv w → drains w !! k = Some (DrainAwaitAudio c) →
  _audioQueue (this w) = [] →
  let w' := step w (e, AudioDone k ok) in
  drains w' = [] ∧ _audioDraining (this w') = false ∧ calls w' = calls w.
Proof.
  intros [I1 I2 I3 I4 I5 I6] Hk Hq. split_world w. simpl in *. subst.
  destruct _audioDraining0; [destruct I4 as [t ->]|by subst].
  destruct k; [|done]. simplify_eq/=. by ndi_paths.
Qed.

Lemma drain_continues w e k ok c c' rest :
  Inv w → drains w !! k = Some (DrainAwaitAudio c) →
  _audioQueue (this w) = c' :: rest →
  let w' := step w (e, AudioDone k ok) in
  drains w' = [DrainAwaitAudio c'] ∧ _audioDraining (this w') = true
  ∧ _audioQueue (this w') = rest
  ∧ audio_chunks (calls w') = audio_chunks (calls w) ++ [c'].
Proof.
  intros [I1 I2 I3 I4 I5 I6] Hk Hq. split_world w. simpl in *. subst.
  specialize (I3 ltac:(done)). subst.
  destruct I4 as [t ->]. destruct k; [|done]. simplify_eq/=.
  destruct running0; [|by specialize (I1 eq_refl)].
  destruct (I2 eq_refl) as [h ->]. destruct c'.
  ndi_paths; by rewrite audio_chunks_app.
Qed.

(** C2 (claim about the AudioQueue bound): along every run from the
    constructor the queue never holds more than 8 chunks; a push that finds 8
    drops the head and appends at the tail; and 9 pushes in a row onto an
    empty queue leave chunks 2 to 9. *)
Theorem audio_queue_bounded id g evs :
  let w := run (new_world id g) evs in
  (length (_audioQueue (this w)) ≤ 8)%nat
  ∧ (∀ e buf n,
       accepts w → length (_audioQueue (this w)) = 8%nat →
       _audioQueue (this (step w (e, CallPushAudio buf n)))
       = tail (_audioQueue (this w)) ++ [Chunk buf n])
  ∧ (∀ e1 e2 e3 e4 e5 e6 e7 e8 e9 c1 c2 c3 c4 c5 c6 c7 c8 c9,
       accepts w → _audioQueue (this w) = [] →
       _audioQueue (this (run w
         [(e1, CallPushAudio (data c1) (noSamples c1));
          (e2, CallPushAudio (data c2) (noSamples c2));
          (e3, CallPushAudio (data c3) (noSamples c3));
          (e4, CallPushAudio (data c4) (noSamples c4));
          (e5, CallPushAudio (data c5) (noSamples c5));
          (e6, CallPushAudio (data c6) (noSamples c6));
          (e7, CallPushAudio (data c7) (noSamples c7));
          (e8, CallPushAudio (data c8) (noSamples c8));
          (e9, CallPushAudio (data c9) (noSamples c9))]))
       = [c2; c3; c4; c5; c6; c7; c8; c9]).
Proof.
  intros w. pose proof (reachable_inv id g evs) as HI. fold w in HI.
  split; [apply HI|]. split.
  - intros e buf n Ha Hl. by apply pushAudio_full.
  - intros. by apply nine_pushes.
Qed.

(** C3 (claim about the drain): along every run from the constructor at most
    one drain is parked, so at most one audio send is in flight; the flag
    [_audioDraining] is set exactly while a drain is parked, and a push made
    meanwhile starts nothing; the chunks sent are, in order, a subsequence of
    the chunks pushed; when a send settles the drain takes the head of the
    queue for its next send, or, the queue being empty, ends and clears the
    flag; and a push made after that starts a drain again. *)
Theorem audio_drain_single_flight id g evs :
  let w := run (new_world id g) evs in
  (length (drains w) ≤ 1)%nat
  ∧ (length (audio_in_flight w) ≤ 1)%nat
  ∧ (_audioDraining (this w) = true ↔ drains w ≠ [])
  ∧ audio_chunks (calls w) ++ _audioQueue (this w) `sublist_of` pushed evs
  ∧ (∀ e buf n,
       accepts w → _audioDraining (this w) = true →
       let w' := step w (e, CallPushAudio buf n) in
       drains w' = drains w ∧ calls w' = calls w)
  ∧ (∀ e k ok c c' rest,
       drains w !! k = Some (DrainAwaitAudio c) →
       _audioQueue (this w) = c' :: rest →
       let w' := step w (e, AudioDone k ok) in
       drains w' = [DrainAwaitAudio c'] ∧ _audioDraining (this w') = true
       ∧ _audioQueue (this w') = rest
       ∧ audio_chunks (calls w') = audio_chunks (calls w) ++ [c'])
  ∧ (∀ e k ok c,
       drains w !! k = Some (DrainAwaitAudio c) → _audioQueue (this w) = [] →
       let w' := step w (e, AudioDone k ok) in
       drains w' = [] ∧ _audioDraining (this w') = false
       ∧ calls w' = calls w)
  ∧ (∀ e buf n,
       accepts w → _audioDraining (this w) = false →
       let w' := step w (e, CallPushAudio buf n) in
       drains w' = [DrainAwaitAudio (Chunk buf n)]
       ∧ _audioDraining (this w') = true
       ∧ audio_chunks (calls w') = audio_chunks (calls w) ++ [Chunk buf n]).
Proof.
  intros w. pose proof (reachable_inv id g evs) as HI. fold w in HI.
  destruct (drains_bound w HI) as (H1 & H2 & H3).
  do 3 (split; [done|]). split.
  { destruct (run_trace (new_world id g) evs) as (new & Hc & Hs).
    simpl in Hc, Hs. fold w in Hc, Hs. by rewrite Hc. }
  split. { intros e buf n Ha Hd. by apply push_while_draining. }
  split. { intros e k ok c c' rest Hk Hq. by eapply drain_continues. }
  split. { intros e k ok c Hk Hq. by eapply drain_exits. }
  intros e buf n Ha Hd.
  destruct (push_restarts w e buf n HI Ha Hd) as (? & ? & ? & ?). done.
Qed.


(** X23 ([stop], what holds of it): from every state a run from the
    constructor can reach, with whatever iteration or drain parked in it,
    [stop()] returns and leaves the manager idle; a second [stop()] changes
    nothing at all; if no [start] was pending, nothing is called on any
    sender for as long as [start] is not called again, whatever resumes
    meanwhile; in any case nothing is called until [grandi.send] hands a
    [start] its new sender; and the handle that [stop] released is never
    called again, whatever follows. *)
Theorem stop_idempotent_and_final id g evs e1 e2 :
  let w := run (new_world id g) evs in
  let w1 := step w (e1, CallStop) in
  let w2 := step w1 (e2, CallStop) in
  idle w1 ∧ idle w2 ∧ w2 = w1
  ∧ (∀ evs',
       starts w = [] → Forall (λ ea, ¬ calls_start ea) evs' →
       calls (run w1 evs') = calls w1)
  ∧ (∀ evs',
       Forall (λ ea, ¬ new_session ea) evs' →
       sender (this (run w1 evs')) = None ∧ calls (run w1 evs') = calls w1)
  ∧ (∀ h evs',
       sender (this w) = Some h →
       ∃ new, calls (run w1 evs') = calls w1 ++ new
         ∧ Forall (λ c, call_handle c ≠ h) new).
Proof.
  intros w w1 w2. pose proof (reachable_inv id g evs) as HI. fold w in HI.
  subst w1 w2. cbn [step]. split; [apply stop_idle|].
  split; [apply stop_idle|]. split; [apply stop_stop|]. split; [|split].
  - intros evs' Hp Hq. apply run_silent; [apply stop_idle| |done].
    by rewrite stop_starts.
  - intros evs' Hq. apply run_quiet; [|done]. apply stop_idle.
  - intros h evs' Hs. apply run_retired. by apply stop_retired.
Qed.

(** C4, where the code breaks it: a [start] that is waiting for
    [grandi.send] when [stop()] runs is not cancelled.  [stop()] returns
    with the manager idle and nothing called; then, with no further call of
    [start], the pending [start] is given its sender, sets [running] and
    enters the loop, and a video frame and an audio frame go to that
    sender.  [_loop] and [_drainAudioQueue] test [running] again after each
    [await]; [start] does not. *)
Lemma pending_start_survives_stop :
  let w := run (new_world 1 true)
             [(quiet_env, CallStart "cam" 30 1280 720 true)] in
  let w1 := step w (quiet_env, CallStop) in
  let later := [(quiet_env, SenderCreated 0 true);
                (quiet_env, CaptureDone 0 (Some (Image 1280 720 [])));
                (quiet_env, CallPushAudio [1] 1)] in
  idle w1 ∧ calls w1 = []
  ∧ Forall (λ ea, ¬ calls_start ea) later
  ∧ running (this (run w1 later)) = true
  ∧ sender (this (run w1 later)) = Some 0%nat
  ∧ call_handle <$> calls (run w1 later) = [0%nat; 0%nat]
  ∧ length (video_frames (calls (run w1 later))) = 1%nat
  ∧ audio_chunks (calls (run w1 later)) = [Chunk [1] 1].
Proof.
  intros w w1 later.
  split; [by vm_compute|]. split; [vm_compute; reflexivity|].
  split.
  { repeat (apply List.Forall_cons; [exact (λ H, H)|]). apply List.Forall_nil. }
  repeat split; vm_compute; reflexivity.
Qed.

Lemma lookup_snoc {A} (l : list A) x : (l ++ [x]) !! length l = Some x.
Proof. by rewrite lookup_app_r, Nat.sub_diag by lia. Qed.

Lemma delete_snoc {A} (l : list A) x : delete (length l) (l ++ [x]) = l.
Proof.
  induction l as [|y l IH]; simpl; [done|]. by rewrite IH.
Qed.

Lemma iteration_delay w h e0 e1 e2 img ok :
  running (this w) = true → sender (this w) = Some h → destroyed w = false →
  let k := length (loops w) in
  let w1 := loop_enter e0 w in
  let sent :=
    step (step w1 (e1, CaptureDone k (Some img))) (e2, VideoDone k ok) in
  let failed := step w1 (e1, CaptureDone k None) in
  let delay t := Qmax 1 (1000 / fps (this w) - (t - now e0)) in
  timers sent = timers w ++ [(next_timer w, delay (now e2))]
  ∧ _timeout (this sent) = Some (next_timer w)
  ∧ timers failed = timers w ++ [(next_timer w, delay (now e1))]
  ∧ _timeout (this failed) = Some (next_timer w).
Proof.
  intros Hr Hs Hd. split_world w. simpl in *. subst.
  cbv zeta. split; [|split; [|split]].
  all: ndi_eval.
  all: rewrite ?bool_decide_true by eauto.
  all: ndi_eval; rewrite ?lookup_snoc, ?delete_snoc.
  all: ndi_eval; rewrite ?lookup_snoc, ?delete_snoc.
  all: destruct ok; ndi_eval; try done.
Qed.

(** C5 (claim about the pacing): in a state reached from the constructor, an
    iteration entered at time [now e0] whose capture and send have settled,
    the send at time [now e2], arms the next iteration after
    max(1, 1000/fps - (now e2 - now e0)) milliseconds; when the capture
    itself fails, at time [now e1], the same formula holds with that time.
    The rate is never zero, and the delay is never below 1.  Times and the
    rate are exact rationals here. *)
Theorem loop_delay_formula id g evs h e0 e1 e2 img ok :
  let w := run (new_world id g) evs in
  running (this w) = true → sender (this w) = Some h → destroyed w = false →
  let k := length (loops w) in
  let enter := loop_enter e0 w in
  let sent :=
    step (step enter (e1, CaptureDone k (Some img))) (e2, VideoDone k ok) in
  let failed := step enter (e1, CaptureDone k None) in
  let delay t := Qmax 1 (1000 / fps (this w) - (t - now e0)) in
  timers sent = timers w ++ [(next_timer w, delay (now e2))]
  ∧ _timeout (this sent) = Some (next_timer w)
  ∧ timers failed = timers w ++ [(next_timer w, delay (now e1))]
  ∧ _timeout (this failed) = Some (next_timer w)
  ∧ ¬ (fps (this w) == 0)%Q
  ∧ (∀ t, 1 <= delay t)%Q.
Proof.
  intros w Hr Hs Hd k enter sent failed delay.
  destruct (iteration_delay w h e0 e1 e2 img ok Hr Hs Hd) as (H1 & H2 & H3 & H4).
  do 4 (split; [done|]). split; [apply reachable_fps|].
  intros t. apply Q.le_max_l.
Qed.

(** C10 (claim about the queue on [stop] and [start]): [stop()] empties the
    queue without handing any of it to the sender; the chunks sent afterwards
    are, in order, a subsequence of the chunks pushed afterwards, so nothing
    of what was dropped is sent; and when [start] has its new sender the
    queue is empty. *)
Theorem stop_discards_audio_queue w e :
  let w1 := step w (e, CallStop) in
  _audioQueue (this w1) = []
  ∧ audio_chunks (calls w1) = audio_chunks (calls w)
  ∧ (∀ evs, ∃ new,
       calls (run w1 evs) = calls w1 ++ new
       ∧ audio_chunks new `sublist_of` pushed evs)
  ∧ (∀ e' k name,
       starts w !! k = Some (StartAwaitSend name) →
       _audioQueue (this (step w (e', SenderCreated k true))) = []).
Proof.
  intros w1. subst w1. cbn [step].
  destruct (stop_idle e w) as (_ & _ & _ & Hq).
  split; [done|]. split.
  { rewrite stop_calls, audio_chunks_app.
    destruct (sender (this w)); simpl; by rewrite app_nil_r. }
  split.
  - intros evs. destruct (run_trace (stop e w) evs) as (new & Hc & Hsub).
    exists new. split; [done|]. rewrite Hq in Hsub. simpl in Hsub.
    etrans; [|exact Hsub]. by apply sublist_inserts_r.
  - intros e' k name Hk. split_world w. simpl in *.
    ndi_eval. rewrite Hk. by ndi_paths.
Qed.

Lemma audio_queue_bounded_witness :
  let w := run (new_world 1 true) started_evs in
  let w9 := run (new_world 1 true) (started_evs ++ nine) in
  accepts w ∧ accepts w9
  ∧ _audioQueue (this (run w
      [(quiet_env, CallPushAudio [1] 1); (quiet_env, CallPushAudio [2] 1);
       (quiet_env, CallPushAudio [3] 1); (quiet_env, CallPushAudio [4] 1);
       (quiet_env, CallPushAudio [5] 1); (quiet_env, CallPushAudio [6] 1);
       (quiet_env, CallPushAudio [7] 1); (quiet_env, CallPushAudio [8] 1);
       (quiet_env, CallPushAudio [9] 1)]))
    = [Chunk [2] 1; Chunk [3] 1; Chunk [4] 1; Chunk [5] 1; Chunk [6] 1;
       Chunk [7] 1; Chunk [8] 1; Chunk [9] 1]
  ∧ _audioQueue (this (step w9 (quiet_env, CallPushAudio [10] 1)))
    = tail (_audioQueue (this w9)) ++ [Chunk [10] 1].
Proof.
  intros w w9.
  assert (accepts w) as Ha.
  { split; [vm_compute; reflexivity|]. split; [vm_compute; reflexivity|].
    exists 0%nat. vm_compute. reflexivity. }
  assert (accepts w9) as Ha9.
  { split; [vm_compute; reflexivity|]. split; [vm_compute; reflexivity|].
    exists 0%nat. vm_compute. reflexivity. }
  assert (_audioQueue (this w) = []) as Hq by (vm_compute; reflexivity).
  assert (length (_audioQueue (this w9)) = 8%nat) as Hl
    by (vm_compute; reflexivity).
  split; [exact Ha|]. split; [exact Ha9|]. split.
  - exact (proj2 (proj2 (audio_queue_bounded 1 true started_evs))
             quiet_env quiet_env quiet_env quiet_env quiet_env quiet_env
             quiet_env quiet_env quiet_env
             (Chunk [1] 1) (Chunk [2] 1) (Chunk [3] 1) (Chunk [4] 1)
             (Chunk [5] 1) (Chunk [6] 1) (Chunk [7] 1) (Chunk [8] 1)
             (Chunk [9] 1) Ha Hq).
  - exact (proj1 (proj2 (audio_queue_bounded 1 true (started_evs ++ nine)))
             quiet_env [10] 1 Ha9 Hl).
Defined.

Lemma audio_drain_single_flight_witness :
  let w := run (new_world 1 true) (started_evs ++ nine) in
  let w' := step w (quiet_env, AudioDone 0 true) in
  drains w !! 0%nat = Some (DrainAwaitAudio (Chunk [1] 1))
  ∧ drains w' = [DrainAwaitAudio (Chunk [2] 1)]
  ∧ _audioDraining (this w') = true
  ∧ _audioQueue (this w')
    = [Chunk [3] 1; Chunk [4] 1; Chunk [5] 1; Chunk [6] 1; Chunk [7] 1;
       Chunk [8] 1; Chunk [9] 1]
  ∧ audio_chunks (calls w') = audio_chunks (calls w) ++ [Chunk [2] 1].
Proof.
  intros w w'.
  assert (drains w !! 0%nat = Some (DrainAwaitAudio (Chunk [1] 1))) as Hk
    by (vm_compute; reflexivity).
  assert (_audioQueue (this w)
          = Chunk [2] 1
            :: [Chunk [3] 1; Chunk [4] 1; Chunk [5] 1; Chunk [6] 1;
                Chunk [7] 1; Chunk [8] 1; Chunk [9] 1]) as Hq
    by (vm_compute; reflexivity).
  split; [exact Hk|].
  exact (proj1 (proj2 (proj2 (proj2 (proj2 (proj2
           (audio_drain_single_flight 1 true (started_evs ++ nine)))))))
           quiet_env 0%nat true (Chunk [1] 1) (Chunk [2] 1) _ Hk Hq).
Defined.

Lemma stop_idempotent_and_final_witness :
  let w := run (new_world 1 true) (started_evs ++ nine) in
  let w1 := step w (quiet_env, CallStop) in
  let evs' := [(quiet_env, AudioDone 0 true);
               (quiet_env, CaptureDone 0 (Some (Image 1280 720 [])));
               (quiet_env, CallPushAudio [11] 1);
               (quiet_env, TimerFires 0%nat)] in
  sender (this w) = Some 0%nat ∧ starts w = []
  ∧ calls (run w1 evs') = calls w1
  ∧ (sender (this (run w1 evs')) = None ∧ calls (run w1 evs') = calls w1)
  ∧ ∃ new, calls (run w1 evs') = calls w1 ++ new
      ∧ Forall (λ c, call_handle c ≠ 0%nat) new.
Proof.
  intros w w1 evs'.
  assert (sender (this w) = Some 0%nat) as Hs by (vm_compute; reflexivity).
  assert (starts w = []) as Hp by (vm_compute; reflexivity).
  assert (Forall (λ ea, ¬ calls_start ea) evs') as Hn.
  { repeat (apply List.Forall_cons; [exact (λ H, H)|]). apply List.Forall_nil. }
  assert (Forall (λ ea, ¬ new_session ea) evs') as Hq.
  { repeat (apply List.Forall_cons; [exact (λ H, H)|]). apply List.Forall_nil. }
  split; [exact Hs|]. split; [exact Hp|]. split; [|split].
  - exact (proj1 (proj2 (proj2 (proj2
             (stop_idempotent_and_final 1 true (started_evs ++ nine)
                quiet_env quiet_env)))) evs' Hp Hn).
  - exact (proj1 (proj2 (proj2 (proj2 (proj2
             (stop_idempotent_and_final 1 true (started_evs ++ nine)
                quiet_env quiet_env))))) evs' Hq).
  - exact (proj2 (proj2 (proj2 (proj2 (proj2
             (stop_idempotent_and_final 1 true (started_evs ++ nine)
                quiet_env quiet_env))))) 0%nat evs' Hs).
Defined.

Lemma loop_delay_formula_witness :
  let w := run (new_world 1 true) started_evs in
  let e0 := Env 100 0 false in
  let e2 := Env 112 0 false in
  let img := Image 1280 720 [] in
  running (this w) = true ∧ sender (this w) = Some 0%nat
  ∧ destroyed w = false
  ∧ timers (step (step (loop_enter e0 w)
                    (quiet_env, CaptureDone (length (loops w)) (Some img)))
              (e2, VideoDone (length (loops w)) true))
    = timers w
      ++ [(next_timer w, Qmax 1 (1000 / fps (this w) - (now e2 - now e0)))].
Proof.
  intros w e0 e2 img.
  assert (running (this w) = true) as Hr by (vm_compute; reflexivity).
  assert (sender (this w) = Some 0%nat) as Hs by (vm_compute; reflexivity).
  assert (destroyed w = false) as Hd by (vm_compute; reflexivity).
  split; [exact Hr|]. split; [exact Hs|]. split; [exact Hd|].
  exact (proj1 (loop_delay_formula 1 true started_evs 0%nat e0 quiet_env e2
                  img true Hr Hs Hd)).
Defined.

Lemma stop_discards_audio_queue_witness :
  let w := run (new_world 1 true)
             [(quiet_env, CallStart "cam" 30 1280 720 true)] in
  starts w !! 0%nat = Some (StartAwaitSend "cam")
  ∧ _audioQueue (this (step w (quiet_env, SenderCreated 0 true))) = [].
Proof.
  intros w.
  assert (starts w !! 0%nat = Some (StartAwaitSend "cam")) as Hk
    by (vm_compute; reflexivity).
  split; [exact Hk|].
  exact (proj2 (proj2 (proj2 (stop_discards_audio_queue w quiet_env)))
           quiet_env 0%nat "cam" Hk).
Defined.

End NdiClaims.

(** * The properties of the design document: audio capture *)

Module CaptureClaims.
Import Capture CaptureFacts.
Local Open Scope nat_scope.

Lemma constructor_size bufferSize :
  bufferSize ≠ 0 → _size (constructor bufferSize) = bufferSize.
Proof. unfold constructor. by destruct bufferSize. Qed.

Lemma constructor_pending bufferSize :
  pending0 (constructor bufferSize) = [] ∧ pending1 (constructor bufferSize) = [].
Proof. done. Qed.

(** C6 (claim about the worklet's accumulation): whatever the sizes of the
    blocks handed to [process], the processor posts only full chunks in
    planar layout, the chunks followed by what is still buffered are exactly
    the samples that came in, channel by channel and in order, and a chunk is
    posted each time the buffer fills: after [total] samples there are
    [total / size] chunks and [total mod size] samples buffered.  With 12288
    samples and chunks of 4096 that is 3 chunks. *)
Theorem worklet_chunks bufferSize blocks :
  Forall even_input blocks →
  let p0 := constructor bufferSize in
  let size := _size p0 in
  let total := length (concat (input0 <$> blocks)) in
  ∃ p out,
    worklet_run blocks p0 = Some (p, out)
    ∧ Forall (full_chunk size) out
    ∧ concat (plane0 <$> out) ++ pending0 p = concat (input0 <$> blocks)
    ∧ concat (plane1 <$> out) ++ pending1 p = concat (input1 <$> blocks)
    ∧ length out = total / size
    ∧ _pos p = total mod size
    ∧ (bufferSize = 4096 → total = 12288 →
       length out = 3 ∧ Forall (λ m, noSamples m = 4096) out).
Proof.
  intros Hev p0 size total.
  destruct (worklet_run_spec blocks p0 (constructor_ready bufferSize) Hev)
    as (p & out & Hrun & Hp & Hs & Hall & H0 & H1).
  destruct (constructor_pending bufferSize) as [P0 P1].
  fold p0 in P0, P1. rewrite P0 in H0. rewrite P1 in H1. simpl in H0, H1.
  fold size in Hall.
  assert (length out * size + _pos p = total) as Hcount.
  { subst total. rewrite <-H0, length_app, (length_planes0 size) by done.
    by rewrite length_pending0. }
  assert (_pos p < size) as Hpos.
  { subst size. rewrite <-Hs. apply Hp. }
  assert (length out = total / size) as Hdiv.
  { apply (Nat.div_unique total size _ (_pos p)); lia. }
  exists p, out. do 4 (split; [done|]). split; [done|]. split.
  { apply (Nat.mod_unique total size (length out) (_pos p)); lia. }
  intros -> Ht. split.
  - rewrite Hdiv, Ht. done.
  - eapply Forall_impl; [exact Hall|]. by intros m [? _].
Qed.

(** C9 (claim about the two strategies): given the same two sample streams
    and the same buffer size, the worklet, fed the streams in blocks of any
    sizes, and the script node, fed them in the buffers of [bufferSize]
    frames that [createScriptProcessor(bufferSize, 2, 2)] produces, hand the
    same chunks to [ipcRenderer.send]. *)
Theorem strategies_agree opts blocks events r0 r1 :
  let bufferSize := capture_bufferSize opts in
  Forall even_input blocks →
  Forall (λ e, length (channel0 e) = bufferSize
               ∧ length (channel1 e) = bufferSize) events →
  concat (input0 <$> blocks) = concat (channel0 <$> events) ++ r0 →
  concat (input1 <$> blocks) = concat (channel1 <$> events) ++ r1 →
  length r0 < bufferSize →
  ∃ p out,
    worklet_run blocks (constructor bufferSize) = Some (p, out)
    ∧ script_run events = Some out
    ∧ Forall (full_chunk bufferSize) out.
Proof.
  intros bufferSize Hev Hsc E0 E1 Hr.
  assert (bufferSize ≠ 0) as Hne.
  { unfold bufferSize, capture_bufferSize. by destruct opts. }
  pose proof (constructor_size bufferSize Hne) as Hsize.
  destruct (worklet_run_spec blocks _ (constructor_ready bufferSize) Hev)
    as (p & out & Hrun & Hp & Hs & Hall & H0 & H1).
  destruct (constructor_pending bufferSize) as [P0 P1].
  rewrite P0 in H0. rewrite P1 in H1. simpl in H0, H1. rewrite Hsize in Hall.
  destruct (script_run_spec bufferSize events Hsc)
    as (out' & Hrun' & Hall' & S0 & S1).
  assert (out = out') as <-.
  { apply (chunks_unique bufferSize out out'
             (pending0 p) r0 (pending1 p) r1); [done|done| | | |done].
    - by rewrite H0, S0, E0.
    - by rewrite H1, S1, E1.
    - rewrite length_pending0 by done. rewrite <-Hsize, <-Hs. apply Hp. }
  by exists p, out.
Qed.

Lemma demo_blocks_even : Forall even_input demo_blocks.
Proof. repeat constructor. Qed.

Lemma worklet_chunks_witness :
  Forall even_input demo_blocks ∧ Forall even_input quanta
  ∧ (∃ p out,
       worklet_run demo_blocks (constructor 4) = Some (p, out)
       ∧ length out = 2 ∧ _pos p = 1)
  ∧ (∃ p out,
       worklet_run quanta (constructor 4096) = Some (p, out)
       ∧ length out = 3 ∧ Forall (λ m, noSamples m = 4096) out).
Proof.
  assert (Forall even_input quanta) as Hev.
  { apply Forall_replicate. reflexivity. }
  split; [exact demo_blocks_even|]. split; [exact Hev|]. split.
  - destruct (worklet_chunks 4 demo_blocks demo_blocks_even)
      as (p & out & Hrun & _ & _ & _ & Hlen & Hpos & _).
    exists p, out. split; [exact Hrun|]. split; [exact Hlen|exact Hpos].
  - destruct (worklet_chunks 4096 quanta Hev)
      as (p & out & Hrun & _ & _ & _ & _ & _ & H3).
    exists p, out. split; [exact Hrun|].
    apply H3; [reflexivity|]. vm_compute. reflexivity.
Defined.

Lemma strategies_agree_witness :
  ∃ p out,
    worklet_run demo_blocks (constructor 4) = Some (p, out)
    ∧ script_run demo_events = Some out.
Proof.
  destruct (strategies_agree 4 demo_blocks demo_events [9%Q] [19%Q])
    as (p & out & H1 & H2 & _).
  - exact demo_blocks_even.
  - repeat constructor.
  - reflexivity.
  - reflexivity.
  - vm_compute. lia.
  - exists p, out. split; [exact H1|exact H2].
Defined.


End CaptureClaims.

(** * The properties of the design document: the broadcast relay *)

Module RelayClaims.
Import Relay RelayFacts.
Local Open Scope nat_scope.

(** C1, as stated, fails: with two open subscribers on channel "x", publishing
    a function through the first throws DataCloneError and queues nothing
    for the second. *)
Lemma publish_uncloneable_throws :
  let w := run new_context [New "x"; New "x"] in
  cloneable (VFun 7) = false
  ∧ local_targets 0 "x" w = [1]
  ∧ postMessage 0 (VFun 7) w = Thrown DataCloneError w
  ∧ microtasks w = [].
Proof. vm_compute. done. Qed.

(** C1, amended: a message that [structuredClone] accepts and the IPC
    serialiser rejects is published without error; nothing goes out through
    [ipcRenderer.send], and one copy, deep-equal to the message, is queued
    for every other open instance on the channel. *)
Theorem publish_unserializable w i inst m :
  instances w !! i = Some inst → _closed inst = false →
  cloneable m = true → ipc_serializable m = false →
  ∃ w' new,
    postMessage i m w = Returned w'
    ∧ sent w' = sent w
    ∧ microtasks w' = microtasks w ++ new
    ∧ new.*1 = local_targets i (name inst) w
    ∧ Forall (λ d, deep_equal d m) new.*2.
Proof.
  intros Hi Ho Hm Hs.
  destruct (postMessage_spec w i inst m Hi Ho Hm)
    as (w' & new & Hp & Hmt & Ht & Hall & _ & Hsent).
  exists w', new. rewrite Hs, app_nil_r in Hsent. do 4 (split; [done|]).
  eapply Forall_impl; [exact Hall|]. by intros d [? _].
Qed.

(** C7 (claim about closed subscribers): once [close()] has run on an
    instance, whatever happens next, [postMessage] through it throws
    InvalidStateError at once and changes nothing, and the instance is
    delivered no message, the microtasks queued for it before the [close]
    included. *)
Theorem closed_subscriber w i evs :
  i < length (instances w) →
  let w1 := run (step w (Close i)) evs in
  (∀ m, postMessage i m w1 = Thrown InvalidStateError w1)
  ∧ received i w1 = received i w.
Proof.
  intros Hi w1. cbn [step] in w1.
  destruct (run_closed (close i w) evs i (close_closed i w Hi)) as [Hc Hr].
  split. { intros m. by apply postMessage_closed. }
  subst w1. rewrite Hr. unfold received, close.
  destruct (instances w !! i) as [inst|]; [|done].
  destruct (_closed inst); [done|]. simpl.
  by destruct (registry w !! name inst).
Qed.

(** C8 (claim about copies): a JSON-representable message published through
    an open instance is queued, for every other open instance on the channel,
    as a copy that is deep-equal to the message and shares no object with it
    nor with the copy of another receiver; what goes to the other renderers
    is the message serialised, and there the handler queues for every open
    instance on the channel a copy deep-equal to the message, no two copies
    sharing an object; and the microtask hands the instance the copy that was
    queued. *)
Theorem published_copies w i inst m :
  instances w !! i = Some inst → _closed inst = false →
  json m = true → allocated (next_addr w) m →
  ∃ w' new,
    postMessage i m w = Returned w'
    ∧ microtasks w' = microtasks w ++ new
    ∧ new.*1 = local_targets i (name inst) w
    ∧ Forall (λ d, deep_equal d m ∧ unshared d m) new.*2
    ∧ pairwise_unshared new.*2
    ∧ sent w' = sent w ++ [(name inst, erase m)]
    ∧ (∀ w2 channel, ∃ w2' new2,
         on_broadcast_channel_message channel (erase m) w2 = Returned w2'
         ∧ microtasks w2' = microtasks w2 ++ new2
         ∧ new2.*1 = open_targets channel w2
         ∧ Forall (λ d, deep_equal d m) new2.*2
         ∧ pairwise_unshared new2.*2)
    ∧ (∀ w3 j d rest instj,
         microtasks w3 = (j, d) :: rest → instances w3 !! j = Some instj →
         _closed instj = false →
         delivered (step w3 Microtask)
         = delivered w3 ++ [Delivery j d (_onmessage instj)]).
Proof.
  intros Hi Ho Hj Ha.
  destruct (postMessage_spec w i inst m Hi Ho (json_cloneable m Hj))
    as (w' & new & Hp & Hmt & Ht & Hall & Hpw & Hsent).
  exists w', new. do 3 (split; [done|]). split.
  { eapply Forall_impl; [exact Hall|]. simpl. intros d [Hd Hr].
    split; [done|]. intros a Had Ham. unfold allocated in Ha.
    rewrite Forall_forall in Ha, Hr.
    specialize (Ha a Ham). specialize (Hr a Had). lia. }
  split; [done|]. split.
  { by rewrite Hsent, (json_ipc_serializable m Hj). }
  split.
  - intros w2 channel.
    destruct (on_message_spec w2 channel (erase m)) as
      (w2' & new2 & H1 & H2 & H3 & H4 & H5 & _).
    { by rewrite cloneable_erase, json_cloneable. }
    exists w2', new2. do 3 (split; [done|]). split; [|done].
    eapply Forall_impl; [exact H4|]. simpl. intros d Hd.
    unfold deep_equal in *. rewrite Hd.
    clear. induction m using value_rect'; simpl; try done.
    + f_equal. induction H as [|x vs Hx _ IH]; simpl; [done|].
      by rewrite Hx, IH.
    + f_equal. induction H as [|[k x] fs Hx _ IH]; simpl; [done|].
      simpl in Hx. by rewrite Hx, IH.
  - intros w3 j d rest instj. apply microtask_delivers.
Qed.


Lemma publish_unserializable_witness :
  ∃ w' new,
    postMessage 0 (VHost 3 "Blob") two_on_x = Returned w'
    ∧ sent w' = sent two_on_x
    ∧ microtasks w' = microtasks two_on_x ++ new
    ∧ new.*1 = [1].
Proof.
  destruct (publish_unserializable two_on_x 0
              {| name := "x"; _closed := false; _onmessage := None;
                 _onmessageerror := None |} (VHost 3 "Blob"))
    as (w' & new & H1 & H2 & H3 & H4 & _); try reflexivity.
  exists w', new. split; [exact H1|]. split; [exact H2|].
  split; [exact H3|exact H4].
Defined.

Lemma closed_subscriber_witness :
  let w := state_of (postMessage 0 (VNum 1) two_on_x) in
  microtasks w = [(1, VNum 1)]
  ∧ received 1 (run (step w (Close 1)) [Microtask]) = received 1 w.
Proof.
  split; [reflexivity|].
  refine (proj2 (closed_subscriber
                   (state_of (postMessage 0 (VNum 1) two_on_x)) 1 [Microtask] _)).
  vm_compute. lia.
Defined.

Lemma published_copies_witness :
  let m := VObj 0 [("a", VArr 1 [VNum 1; VStr "b"])] in
  ∃ w' new,
    postMessage 0 m two_on_x = Returned w'
    ∧ microtasks w' = microtasks two_on_x ++ new
    ∧ Forall (λ d, deep_equal d m ∧ unshared d m) new.*2.
Proof.
  intros m.
  destruct (published_copies two_on_x 0
              {| name := "x"; _closed := false; _onmessage := None;
                 _onmessageerror := None |} m)
    as (w' & new & H1 & H2 & _ & H3 & _); try reflexivity.
  { repeat constructor. }
  exists w', new. split; [exact H1|]. split; [exact H2|exact H3].
Defined.

End RelayClaims.

(** * Further properties: the NDI manager *)

Module NdiProperties.
Import Ndi NdiFacts NdiLemmas.

(** X1 ([start], [stop], [_loop]): in every state a run from the constructor
    can reach, the manager is running exactly when it holds a sender. *)
Theorem running_iff_sender id g evs :
  let w := run (new_world id g) evs in
  running (this w) = true ↔ is_Some (sender (this w)).
Proof.
  apply run_running_sender. simpl. split; [done|]. by intros [? ?].
Qed.

(** X2 (the sender handles): along every run from the constructor nothing
    is called on a handle after [destroy()] was called on it, so no handle
    is destroyed twice and no frame goes to a destroyed sender; and a
    destroyed handle is never the one the manager holds. *)
Theorem sender_handle_lifecycle id g evs :
  let w := run (new_world id g) evs in
  lifecycle_ok [] (calls w)
  ∧ (∀ pre h post,
       calls w = pre ++ Destroy h :: post →
       Forall (λ c, call_handle c ≠ h) post)
  ∧ (∀ h, h ∈ destroyed_handles (calls w) → retired h w).
Proof.
  intros w.
  destruct (run_handles_ok (new_world id g) evs (new_world_inv id g))
    as [H1 H2].
  { split; [done|]. intros h Hh. by apply elem_of_nil in Hh. }
  fold w in H1, H2. split; [done|]. split; [|done].
  intros pre h post E. rewrite E in H1. by eapply lifecycle_ok_split.
Qed.

(** X3 (the frames): every video frame ever handed to [sender.video] has
    pixels of the size its header says, a line stride of four bytes a
    pixel and a frame-rate denominator of 1, also after the size was
    changed while streaming; every audio frame ever handed to
    [sender.audio] says 48000 Hz, two channels and a channel stride of four
    bytes a sample; and in both the timecode and the timestamp are one
    reading of the clock. *)
Theorem frames_well_formed id g evs :
  let cs := calls (run (new_world id g) evs) in
  Forall video_frame_ok (video_frames cs)
  ∧ Forall audio_frame_ok (audio_frames cs).
Proof.
  intros cs.
  destruct (run_frames (new_world id g) evs) as (new & Hc & Hok);
    [by split|].
  subst cs. rewrite Hc. simpl.
  split; [by apply video_frames_ok|by apply audio_frames_ok].
Qed.

(** X4 ([pushAudio], any number of chunks): while a send is in flight,
    pushing chunks one after the other, how many ever, leaves in the queue
    the last eight of what was queued followed by what was pushed, and
    calls nothing on the sender. *)
Theorem backpressure_keeps_newest id g evs ecs :
  let w := run (new_world id g) evs in
  accepts w → _audioDraining (this w) = true →
  let w' := run w (pushes ecs) in
  _audioQueue (this w') = last8 (_audioQueue (this w) ++ ecs.*2)
  ∧ (length (_audioQueue (this w')) ≤ 8)%nat
  ∧ calls w' = calls w ∧ drains w' = drains w.
Proof.
  intros w Ha Hd w'.
  destruct (run_backpressure ecs w (reachable_inv id g evs) Ha Hd)
    as (Hq & Hc & Hdr).
  fold w' in Hq, Hc, Hdr. split; [done|]. split; [|done].
  rewrite Hq. apply length_last8.
Qed.

Lemma backpressure_keeps_newest_witness :
  let w := run (new_world 1 true) one_in_flight in
  let w' := run w (pushes ten_chunks) in
  accepts w ∧ _audioDraining (this w) = true
  ∧ _audioQueue (this w') = last8 (_audioQueue (this w) ++ ten_chunks.*2).
Proof.
  intros w w'.
  assert (accepts w) as Ha.
  { split; [vm_compute; reflexivity|]. split; [vm_compute; reflexivity|].
    exists 0%nat. vm_compute. reflexivity. }
  assert (_audioDraining (this w) = true) as Hd by (vm_compute; reflexivity).
  split; [exact Ha|]. split; [exact Hd|].
  exact (proj1 (backpressure_keeps_newest 1 true one_in_flight ten_chunks
                  Ha Hd)).
Defined.

(** X5 (audio off): as long as no [start] is called with audio enabled, no
    audio frame is ever sent and nothing is ever queued, whatever is
    pushed. *)
Theorem no_audio_unless_enabled id g evs :
  Forall (λ ea, ¬ starts_audio ea) evs →
  let w := run (new_world id g) evs in
  audio_chunks (calls w) = [] ∧ _audioQueue (this w) = [] ∧ drains w = [].
Proof.
  intros Hn w.
  assert (mute (new_world id g)) as H0.
  { by repeat split. }
  by destruct (run_mute (new_world id g) evs H0 Hn)
    as (_ & Hq & Hd & _ & Hc & _).
Qed.

Lemma no_audio_unless_enabled_witness :
  let w := run (new_world 1 true) video_only in
  audio_chunks (calls w) = [] ∧ _audioQueue (this w) = [] ∧ drains w = [].
Proof.
  assert (Forall (λ ea, ¬ starts_audio ea) video_only) as Hn.
  { repeat (apply List.Forall_cons; [exact (λ H, H)|]). apply List.Forall_nil. }
  exact (no_audio_unless_enabled 1 true video_only Hn).
Defined.

(** X6 (the two [catch] blocks): a capture that fails, a video send that
    fails and an audio send that fails leave the manager running, on the
    same sender, and destroy nothing. *)
Theorem send_failures_keep_running w e k :
  let unchanged w' :=
    running (this w') = running (this w)
    ∧ sender (this w') = sender (this w)
    ∧ destroyed_handles (calls w') = destroyed_handles (calls w) in
  unchanged (step w (e, CaptureDone k None))
  ∧ unchanged (step w (e, VideoDone k false))
  ∧ unchanged (step w (e, AudioDone k false)).
Proof.
  repeat apply conj; apply failure_keeps_running; exists k; auto.
Qed.

(** X7 (a destroyed window): once the window is destroyed and no capture
    or video send is pending, no video frame is ever sent again, whatever
    is called and whatever settles. *)
Theorem destroyed_window_no_video w evs :
  destroyed w = true → no_capture_parked w →
  video_frames (calls (run w evs)) = video_frames (calls w).
Proof. apply run_destroyed_window. Qed.

Lemma destroyed_window_no_video_witness :
  let w := run (new_world 3 true) [(quiet_env, WindowDestroyed)] in
  let evs := started_evs
             ++ [(quiet_env, CaptureDone 0 (Some (Image 1280 720 [])));
                 (quiet_env, LoopStopDone 0)] in
  destroyed w = true
  ∧ video_frames (calls (run w evs)) = video_frames (calls w).
Proof.
  intros w evs.
  assert (destroyed w = true) as Hd by (vm_compute; reflexivity).
  assert (no_capture_parked w) as Hn by (apply List.Forall_nil).
  split; [exact Hd|]. exact (destroyed_window_no_video w evs Hd Hn).
Defined.

(** X8 (the native module missing): when [require("grandi")] failed, every
    [start] throws and changes nothing; whatever happens, nothing is ever
    called on a sender, no timer is armed and the manager never runs. *)
Theorem missing_native_module id evs :
  let w := run (new_world id false) evs in
  calls w = [] ∧ timers w = [] ∧ running (this w) = false
  ∧ sender (this w) = None
  ∧ ∀ e name f wd ht au,
      start e name f wd ht au w
      = Thrown (Error "grandi native module is not available") w.
Proof.
  intros w.
  destruct (run_inert (new_world id false) evs) as (Hg & _ & Hs & Hr & Hc & Ht);
    [done|].
  fold w in Hg, Hs, Hr, Hc, Ht. repeat split; try done.
  intros e name f wd ht au. unfold start. by rewrite Hg.
Qed.

(** X9 (no chunk is stranded): in every state a run from the constructor can
    reach, a chunk in the queue means that the manager is running and that
    a drain is parked on a send, which will take the chunk when the send
    settles. *)
Theorem queued_audio_has_drain id g evs :
  let w := run (new_world id g) evs in
  _audioQueue (this w) ≠ [] →
  running (this w) = true ∧ _audioDraining (this w) = true
  ∧ ∃ c, drains w = [DrainAwaitAudio c].
Proof.
  intros w Hq. pose proof (reachable_inv id g evs) as HI. fold w in HI.
  split.
  { destruct (running (this w)) eqn:Hr; [done|].
    by destruct Hq; apply (inv_stopped_empty _ HI). }
  pose proof (inv_queue_draining _ HI Hq) as Hd. split; [done|].
  pose proof (inv_draining _ HI) as H. rewrite Hd in H.
  destruct H as [[c] H]. by exists c.
Qed.

Lemma queued_audio_has_drain_witness :
  let w := run (new_world 1 true) (started_evs ++ nine) in
  running (this w) = true ∧ _audioDraining (this w) = true
  ∧ ∃ c, drains w = [DrainAwaitAudio c].
Proof.
  intros w.
  assert (_audioQueue (this w) ≠ []) as Hq.
  { intros H. vm_compute in H. discriminate H. }
  exact (queued_audio_has_drain 1 true (started_evs ++ nine) Hq).
Defined.



End NdiProperties.

(** * Further properties: audio capture *)

Module CaptureProperties.
Import Capture CaptureFacts CaptureLemmas.
Local Open Scope nat_scope.

(** X11 ([process] on any input): whatever the shape of the inputs, channels
    of different lengths included, [process] comes to its end without a
    RangeError and keeps the processor alive; it posts only full chunks in
    planar layout; and no sample of channel 0 is lost or reordered. *)
Theorem worklet_never_throws bufferSize blocks :
  let p0 := constructor bufferSize in
  ∃ p out,
    worklet_run blocks p0 = Some (p, out)
    ∧ ready p
    ∧ Forall (full_chunk (_size p0)) out
    ∧ concat (plane0 <$> out) ++ pending0 p = concat (input0 <$> blocks).
Proof.
  intros p0.
  destruct (worklet_run_total blocks p0 (constructor_ready bufferSize))
    as (p & out & Hrun & Hp & _ & Hall & He).
  exists p, out. do 3 (split; [done|]). by rewrite He.
Qed.

(** X12 (the 'stop' message): once the processor has been told to stop,
    [process] returns [false] and posts nothing, whatever comes in; the
    samples buffered at that moment are never posted. *)
Theorem stopped_processor_is_silent blocks p :
  worklet_run blocks (on_stop p) = Some (on_stop p, [])
  ∧ ∀ inputs, process inputs (on_stop p) = Some (false, on_stop p, []).
Proof.
  split; [apply worklet_run_stopped|]. intros inputs. apply process_stopped.
Qed.

(** X13 (one input channel): when the inputs have a single channel, both
    planes of every chunk posted carry it. *)
Theorem mono_input_duplicated bufferSize blocks :
  Forall mono blocks →
  ∃ p out,
    worklet_run blocks (constructor bufferSize) = Some (p, out)
    ∧ Forall (λ m, plane1 m = plane0 m) out
    ∧ pending1 p = pending0 p.
Proof.
  intros Hm.
  assert (Forall even_input blocks) as Hev.
  { eapply Forall_impl; [exact Hm|]. intros inputs H. unfold even_input.
    by rewrite mono_even. }
  assert (input1 <$> blocks = input0 <$> blocks) as Hin.
  { apply Forall_fmap_ext. eapply Forall_impl; [exact Hm|].
    intros inputs H. by apply mono_even. }
  destruct (worklet_run_spec blocks (constructor bufferSize)
              (constructor_ready bufferSize) Hev)
    as (p & out & Hrun & Hp & _ & Hall & E0 & E1).
  rewrite Hin in E1. unfold pending0 at 2 in E0. unfold pending1 at 2 in E1.
  simpl in E0, E1.
  destruct (planes_equal _ out (pending0 p) (pending1 p) Hall) as [H1 H2].
  { by rewrite E0, E1. }
  by exists p, out.
Qed.

Lemma mono_input_duplicated_witness :
  ∃ p out,
    worklet_run mono_blocks (constructor 2) = Some (p, out)
    ∧ Forall (λ m, plane1 m = plane0 m) out
    ∧ pending1 p = pending0 p.
Proof.
  assert (Forall mono mono_blocks) as Hm.
  { repeat (apply List.Forall_cons; [reflexivity|]). apply List.Forall_nil. }
  exact (mono_input_duplicated 2 mono_blocks Hm).
Defined.

End CaptureProperties.

(** * Further properties: the bridged BroadcastChannel *)

Module RelayProperties.
Import Relay RelayFacts RelayLemmas.
Local Open Scope nat_scope.

(** X14 (the registry): whatever the page does, the registry holds under
    each name exactly the open instances of that name, each once; a name
    with no open instance left has no entry, so entries do not pile up;
    and every open instance is registered under its name. *)
Theorem registry_tracks_open_instances evs :
  let w := run new_context evs in
  (∀ nm set, registry w !! nm = Some set →
     set ≠ [] ∧ NoDup set ∧ ∀ j, j ∈ set ↔ open_on w nm j)
  ∧ (∀ nm j, open_on w nm j → is_Some (registry w !! nm)).
Proof. intros w. apply (run_registry_ok new_context evs new_context_ok). Qed.

(** X15 (who is sent to): in every state the page can bring about, a
    publish through [i] on channel [nm] is fanned out to the open instances
    of that name other than [i], each once, and a message coming in from
    another window to the open instances of that name, each once. *)
Theorem fan_out_targets evs i nm :
  let w := run new_context evs in
  NoDup (local_targets i nm w)
  ∧ (∀ j, j ∈ local_targets i nm w ↔ j ≠ i ∧ open_on w nm j)
  ∧ NoDup (open_targets nm w)
  ∧ (∀ j, j ∈ open_targets nm w ↔ open_on w nm j).
Proof.
  intros w.
  pose proof (run_registry_ok new_context evs new_context_ok) as Hok.
  fold w in Hok.
  destruct (local_targets_spec w i nm Hok) as [H1 H2].
  destruct (open_targets_spec w nm Hok) as [H3 H4]. done.
Qed.

(** X16 (a publish that throws): [postMessage] throws only on a closed
    instance or on a message that cannot be cloned (one that holds a
    function, or a platform object of an interface that is not
    serializable, such as a MessagePort), and then it has changed nothing:
    no copy was queued for any instance and nothing went to the other
    windows. *)
Theorem failed_publish_leaves_no_trace i m w e w' :
  postMessage i m w = Thrown e w' →
  w' = w
  ∧ (instances w !! i = None ∨ is_closed w i = true ∨ cloneable m = false).
Proof. apply postMessage_thrown. Qed.

Lemma failed_publish_leaves_no_trace_witness :
  postMessage 0 (VObj 1 [("f", VFun 7)]) two_on_x
  = Thrown DataCloneError two_on_x
  ∧ (instances two_on_x !! 0 = None ∨ is_closed two_on_x 0 = true
     ∨ cloneable (VObj 1 [("f", VFun 7)]) = false)
  ∧ postMessage 0 (VArr 1 [VHost 2 "MessagePort"]) two_on_x
    = Thrown DataCloneError two_on_x
  ∧ (instances two_on_x !! 0 = None ∨ is_closed two_on_x 0 = true
     ∨ cloneable (VArr 1 [VHost 2 "MessagePort"]) = false).
Proof.
  assert (postMessage 0 (VObj 1 [("f", VFun 7)]) two_on_x
          = Thrown DataCloneError two_on_x) as H by (vm_compute; reflexivity).
  assert (postMessage 0 (VArr 1 [VHost 2 "MessagePort"]) two_on_x
          = Thrown DataCloneError two_on_x) as H' by (vm_compute; reflexivity).
  split; [exact H|]. split.
  { exact (proj2 (failed_publish_leaves_no_trace _ _ _ _ _ H)). }
  split; [exact H'|].
  exact (proj2 (failed_publish_leaves_no_trace _ _ _ _ _ H')).
Defined.

(** X17 (asynchrony, and no echo to the other windows): no call of the page
    and no message coming in hands an event to a handler, only a microtask
    does; and only [postMessage] sends to the main process, so a message
    that came in from another window is never sent on. *)
Theorem delivery_is_asynchronous w a :
  (a ≠ Microtask → delivered (step w a) = delivered w)
  ∧ ((∀ i m, a ≠ Post i m) → sent (step w a) = sent w).
Proof. split; [apply step_delivered|apply step_sent]. Qed.

(** X18 (the microtasks): run to its end, the queue hands out its events in
    the order they were queued, each to its target if that is still open,
    calling the [onmessage] handler the target has when the microtask runs;
    and it touches neither instances, registry nor what was sent. *)
Theorem microtasks_run_in_order w :
  let w' := drain w in
  microtasks w' = []
  ∧ delivered w'
    = delivered w ++ omap (delivery_of (instances w)) (microtasks w)
  ∧ instances w' = instances w ∧ registry w' = registry w
  ∧ sent w' = sent w.
Proof.
  intros w'. destruct (drain_microtasks w) as (H1 & H2 & H3 & H4 & H5 & _).
  done.
Qed.

(** X19 (a publish, delivered): in a state the page can bring about, with
    no microtask pending, a publish of a cloneable message through an open
    instance, followed by the microtasks, gives every other open instance
    of the channel one event more, deep-equal to the message, and gives
    nothing to the publishing instance, to closed instances and to the
    instances of other channels. *)
Theorem publish_delivers_once evs i inst m :
  let w := run new_context evs in
  microtasks w = [] →
  instances w !! i = Some inst → _closed inst = false → cloneable m = true →
  let w2 := drain (step w (Post i m)) in
  microtasks w2 = []
  ∧ ∀ j,
      (j ≠ i ∧ open_on w (name inst) j →
         ∃ d, received j w2 = received j w ++ [d] ∧ deep_equal d m)
      ∧ (¬ (j ≠ i ∧ open_on w (name inst) j) → received j w2 = received j w).
Proof.
  intros w. apply publish_delivers_once_lemma.
  apply (run_registry_ok new_context evs new_context_ok).
Qed.

Lemma publish_delivers_once_witness :
  let w := run new_context [New "x"; New "x"; New "y"] in
  let w2 := drain (step w (Post 0 (VNum 1))) in
  (∃ d, received 1 w2 = received 1 w ++ [d] ∧ deep_equal d (VNum 1))
  ∧ received 0 w2 = received 0 w
  ∧ received 2 w2 = received 2 w.
Proof.
  intros w w2.
  pose (inst := {| name := "x"; _closed := false; _onmessage := None;
                   _onmessageerror := None |}).
  assert (microtasks w = []) as Hq by (vm_compute; reflexivity).
  assert (instances w !! 0 = Some inst) as Hi by (vm_compute; reflexivity).
  assert (_closed inst = false) as Hc by reflexivity.
  assert (cloneable (VNum 1) = true) as Hm by reflexivity.
  pose proof (publish_delivers_once [New "x"; New "x"; New "y"] 0 inst
                (VNum 1) Hq Hi Hc Hm) as [_ H].
  split; [|split].
  - apply (proj1 (H 1)). split; [discriminate|].
    exists inst. split; [vm_compute; reflexivity|]. by split.
  - apply (proj2 (H 0)). intros [H0 _]. by apply H0.
  - apply (proj2 (H 2)). intros [_ (x & Hx & Hn & _)].
    vm_compute in Hx. injection Hx as <-. discriminate Hn.
Defined.

End RelayProperties.

(** * Further properties: the main process between the renderers *)

Module MainProperties.
Import Main MainFacts.
Local Open Scope nat_scope.

(** X20 (a message across windows): a JSON-representable message published
    in the page of one window goes to the main process once; the main
    process sends it to every live window but the publisher's, and sends
    nothing back to the publisher's; and in each of those windows, when its
    handler and then its microtasks have run, every open instance of the
    channel has one event more, deep-equal to the message, no other
    instance has any, and nothing was sent on to the main process again. *)
Theorem relay_across_windows ws a ka da i inst m :
  ws !! a = Some (ka, da) →
  Relay.instances (page da) !! i = Some inst → Relay._closed inst = false →
  Relay.json m = true →
  let payload := (Relay.name inst, Relay.erase m) in
  let da' := set_page (Relay.step (page da) (Relay.Post i m)) da in
  let ws' :=
    ipc_broadcast_channel_message (webContents_id da) payload
      (<[a := (ka, da')]> ws) in
  Relay.sent (page da') = Relay.sent (page da) ++ [payload]
  ∧ ws' !! a = Some (ka, da')
  ∧ ∀ b kb db,
      ws !! b = Some (kb, db) → b ≠ a →
      (isDestroyed db = true ∨ webContents_id db = webContents_id da →
         ws' !! b = Some (kb, db))
      ∧ (isDestroyed db = false → webContents_id db ≠ webContents_id da →
         Relay.registry_ok (page db) → ipc_in db = [] →
         Relay.microtasks (page db) = [] →
         ∃ db',
           ws' !! b = Some (kb, db') ∧ ipc_in db' = [payload]
           ∧ ipc_in (renderer_turn db') = []
           ∧ Relay.sent (Relay.drain (page (renderer_turn db')))
             = Relay.sent (page db)
           ∧ ∀ j,
               (Relay.open_on (page db) (Relay.name inst) j →
                  ∃ d, Relay.received j
                         (Relay.drain (page (renderer_turn db')))
                       = Relay.received j (page db) ++ [d]
                    ∧ Relay.deep_equal d m)
               ∧ (¬ Relay.open_on (page db) (Relay.name inst) j →
                  Relay.received j (Relay.drain (page (renderer_turn db')))
                  = Relay.received j (page db))).
Proof. apply relay_across_windows_lemma. Qed.

Lemma relay_across_windows_witness :
  let m := Relay.VArr 0 [Relay.VNum 7] in
  let payload := ("x", Relay.erase m) in
  let one' :=
    set_page (Relay.step (page window_one) (Relay.Post 0 m)) window_one in
  let ws' :=
    ipc_broadcast_channel_message 11 payload
      (<[0 := (1%Z, one')]> three_windows) in
  Relay.sent (page one') = Relay.sent (page window_one) ++ [payload]
  ∧ ws' !! 0 = Some (1%Z, one')
  ∧ ws' !! 2 = Some (3%Z, window_gone)
  ∧ ∃ two',
      ws' !! 1 = Some (2%Z, two') ∧ ipc_in two' = [payload]
      ∧ ∃ d, Relay.received 0 (Relay.drain (page (renderer_turn two')))
             = Relay.received 0 (page window_two) ++ [d]
          ∧ Relay.deep_equal d m.
Proof.
  intros m payload one' ws'.
  pose (inst := {| Relay.name := "x"; Relay._closed := false;
                   Relay._onmessage := None;
                   Relay._onmessageerror := None |}).
  assert (three_windows !! 0 = Some (1%Z, window_one)) as Ha by reflexivity.
  assert (Relay.instances (page window_one) !! 0 = Some inst) as Hi
    by (vm_compute; reflexivity).
  assert (Relay._closed inst = false) as Hc by reflexivity.
  assert (Relay.json m = true) as Hj by reflexivity.
  destruct (relay_across_windows three_windows 0 1%Z window_one 0 inst m
              Ha Hi Hc Hj) as (H1 & H2 & H3).
  split; [exact H1|]. split; [exact H2|]. split.
  - apply (proj1 (H3 2 3%Z window_gone eq_refl ltac:(discriminate))).
    left. vm_compute. reflexivity.
  - destruct (proj2 (H3 1 2%Z window_two eq_refl ltac:(discriminate)))
      as (two' & Hb & Hin & _ & _ & Hrec).
    + vm_compute. reflexivity.
    + discriminate.
    + apply (RelayLemmas.run_registry_ok Relay.new_context [Relay.New "x"]
               RelayLemmas.new_context_ok).
    + reflexivity.
    + vm_compute. reflexivity.
    + exists two'. split; [exact Hb|]. split; [exact Hin|].
      apply (proj1 (Hrec 0)). exists inst.
      split; [vm_compute; reflexivity|]. by split.
Defined.

(** X21 (where a chunk of audio goes): a chunk coming in from a renderer
    changes at most one entry of [browserWindows], and never its key or
    the order of the Map; it reaches no manager of a destroyed window, of a
    window of another renderer, or of a window whose NDI output is not
    active. *)
Theorem audio_reaches_one_manager e senderId n buf ws :
  let ws' := ipc_audio_pcm_data e senderId n buf ws in
  ws'.*1 = ws.*1
  ∧ (∀ k kd, ws !! k = Some kd →
       isDestroyed kd.2 = true ∨ webContents_id kd.2 ≠ senderId
       ∨ ndiActive kd.2 = false →
       ws' !! k = Some kd)
  ∧ (∃ k, ∀ k', k' ≠ k → ws' !! k' = ws !! k').
Proof.
  induction ws as [|[key d] ws (IH1 & IH2 & k & IH3)]; cbn zeta.
  { split; [done|]. split; [done|]. by exists 0. }
  cbn [ipc_audio_pcm_data].
  destruct (negb (isDestroyed d) && bool_decide (webContents_id d = senderId))
    eqn:Hhit.
  - apply andb_prop in Hhit as [Hlive Hid].
    apply negb_true_iff in Hlive. apply bool_decide_eq_true in Hid.
    split; [done|]. split.
    + intros [|k'] kd Hk Hwhy; [|done]. simpl in Hk. simplify_eq. simpl in *.
      destruct Hwhy as [H|[H|H]]; [congruence|done|by rewrite H].
    + exists 0. by intros [|k'] Hne.
  - split; [by rewrite !fmap_cons, IH1|]. split.
    + intros [|k'] kd Hk Hwhy; [done|]. simpl. by apply IH2.
    + exists (S k). intros [|k'] Hne; [done|]. simpl. apply IH3. lia.
Qed.

(** X22 (from the worklet to the sender): a chunk that the capture
    processor posts, for inputs of any shape, sent on by its renderer to
    the main process, is handed by the manager of the first live window of
    that renderer, when NDI is active there, the manager accepts audio and
    has no send in flight, to [sender.audio] at once, as one frame whose
    sample count is the processor's buffer size, whose channel stride is
    four bytes a sample, and whose data holds exactly as many bytes as its
    two channels of that stride; no other entry of [browserWindows]
    changes. *)
Theorem audio_chunk_to_frame float32 e ws k key d bufferSize blocks p out m
    id g evs :
  (∀ s, length (float32 s) = 4) →
  ws !! k = Some (key, d) → isDestroyed d = false → ndiActive d = true →
  (∀ k' key' d', k' < k → ws !! k' = Some (key', d') →
     isDestroyed d' = true ∨ webContents_id d' ≠ webContents_id d) →
  Capture.worklet_run blocks (Capture.constructor bufferSize) = Some (p, out) →
  m ∈ out →
  ndiManager d = Ndi.run (Ndi.new_world id g) evs →
  Ndi.accepts (ndiManager d) →
  Ndi._audioDraining (Ndi.this (ndiManager d)) = false →
  let size := Capture._size (Capture.constructor bufferSize) in
  ∃ mgr h f,
    ipc_audio_pcm_data e (webContents_id d) (Z.of_nat (Capture.noSamples m))
      (Buffer_from float32 (Capture.planarBuf m)) ws
    = <[k := (key, set_ndiManager mgr d)]> ws
    ∧ Ndi.sender (Ndi.this (ndiManager d)) = Some h
    ∧ Ndi.calls mgr = Ndi.calls (ndiManager d) ++ [Ndi.Audio h f]
    ∧ Ndi.a_noSamples f = Z.of_nat size
    ∧ Ndi.channelStrideBytes f = (Z.of_nat size * 4)%Z
    ∧ Ndi.sampleRate f = 48000%Z ∧ Ndi.noChannels f = 2%Z
    ∧ Z.of_nat (length (Ndi.a_data f))
      = (Ndi.noChannels f * Ndi.channelStrideBytes f)%Z.
Proof.
  intros H4 Hk Hlive Hact Hfirst Hrun Hm Hreach Hacc Hdr size.
  destruct (CaptureLemmas.worklet_run_total blocks
              (Capture.constructor bufferSize)
              (CaptureFacts.constructor_ready bufferSize))
    as (p' & out' & Hrun' & _ & _ & Hall & _).
  rewrite Hrun in Hrun'. simplify_eq.
  rewrite Forall_forall in Hall.
  by apply (audio_chunk_to_frame_lemma float32 e ws k key d m size id g evs);
    [..|apply Hall| | |].
Qed.

Lemma audio_chunk_to_frame_witness :
  ∃ m mgr h f,
    ipc_audio_pcm_data Ndi.quiet_env 11 (Z.of_nat (Capture.noSamples m))
      (Buffer_from four_bytes (Capture.planarBuf m)) three_windows
    = <[0 := (1%Z, set_ndiManager mgr window_one)]> three_windows
    ∧ Ndi.calls mgr
      = Ndi.calls (ndiManager window_one) ++ [Ndi.Audio h f]
    ∧ Ndi.a_noSamples f
      = Z.of_nat (Capture._size (Capture.constructor 4))
    ∧ Z.of_nat (length (Ndi.a_data f))
      = (Ndi.noChannels f * Ndi.channelStrideBytes f)%Z.
Proof.
  destruct (Capture.worklet_run Capture.demo_blocks (Capture.constructor 4))
    as [[p [|m out]]|] eqn:Hrun;
    [vm_compute in Hrun; discriminate Hrun| |vm_compute in Hrun; discriminate Hrun].
  assert (three_windows !! 0 = Some (1%Z, window_one)) as Hk by reflexivity.
  assert (isDestroyed window_one = false) as Hlive
    by (vm_compute; reflexivity).
  assert (ndiActive window_one = true) as Hact by reflexivity.
  assert (Ndi.accepts (ndiManager window_one)) as Hacc.
  { split; [vm_compute; reflexivity|]. split; [vm_compute; reflexivity|].
    exists 0. vm_compute. reflexivity. }
  assert (Ndi._audioDraining (Ndi.this (ndiManager window_one)) = false)
    as Hdr by (vm_compute; reflexivity).
  destruct (audio_chunk_to_frame four_bytes Ndi.quiet_env three_windows 0 1%Z
              window_one 4 Capture.demo_blocks p (m :: out) m 1%Z true
              Ndi.started_evs (λ _, eq_refl) Hk Hlive Hact
              (λ k' _ _ Hlt _, match Nat.nlt_0_r k' Hlt with end)
              Hrun (list_elem_of_here m out) eq_refl Hacc Hdr)
    as (mgr & h & f & H1 & _ & H3 & H4 & _ & _ & _ & H8).
  exists m, mgr, h, f. split; [exact H1|]. split; [exact H3|].
  split; [exact H4|exact H8].
Defined.

End MainProperties.
